(** * serato2rekordbox: binary decoders and playlist tree builder

    A shallow embedding of the TypeScript sources

      - [src/lib/util.ts]                 (module [Util])
      - [src/lib/crateParser.ts]          (module [CrateParser])
      - [src/lib/trackMetaDataParser.ts]  (module [TrackMetaDataParser])
      - [src/lib/rekordboxExporter.ts]    (module [RekordboxExporter])
      - [src/cli.ts]                      (module [Cli])

    together with the properties of the specification that concern them.

    Conventions.  An [ArrayBuffer] is a [list byte]; a [DataView] is a window
    (buffer, byte offset, byte length) on it and every accessor checks the
    window as the platform does, raising [RangeError].  A JavaScript string is
    the list of its UTF-16 code units.  A function that can throw returns a
    [result]; [x <- c ;; k] sequences two such computations and stops at the
    first exception, which is how an uncaught [throw] behaves. *)

From Stdlib Require Import ZArith List Lia Strings.Byte String.
From stdpp Require Import base option list gmap strings sorting.

Open Scope Z_scope.

(** ** Platform layer: numbers, strings, exceptions, DataView *)

Module JS.

(** A JavaScript string: its UTF-16 code units. *)
Definition jsstring : Type := list Z.

Definition u8 (b : byte) : Z := Z.of_N (Byte.to_N b).

(** A string literal of the source, as code units. *)
Definition str (s : string) : jsstring := map u8 (list_byte_of_string s).

(** [String.fromCharCode(x)]. *)
Definition fromCharCode (x : Z) : jsstring := [x mod 65536].

(** Exceptions raised by the platform or by the program.  The messages of
    the program's [throwParseError] calls are kept as constructors that carry
    the interpolated values. *)
Inductive error : Type :=
| RangeError
| FileDoesNotExist (path : jsstring)
| NoSectionsFound
| ExpectedNodeType (expected got : jsstring)
| UnsupportedCrateVersion (got : jsstring)
| NodeTypeNotFound (type : jsstring)
| InvalidMarkersHeader.

(** The outcome of a call: a value, an exception, or, for the loops that
    are defined with a bound on their iterations, the bound exhausted.  The
    bounds that the program's entry points pass are never exhausted
    ([parseCrate_returns], [parseSeratorMarkers2_terminates]). *)
Inductive result (A : Type) : Type :=
| OK (a : A)
| Throws (e : error)
| OutOfFuel.

Arguments OK {A} a.
Arguments Throws {A} e.
Arguments OutOfFuel {A}.

Definition bind {A B : Type} (c : result A) (k : A -> result B) : result B :=
  match c with
  | OK a => k a
  | Throws e => Throws e
  | OutOfFuel => OutOfFuel
  end.

(** ToInt32 of a mathematical integer. *)
Definition toInt32 (z : Z) : Z := (z + 2 ^ 31) mod 2 ^ 32 - 2 ^ 31.

(** [a << b] on Numbers holding integers: the left operand is taken as a
    32-bit integer, the shift count modulo 32, the result is a signed 32-bit
    integer. *)
Definition shl32 (a b : Z) : Z := toInt32 (Z.shiftl (toInt32 a) (b mod 32)).

(** [a | b] on Numbers holding integers. *)
Definition or32 (a b : Z) : Z := toInt32 (Z.lor (toInt32 a) (toInt32 b)).

(** Big-endian value of a byte sequence. *)
Definition beZ (bs : list byte) : Z :=
  fold_left (fun acc b => acc * 256 + u8 b) bs 0.

Record DataView : Type := mkDataView {
  buffer : list byte;
  byteOffset : Z;
  byteLength : Z
}.

Definition bufLen (data : list byte) : Z := Z.of_nat (length data).

(** [new DataView(data, byteOffset)] and [new DataView(data, byteOffset,
    byteLength)]: a [RangeError] when the window leaves the buffer. *)
Definition newDataView (data : list byte) (off : Z) (len : option Z)
  : result DataView :=
  if (off <? 0) || (bufLen data <? off) then Throws RangeError
  else match len with
       | None => OK (mkDataView data off (bufLen data - off))
       | Some n =>
           if (n <? 0) || (bufLen data <? off + n) then Throws RangeError
           else OK (mkDataView data off n)
       end.

(** [new DataView(data)]. *)
Definition wholeView (data : list byte) : DataView :=
  mkDataView data 0 (bufLen data).

(** The [n] bytes at index [i] of a view; a [RangeError] when they are not all
    inside the view. *)
Definition getBytes (v : DataView) (i n : Z) : result (list byte) :=
  if (0 <=? i) && (i + n <=? byteLength v) then
    let bs := take (Z.to_nat n) (drop (Z.to_nat (byteOffset v + i)) (buffer v)) in
    if bufLen bs =? n then OK bs else Throws RangeError
  else Throws RangeError.

Definition getUint8 (v : DataView) (i : Z) : result Z :=
  bind (getBytes v i 1) (fun bs => OK (beZ bs)).

(** [getUint16(i, false)]. *)
Definition getUint16 (v : DataView) (i : Z) : result Z :=
  bind (getBytes v i 2) (fun bs => OK (beZ bs)).

(** [getUint32(i, false)]. *)
Definition getUint32 (v : DataView) (i : Z) : result Z :=
  bind (getBytes v i 4) (fun bs => OK (beZ bs)).

(** A 32-bit float, kept as its IEEE-754 bit pattern. *)
Inductive float32 : Type := Float32 (bits : Z).

(** [getFloat32(i, false)]. *)
Definition getFloat32 (v : DataView) (i : Z) : result float32 :=
  bind (getBytes v i 4) (fun bs => OK (Float32 (beZ bs))).

(** [s.split(sep)] for a separator that is not empty: the pieces between the
    successive leftmost occurrences of [sep].  [skip] counts the code units
    of a matched separator still to be dropped, [cur] holds the current piece
    in reverse. *)
Fixpoint split_go (sep : jsstring) (skip : nat) (cur s : jsstring)
  : list jsstring :=
  match s with
  | [] => [rev cur]
  | c :: s' =>
      match skip with
      | S k => split_go sep k cur s'
      | O =>
          if bool_decide (take (length sep) s = sep)
          then rev cur :: split_go sep (pred (length sep)) [] s'
          else split_go sep O (c :: cur) s'
      end
  end.

Definition split (sep s : jsstring) : list jsstring := split_go sep O [] s.

(** [a.join(sep)]. *)
Fixpoint join (sep : jsstring) (a : list jsstring) : jsstring :=
  match a with
  | [] => []
  | [x] => x
  | x :: rest => x ++ sep ++ join sep rest
  end.

(** [s.includes(t)]. *)
Fixpoint includes (s t : jsstring) : bool :=
  bool_decide (take (length t) s = t)
  || match s with
     | [] => false
     | _ :: s' => includes s' t
     end.

End JS.

Import JS.

Declare Scope js_scope.
Delimit Scope js_scope with js.
Notation "x <- c ;; k" := (bind c (fun x => k))
  (at level 100, c at next level, right associativity) : js_scope.
Open Scope js_scope.

#[global] Instance byte_eq_dec : EqDecision byte := Byte.byte_eq_dec.

(** ** src/lib/util.ts *)

Module Util.

(** The files of the storage, by path. *)
Definition FileSystem : Type := jsstring -> option (list byte).

Definition readFileToArrayBufferOrThrow (fs : FileSystem) (path : jsstring)
  : result (list byte) :=
  match fs path with
  | Some data => OK data
  | None => Throws (FileDoesNotExist path)
  end.

(** *** Directories *)

Record Stats : Type := mkStats {
  isDirectory : bool;
  dev : Z
}.

(** What the platform's [stat(path)] gives: the stats of the entry, a
    rejection whose code is ['ENOENT'], or another rejection, of which [err]
    is the text that a template literal makes of it. *)
Inductive StatOutcome : Type :=
| StatOK (pathStats : Stats)
| StatENOENT
| StatFails (err : jsstring).

(** The outcome of the functions that throw an [Error] made of a message. *)
Inductive outcome (A : Type) : Type :=
| Returns (a : A)
| ThrowsError (message : jsstring).

Arguments Returns {A} a.
Arguments ThrowsError {A} message.

(** [getDirStatsOrThrow].  The [Error] for a path that is not a directory
    is thrown inside the [try] block: the [catch] of the function receives
    it, finds no [code] on it and throws the last message with the text of
    that error. *)
Definition getDirStatsOrThrow (stat : jsstring -> StatOutcome)
  (path : jsstring) : outcome Stats :=
  match stat path with
  | StatOK pathStats =>
      if negb (isDirectory pathStats) then
        ThrowsError
          (str "Failed to check if directory '" ++ path ++ str "' exists: "
           ++ str "Error: Path '" ++ path ++ str "' is not a directory")
      else Returns pathStats
  | StatENOENT =>
      ThrowsError (str "Directory '" ++ path ++ str "' does not exist")
  | StatFails err =>
      ThrowsError
        (str "Failed to check if directory '" ++ path ++ str "' exists: "
         ++ err)
  end.

(** The loop [while (pathSegments.length > 0)] of [resolveMountPathOrThrow],
    by recursion on the segments read from the last: [rsegments] is
    [pathSegments] reversed, so that [pathSegments.pop()] drops its head.
    [lastPath] is set whenever [lastDev] is, which is what the assertion
    [lastPath!] relies on. *)
Fixpoint resolveMountPath_rev (stat : jsstring -> StatOutcome)
  (rsegments : list jsstring) (lastDev : option Z)
  (lastPath : option jsstring) : outcome jsstring :=
  match rsegments with
  | [] => Returns (default (str "/") lastPath)
  | _ :: rest =>
      let joined := join (str "/") (rev rsegments) in
      let _path := if bool_decide (joined = []) then str "/" else joined in
      match getDirStatsOrThrow stat _path with
      | ThrowsError message => ThrowsError message
      | Returns pathStats =>
          if match lastDev with
             | Some d => negb (dev pathStats =? d)
             | None => false
             end
          then Returns (default [] lastPath)
          else resolveMountPath_rev stat rest (Some (dev pathStats))
                 (Some _path)
      end
  end.

Definition resolveMountPathOrThrow (stat : jsstring -> StatOutcome)
  (path : jsstring) : outcome jsstring :=
  resolveMountPath_rev stat (rev (split (str "/") path)) None None.

End Util.

(** ** src/lib/crateParser.ts *)

Module CrateParser.

Record CrateSection : Type := mkSection {
  stype : jsstring;
  offset : Z;
  dataOffset : Z;
  dataSize : Z;
  data : DataView
}.

(** [Node.value]: [string|number|null]. *)
Inductive NodeValue : Type :=
| VNull
| VString (s : jsstring)
| VNumber (n : Z).

#[global] Instance NodeValue_eq_dec : EqDecision NodeValue.
Proof. solve_decision. Defined.

#[warnings="-register-all"]
Inductive Node : Type := mkNode {
  type : jsstring;
  value : NodeValue;
  children : list Node
}.

Definition NodeList : Type := list Node.

Record CrateTrack : Type := mkCrateTrack { path : jsstring }.

Record Crate : Type := mkCrate {
  name : list jsstring;
  version : jsstring;
  tracks : list CrateTrack
}.

Definition parseSection (data : list byte) (offset : Z) : result CrateSection :=
  view <- newDataView data offset None ;;
  c0 <- getUint8 view 0 ;;
  c1 <- getUint8 view 1 ;;
  c2 <- getUint8 view 2 ;;
  c3 <- getUint8 view 3 ;;
  let sectionType :=
    fromCharCode c0 ++ fromCharCode c1 ++ fromCharCode c2 ++ fromCharCode c3 in
  sectionSize <- getUint32 view 4 ;;
  sectionContents <- newDataView data (offset + 8) (Some sectionSize) ;;
  OK (mkSection sectionType offset (offset + 8) sectionSize sectionContents).

(** [parseString16]: the loop [for (i = 0; i < size; i += 2)] runs at most
    [ceil(size / 2)] times; [n] is the number of iterations left. *)
Fixpoint parseString16_from (n : nat) (data : DataView) (i : Z)
  : result jsstring :=
  match n with
  | O => OK []
  | S n' =>
      charCode <- getUint16 data i ;;
      if charCode =? 0 then OK []
      else
        chars <- parseString16_from n' data (i + 2) ;;
        OK (fromCharCode charCode ++ chars)
  end.

Definition parseString16 (data : DataView) (size : Z) : result jsstring :=
  parseString16_from (Z.to_nat ((size + 1) / 2)) data 0.

(** [parseInt8]: [value |= data.getUint8(i) << (i * 8)] for [i] from 0 to
    [size - 1]; [n] is the number of iterations left. *)
Fixpoint parseInt8_from (n : nat) (data : DataView) (i value : Z) : result Z :=
  match n with
  | O => OK value
  | S n' =>
      b <- getUint8 data i ;;
      parseInt8_from n' data (i + 1) (or32 value (shl32 b (i * 8)))
  end.

Definition parseInt8 (data : DataView) (size : Z) : result Z :=
  parseInt8_from (Z.to_nat size) data 0 0.

Definition isString16Tag (t : jsstring) : bool :=
  bool_decide (t = str "vrsn") || bool_decide (t = str "tvcn")
  || bool_decide (t = str "tvcw") || bool_decide (t = str "ptrk").

Definition isInt8Tag (t : jsstring) : bool := bool_decide (t = str "brev").

(** [parseSectionNodes]: the [while] loop over the sub-sections of [section],
    from [offset] on, with the recursive call for container sections.  Every
    call, nested or next in sequence, spends one unit of [fuel]. *)
Fixpoint parseSectionNodes_from (fuel : nat) (section : CrateSection)
  (offset : Z) : result NodeList :=
  match fuel with
  | O => OutOfFuel
  | S fuel' =>
      if offset <? dataOffset section + dataSize section then
        subSection <- parseSection (buffer (data section)) offset ;;
        let offset' := offset + (8 + dataSize subSection) in
        node <-
          (if isString16Tag (stype subSection) then
             s <- parseString16 (data subSection) (dataSize subSection) ;;
             OK (mkNode (stype subSection) (VString s) [])
           else if isInt8Tag (stype subSection) then
             n <- parseInt8 (data subSection) (dataSize subSection) ;;
             OK (mkNode (stype subSection) (VNumber n) [])
           else
             sub <- parseSectionNodes_from fuel' subSection
                      (dataOffset subSection) ;;
             OK (mkNode (stype subSection) VNull sub)) ;;
        nodes <- parseSectionNodes_from fuel' section offset' ;;
        OK (node :: nodes)
      else OK []
  end.

Definition parseSectionNodes (fuel : nat) (section : CrateSection)
  : result NodeList :=
  parseSectionNodes_from fuel section (dataOffset section).

Definition expectNodeType (node : Node) (t : jsstring) : result Node :=
  if bool_decide (type node = t) then OK node
  else Throws (ExpectedNodeType t (type node)).

Definition findNode (nodeList : NodeList) (t : jsstring) : option Node :=
  find (fun node => bool_decide (type node = t)) nodeList.

Definition findNodeOrThrow (nodeList : NodeList) (t : jsstring) : result Node :=
  match findNode nodeList t with
  | Some node => OK node
  | None => Throws (NodeTypeNotFound t)
  end.

(** The cast [value as string]: no run-time effect.  The decoder gives every
    ['vrsn'] and ['ptrk'] node a string value (lemma
    [parseSectionNodes_from_stringTagged]), so the other cases are never
    taken on its output. *)
Definition asString (v : NodeValue) : jsstring :=
  match v with
  | VString s => s
  | _ => []
  end.

Definition crateVersion : jsstring := str "1.0/Serato ScratchLive Crate".

Definition rootSection (data : list byte) : CrateSection :=
  mkSection (str "root") 0 0 (bufLen data) (wholeView data).

(** [path.split('/').pop()?.split('.').shift()]. *)
Definition filenameWithoutExtension (path : jsstring) : jsstring :=
  hd [] (split (str ".") (List.last (split (str "/") path) [])).

(** The loop [for (i = 1; i < nodes.length; i++)] of [parseCrate]. *)
Fixpoint collectTracks (nodes : NodeList) : result (list CrateTrack) :=
  match nodes with
  | [] => OK []
  | node :: rest =>
      if bool_decide (type node = str "otrk") then
        ptrk <- findNodeOrThrow (children node) (str "ptrk") ;;
        tracks <- collectTracks rest ;;
        OK (mkCrateTrack (asString (value ptrk)) :: tracks)
      else collectTracks rest
  end.

Definition parseCrate (fs : Util.FileSystem) (path : jsstring) : result Crate :=
  data <- Util.readFileToArrayBufferOrThrow fs path ;;
  nodes <- parseSectionNodes (S (length data)) (rootSection data) ;;
  match nodes with
  | [] => Throws NoSectionsFound
  | first :: rest =>
      version <- expectNodeType first (str "vrsn") ;;
      if bool_decide (value version = VString crateVersion) then
        tracks <- collectTracks rest ;;
        OK (mkCrate (split (str "%%") (filenameWithoutExtension path))
                    (asString (value version)) tracks)
      else Throws (UnsupportedCrateVersion (asString (value version)))
  end.

End CrateParser.

(** ** src/lib/trackMetaDataParser.ts *)

Module TrackMetaDataParser.

(** *** Platform: [new TextDecoder().decode(bytes)]

    The UTF-8 decoder of the Encoding standard: a leading byte-order mark is
    dropped, an ill-formed sequence yields U+FFFD and the offending byte is
    read again as the start of a sequence; the code points are then written
    as UTF-16 code units. *)

(** What a byte does at the start of a sequence: the code points it emits
    and, for a lead byte, the partial code point, the number of continuation
    bytes still needed and the range allowed for the next byte. *)
Definition utf8Lead (b : Z) : list Z * option (Z * nat * Z * Z) :=
  if b <=? 127 then ([b], None)
  else if (194 <=? b) && (b <=? 223) then
    ([], Some (Z.land b 31, 1%nat, 128, 191))
  else if (224 <=? b) && (b <=? 239) then
    ([], Some (Z.land b 15, 2%nat,
               if b =? 224 then 160 else 128, if b =? 237 then 159 else 191))
  else if (240 <=? b) && (b <=? 244) then
    ([], Some (Z.land b 7, 3%nat,
               if b =? 240 then 144 else 128, if b =? 244 then 143 else 191))
  else ([65533], None).

Fixpoint utf8Decode (st : option (Z * nat * Z * Z)) (bs : list byte) : list Z :=
  match bs with
  | [] => match st with None => [] | Some _ => [65533] end
  | b :: rest =>
      match st with
      | None => (utf8Lead (u8 b)).1 ++ utf8Decode (utf8Lead (u8 b)).2 rest
      | Some (cp, n, lo, hi) =>
          if (lo <=? u8 b) && (u8 b <=? hi) then
            let cp' := cp * 64 + Z.land (u8 b) 63 in
            match n with
            | S (S k) => utf8Decode (Some (cp', S k, 128, 191)) rest
            | _ => cp' :: utf8Decode None rest
            end
          else
            65533 :: (utf8Lead (u8 b)).1
              ++ utf8Decode (utf8Lead (u8 b)).2 rest
      end
  end.

Definition codeUnits (cp : Z) : jsstring :=
  if cp <? 65536 then [cp]
  else [55296 + (cp - 65536) / 1024; 56320 + (cp - 65536) mod 1024].

Definition stripBOM (bs : list byte) : list byte :=
  match bs with
  | xef :: xbb :: xbf :: rest => rest
  | _ => bs
  end.

Definition textDecode (bs : list byte) : jsstring :=
  concat (map codeUnits (utf8Decode None (stripBOM bs))).

(** *** Types *)

Definition ColorRGB : Type := Z * Z * Z.
Definition ColorARGB : Type := Z * Z * Z * Z.

Record CuePoint : Type := mkCuePoint {
  cueIndex : Z;
  positionMs : Z;
  cueColor : ColorRGB;
  cueName : jsstring
}.

Record LoopEntry : Type := mkLoopEntry {
  loopIndex : Z;
  startMs : Z;
  endMs : Z;
  loopColor : ColorARGB;
  locked : bool;
  loopName : jsstring
}.

Record SeratorMarker2Data : Type := mkMarker2Data {
  m2color : option ColorARGB;
  m2cuePoints : list CuePoint;
  m2loopEntries : list LoopEntry;
  m2bpmLock : option bool
}.

Record SeratoBeatGridMarker : Type := mkBeatGridMarker {
  position : float32;
  bpm : option float32;
  beatsTillNextMarker : option Z
}.

Record SeratoBeatGridData : Type := mkBeatGridData {
  markers : list SeratoBeatGridMarker
}.

(** [TrackMetaData].  The twenty fields [name] ... [sampleRate] are copied
    from the tag reader's output when the record is created and are not
    touched afterwards; they are kept together in [common], whose type
    [Common] is the tag reader's. *)
Record TrackMetaData (Common : Type) : Type := mkTrackMetaData {
  path : jsstring;
  trackId : nat;
  size : Z;
  common : Common;
  color : option ColorARGB;
  cuePoints : list CuePoint;
  loopEntries : list LoopEntry;
  beatGridMarkers : option (list SeratoBeatGridMarker);
  bpmLock : bool;
  hasWarnings : bool
}.

Arguments mkTrackMetaData {Common}.
Arguments path {Common}.
Arguments trackId {Common}.
Arguments size {Common}.
Arguments common {Common}.
Arguments color {Common}.
Arguments cuePoints {Common}.
Arguments loopEntries {Common}.
Arguments beatGridMarkers {Common}.
Arguments bpmLock {Common}.
Arguments hasWarnings {Common}.

(** *** readNullTerminatedString *)

(** The loop [while (view.getUint8(offset + length) !== 0 && offset + length <
    view.byteLength) length++].  The read comes first, so it is the read that
    stops the loop at the end of the view, with a [RangeError].  [n] bounds
    the iterations by the number of bytes left in the view. *)
Fixpoint nullTerminatedLength (n : nat) (view : DataView) (offset length : Z)
  : result Z :=
  b <- getUint8 view (offset + length) ;;
  if negb (b =? 0) && (offset + length <? byteLength view) then
    match n with
    | O => OutOfFuel
    | S n' => nullTerminatedLength n' view offset (length + 1)
    end
  else OK length.

(** [view.buffer.slice(start, end)]. *)
Definition slice (data : list byte) (start stop : Z) : list byte :=
  take (Z.to_nat stop - Z.to_nat start) (drop (Z.to_nat start) data).

(** The bytes of the string that starts at [offset], without the
    terminator. *)
Definition readNullTerminatedBytes (view : DataView) (offset : Z)
  : result (list byte) :=
  length <- nullTerminatedLength (Z.to_nat (byteLength view - offset))
              view offset 0 ;;
  OK (slice (buffer view) (byteOffset view + offset)
        (byteOffset view + offset + length)).

Definition readNullTerminatedString (view : DataView) (offset : Z)
  : result jsstring :=
  bs <- readNullTerminatedBytes view offset ;;
  OK (textDecode bs).

(** *** parseSeratorMarkers2 *)

Record Element : Type := mkElement {
  elName : jsstring;
  elData : DataView
}.

(** The [while (offset < payload.length)] loop that frames the elements.
    [n] bounds the iterations: each one moves [offset] forward. *)
Fixpoint readElements (n : nat) (payloadView : DataView) (offset : Z)
  : result (list Element) :=
  if offset <? byteLength payloadView then
    name <- readNullTerminatedString payloadView offset ;;
    if bool_decide (name = []) then OK []
    else
      let nameLength := Z.of_nat (length name) in
      length <- getUint32 payloadView (offset + nameLength + 1) ;;
      data <- newDataView (buffer payloadView) (offset + nameLength + 5)
                (Some length) ;;
      match n with
      | O => OutOfFuel
      | S n' =>
          elements <- readElements n' payloadView
                        (offset + (nameLength + 5 + length)) ;;
          OK (mkElement name data :: elements)
      end
  else OK [].

(** The body of [elements.forEach]: one element applied to [result]. *)
Definition applyElement (result : SeratorMarker2Data) (element : Element)
  : JS.result SeratorMarker2Data :=
  let d := elData element in
  if bool_decide (elName element = str "COLOR") then
    a <- getUint8 d 0 ;; r <- getUint8 d 1 ;;
    g <- getUint8 d 2 ;; b <- getUint8 d 3 ;;
    OK (mkMarker2Data (Some (a, r, g, b)) (m2cuePoints result)
          (m2loopEntries result) (m2bpmLock result))
  else if bool_decide (elName element = str "CUE") then
    index <- getUint8 d 1 ;;
    positionMs <- getUint32 d 2 ;;
    r <- getUint8 d 7 ;; g <- getUint8 d 8 ;; b <- getUint8 d 9 ;;
    name <- readNullTerminatedString d 12 ;;
    OK (mkMarker2Data (m2color result)
          (m2cuePoints result ++ [mkCuePoint index positionMs (r, g, b) name])
          (m2loopEntries result) (m2bpmLock result))
  else if bool_decide (elName element = str "LOOP") then
    index <- getUint8 d 1 ;;
    startMs <- getUint32 d 2 ;;
    endMs <- getUint32 d 6 ;;
    a <- getUint8 d 14 ;; r <- getUint8 d 15 ;;
    g <- getUint8 d 16 ;; b <- getUint8 d 17 ;;
    lockedByte <- getUint8 d 19 ;;
    name <- readNullTerminatedString d 20 ;;
    OK (mkMarker2Data (m2color result) (m2cuePoints result)
          (m2loopEntries result
             ++ [mkLoopEntry index startMs endMs (a, r, g, b)
                   (lockedByte =? 1) name])
          (m2bpmLock result))
  else if bool_decide (elName element = str "BPMLOCK") then
    flag <- getUint8 d 0 ;;
    OK (mkMarker2Data (m2color result) (m2cuePoints result)
          (m2loopEntries result) (Some (flag =? 1)))
  else OK result.

Fixpoint applyElements (result : SeratorMarker2Data) (elements : list Element)
  : JS.result SeratorMarker2Data :=
  match elements with
  | [] => OK result
  | element :: rest =>
      result' <- applyElement result element ;;
      applyElements result' rest
  end.

Definition emptyMarker2Data : SeratorMarker2Data :=
  mkMarker2Data None [] [] (Some false).

(** The part of [parseSeratorMarkers2] that works on the decoded payload:
    header check, element framing, dispatch. *)
Definition parseMarkers2Payload (payload : list byte)
  : result SeratorMarker2Data :=
  let payloadView := wholeView payload in
  if bool_decide (payload !! 0%nat = Some x01)
     && bool_decide (payload !! 1%nat = Some x01) then
    elements <- readElements (length payload) payloadView 2 ;;
    applyElements emptyMarker2Data elements
  else Throws InvalidMarkersHeader.

(** [parseSeratorMarkers2].  [decodeBase64] is the platform's
    [Buffer.from(s, 'base64')], a total function. *)
Definition parseSeratorMarkers2 (decodeBase64 : jsstring -> list byte)
  (view : DataView) : result SeratorMarker2Data :=
  base64String <- readNullTerminatedString view 0 ;;
  parseMarkers2Payload (decodeBase64 base64String).

(** *** parseSeratoBeatGrid *)

(** The loop [for (i = 0; i < numMarkers; i++)]; [n] is the number of
    iterations left. *)
Fixpoint beatGridMarkers_from (n : nat) (view : DataView) (numMarkers i : Z)
  : result (list SeratoBeatGridMarker) :=
  match n with
  | O => OK []
  | S n' =>
      let markerStart := 6 + i * 8 in
      position <- getFloat32 view markerStart ;;
      marker <-
        (if i <? numMarkers - 1 then
           beatsTillNextMarker <- getUint32 view (markerStart + 4) ;;
           OK (mkBeatGridMarker position None (Some beatsTillNextMarker))
         else
           bpm <- getFloat32 view (markerStart + 4) ;;
           OK (mkBeatGridMarker position (Some bpm) None)) ;;
      rest <- beatGridMarkers_from n' view numMarkers (i + 1) ;;
      OK (marker :: rest)
  end.

Definition parseSeratoBeatGrid (view : DataView) : result SeratoBeatGridData :=
  numMarkers <- getUint32 view 2 ;;
  markers <- beatGridMarkers_from (Z.to_nat numMarkers) view numMarkers 0 ;;
  OK (mkBeatGridData markers).

(** *** parseTrackMetaData *)

(** The value of a GEOB frame; [gdata] is the buffer behind its [data]
    array, which is what the program reads ([value.data.buffer]). *)
Record GEOBDir : Type := mkGEOBDir {
  gtype : jsstring;
  filename : jsstring;
  description : jsstring;
  gdata : list byte
}.

(** What the tag reader returns for a file: the file size, the common fields
    and, when the file has ID3v2 tags, the values of its GEOB frames in
    order. *)
Record AudioFile (Common : Type) : Type := mkAudioFile {
  fileSize : Z;
  fileCommon : Common;
  geobObjects : option (list GEOBDir)
}.

Arguments mkAudioFile {Common}.
Arguments fileSize {Common}.
Arguments fileCommon {Common}.
Arguments geobObjects {Common}.

(** The body of [geobObjects.forEach], with its [try]/[catch]. *)
Definition applyGeob {Common : Type} (decodeBase64 : jsstring -> list byte)
  (result : TrackMetaData Common) (value : GEOBDir) : TrackMetaData Common :=
  if negb (bool_decide (gtype value = str "application/octet-stream"))
  then result
  else
    let data := wholeView (gdata value) in
    let warned :=
      mkTrackMetaData (path result) (trackId result) (size result)
        (common result) (color result) (cuePoints result)
        (loopEntries result) (beatGridMarkers result) (bpmLock result) true in
    if bool_decide (description value = str "Serato Markers2") then
      match parseSeratorMarkers2 decodeBase64 data with
      | OK markers =>
          mkTrackMetaData (path result) (trackId result) (size result)
            (common result)
            (match m2color markers with
             | Some c => Some c
             | None => color result
             end)
            (m2cuePoints markers) (m2loopEntries markers)
            (beatGridMarkers result)
            (default (bpmLock result) (m2bpmLock markers))
            (hasWarnings result)
      | _ => warned
      end
    else if bool_decide (description value = str "Serato BeatGrid") then
      match parseSeratoBeatGrid data with
      | OK beatgrid =>
          mkTrackMetaData (path result) (trackId result) (size result)
            (common result) (color result) (cuePoints result)
            (loopEntries result) (Some (markers beatgrid)) (bpmLock result)
            (hasWarnings result)
      | _ => warned
      end
    else result.

(** [parseTrackMetaData].  [reader] stands for [getFileOrThrow] followed by
    the tag reader's [parseFile]; either can throw. *)
Definition parseTrackMetaData {Common : Type}
  (decodeBase64 : jsstring -> list byte)
  (reader : jsstring -> result (AudioFile Common))
  (path : jsstring) (trackId : nat) : result (TrackMetaData Common) :=
  file <- reader path ;;
  let result :=
    mkTrackMetaData path trackId (fileSize file) (fileCommon file)
      None [] [] None false false in
  match geobObjects file with
  | None => OK result
  | Some geobs => OK (fold_left (applyGeob decodeBase64) geobs result)
  end.

End TrackMetaDataParser.

(** ** src/lib/rekordboxExporter.ts *)

Module RekordboxExporter.

(** *** formatColor *)

(** A hexadecimal digit, lower case. *)
Definition hexDigit (d : Z) : Z := if d <? 10 then 48 + d else 87 + d.

(** [x.toString(16)] for an integer [x >= 0]: the digits are produced from
    the last one; [n] bounds the number of digits after the first. *)
Fixpoint toString16_from (n : nat) (x : Z) (digits : jsstring) : jsstring :=
  let digits' := hexDigit (x mod 16) :: digits in
  match n with
  | O => digits'
  | S n' =>
      if x / 16 =? 0 then digits' else toString16_from n' (x / 16) digits'
  end.

Definition toString16 (x : Z) : jsstring :=
  toString16_from (Z.to_nat (Z.log2 x)) x [].

(** [s.padStart(targetLength, pad)] for a pad string of one code unit. *)
Definition padStart (targetLength : nat) (pad : Z) (s : jsstring) : jsstring :=
  replicate (targetLength - length s) pad ++ s.

(** [s.toUpperCase()] on a string of ASCII characters, which is what
    [toString(16)] produces. *)
Definition toUpperCase (s : jsstring) : jsstring :=
  map (fun c => if (97 <=? c) && (c <=? 122) then c - 32 else c) s.

(** [formatColor].  A [ColorRGB] is an array of length 3 and is taken as it
    is; a [ColorARGB] has length 4 and loses its first element
    ([color.slice(1)]). *)
Definition formatColor
  (color : TrackMetaDataParser.ColorRGB + TrackMetaDataParser.ColorARGB)
  : jsstring :=
  let channels :=
    match color with
    | inl (r, g, b) => [r; g; b]
    | inr (_, r, g, b) => [r; g; b]
    end in
  let hex := join [] (map (fun x => padStart 2 48 (toString16 x)) channels) in
  str "0x" ++ toUpperCase hex.

(** *** The playlist tree *)

(** A [RecordboxFolder] is a mutable object: the program keeps it in the
    [folders] registry and in its parent's [children] array at the same time
    and pushes to its [children] later.  Folder objects therefore live in a
    heap (a list of folders, the object identity being the position) and a
    child that is a folder is a reference into it.  A [RecordboxPlaylist] is never shared
    and is stored in place. *)
Inductive RecordboxPlaylistNode : Type :=
| FolderRef (ref : nat)
| PlaylistNode (name : jsstring) (tracks : list nat).

Record RecordboxFolder : Type := mkFolder {
  name : jsstring;
  children : list RecordboxPlaylistNode
}.


(** The tree that [generatePlaylistNode] walks from a node: folders with
    their children in order, playlists with their track keys.  [depth]
    bounds the nesting that is followed. *)
#[warnings="-register-all"]
Inductive PlaylistTree : Type :=
| Folder (name : jsstring) (children : list PlaylistTree)
| Playlist (name : jsstring) (tracks : list nat).

Fixpoint generatePlaylistNode (depth : nat) (heap : list RecordboxFolder)
  (node : RecordboxPlaylistNode) : option PlaylistTree :=
  match node with
  | PlaylistNode n ts => Some (Playlist n ts)
  | FolderRef ref =>
      match depth with
      | O => None
      | S depth' =>
          folder ← heap !! ref;
          kids ← mapM (generatePlaylistNode depth' heap) (children folder);
          Some (Folder (name folder) kids)
      end
  end.

End RekordboxExporter.

(** ** src/cli.ts *)

Module Cli.

Import RekordboxExporter.

(** *** Crate list *)

(** [s.endsWith(t)]. *)
Definition endsWith (s t : jsstring) : bool :=
  bool_decide (drop (length s - length t) s = t).

(** [x < y] on strings: by code units, a proper prefix first. *)
Fixpoint ltString (x y : jsstring) : bool :=
  match x, y with
  | _, [] => false
  | [], _ :: _ => true
  | a :: x', b :: y' => (a <? b) || ((a =? b) && ltString x' y')
  end.

(** [x] does not come after [y]. *)
Definition leString (x y : jsstring) : Prop := ltString y x = false.

#[global] Instance leString_dec (x y : jsstring) : Decision (leString x y) :=
  decide (ltString y x = false).

(** [a.sort()] on an array of strings: its elements in the order of their
    code units.  That order is total and antisymmetric, so the result does
    not depend on the algorithm ([sort_unique]); the definition uses a merge
    sort. *)
Definition sort (a : list jsstring) : list jsstring := merge_sort leString a.

(** The callback of [subcratesFiles.filter].  [includeCratesOnly] is [null]
    ([None]) unless names were given with [-c], and [crateFilter] unless a
    text was given with [-f]. *)
Definition crateSelected (includeCratesOnly : option (list jsstring))
  (crateFilter : option jsstring) (crateName : jsstring) : bool :=
  if negb (endsWith crateName (str ".crate")) then false
  else if match includeCratesOnly with
          | Some only => negb (bool_decide (crateName ∈ only))
          | None => false
          end
  then false
  else if match crateFilter with
          | Some f => negb (bool_decide (f = [])) && negb (includes crateName f)
          | None => false
          end
  then false
  else true.

Definition crateNameList (includeCratesOnly : option (list jsstring))
  (crateFilter : option jsstring) (subcratesFiles : list jsstring)
  : list jsstring :=
  sort (List.filter (crateSelected includeCratesOnly crateFilter)
          subcratesFiles).

(** *** Crate scan *)

Inductive ScanError : Type :=
| FailedToLoadCrate (crateName : jsstring) (err : error)
| TrackNotInLibrary (resolvedPath : jsstring)
| FailedToLoadTrack (path : jsstring) (err : error).

Record ScanState : Type := mkScanState {
  crateList : list CrateParser.Crate;
  trackList : list CrateParser.CrateTrack;
  trackPathIndex : gmap jsstring nat;
  errors : list ScanError
}.

Definition initialScan : ScanState := mkScanState [] [] ∅ [].

(** [trackFilter && !track.path.includes(trackFilter)]: a filter that is
    [null] or the empty string filters nothing. *)
Definition filteredOut (trackFilter : option jsstring)
  (track : CrateParser.CrateTrack) : bool :=
  match trackFilter with
  | Some f =>
      negb (bool_decide (f = []))
      && negb (includes (CrateParser.path track) f)
  | None => false
  end.

(** The body of [for (const track of crate.tracks)]. *)
Definition scanTrack (trackFilter : option jsstring) (st : ScanState)
  (track : CrateParser.CrateTrack) : ScanState :=
  if filteredOut trackFilter track then st
  else
    match trackPathIndex st !! CrateParser.path track with
    | Some _ => st
    | None =>
        let trackList' := trackList st ++ [track] in
        mkScanState (crateList st) trackList'
          (<[CrateParser.path track := (length trackList' - 1)%nat]>
             (trackPathIndex st))
          (errors st)
    end.

(** [resolve(`${seratoDir}/Subcrates/${crateName}`)], for a directory that is
    already resolved. *)
Definition cratePath (seratoDir crateName : jsstring) : jsstring :=
  seratoDir ++ str "/Subcrates/" ++ crateName.

(** The body of [for (const crateName of crateNameList)], with its
    [try]/[catch].  The last case is not reached ([parseCrate_returns]). *)
Definition scanCrate (fs : Util.FileSystem) (seratoDir : jsstring)
  (trackFilter : option jsstring) (st : ScanState) (crateName : jsstring)
  : ScanState :=
  match CrateParser.parseCrate fs (cratePath seratoDir crateName) with
  | OK crate =>
      fold_left (scanTrack trackFilter) (CrateParser.tracks crate)
        (mkScanState (crateList st ++ [crate]) (trackList st)
           (trackPathIndex st) (errors st))
  | Throws err =>
      mkScanState (crateList st) (trackList st) (trackPathIndex st)
        (errors st ++ [FailedToLoadCrate crateName err])
  | OutOfFuel => st
  end.

Definition scanCrates (fs : Util.FileSystem) (seratoDir : jsstring)
  (trackFilter : option jsstring) (crateNameList : list jsstring)
  : ScanState :=
  fold_left (scanCrate fs seratoDir trackFilter) crateNameList initialScan.

(** *** Track scan *)

(** [s.startsWith(t)]. *)
Definition startsWith (s t : jsstring) : bool :=
  bool_decide (take (length t) s = t).

(** The body of [for (let i = 0; i < trackList.length; i++)]: [trackMeta] is
    the sparse array of the records read so far.  [resolve] is the platform's
    path resolution. *)
Definition loadTrack {Common : Type}
  (decodeBase64 : jsstring -> list byte)
  (reader : jsstring -> result (TrackMetaDataParser.AudioFile Common))
  (resolve : jsstring -> jsstring) (mountPath : jsstring)
  (musicDir : option jsstring)
  (acc : gmap nat (TrackMetaDataParser.TrackMetaData Common) * list ScanError)
  (i : nat) (track : CrateParser.CrateTrack)
  : gmap nat (TrackMetaDataParser.TrackMetaData Common) * list ScanError :=
  let resolvedPath :=
    resolve (mountPath ++ str "/" ++ CrateParser.path track) in
  let outside :=
    match musicDir with
    | Some dir =>
        negb (bool_decide (dir = [])) && negb (startsWith resolvedPath dir)
    | None => false
    end in
  if outside then (acc.1, acc.2 ++ [TrackNotInLibrary resolvedPath])
  else
    match TrackMetaDataParser.parseTrackMetaData decodeBase64 reader
            resolvedPath i with
    | OK meta => (<[i := meta]> acc.1, acc.2)
    | Throws err =>
        (acc.1, acc.2 ++ [FailedToLoadTrack (CrateParser.path track) err])
    | OutOfFuel => acc (* not reached: the tag decoders return or throw *)
    end.

Fixpoint loadTracks_from {Common : Type}
  (decodeBase64 : jsstring -> list byte)
  (reader : jsstring -> result (TrackMetaDataParser.AudioFile Common))
  (resolve : jsstring -> jsstring) (mountPath : jsstring)
  (musicDir : option jsstring)
  (acc : gmap nat (TrackMetaDataParser.TrackMetaData Common) * list ScanError)
  (i : nat) (tracks : list CrateParser.CrateTrack)
  : gmap nat (TrackMetaDataParser.TrackMetaData Common) * list ScanError :=
  match tracks with
  | [] => acc
  | track :: rest =>
      loadTracks_from decodeBase64 reader resolve mountPath musicDir
        (loadTrack decodeBase64 reader resolve mountPath musicDir acc i track)
        (S i) rest
  end.

(** *** Playlist tree *)

Record TreeState : Type := mkTreeState {
  heap : list RecordboxFolder;
  folders : gmap jsstring nat
}.

(** [folders.set('ROOT', { type: Folder, name: 'ROOT', children: [] })]. *)
Definition initialTree : TreeState :=
  mkTreeState [mkFolder (str "ROOT") []] {[ str "ROOT" := 0%nat ]}.

(** [folder.children.push(node)] on the folder object [ref]. *)
Definition pushChild (ref : nat) (node : RecordboxPlaylistNode)
  (st : TreeState) : TreeState :=
  mkTreeState
    (alter (fun f => mkFolder (name f) (children f ++ [node])) ref (heap st))
    (folders st).

(** [getParentFolder], by recursion on the path read from its last segment:
    [rpath] is the path reversed, so that [localPath.pop()] is its head and
    [localPath] its tail.  Returns the folder object and the new state.
    ['ROOT'] is registered from the start ([initialTree]), which the default
    of the first case stands for. *)
Fixpoint getParentFolder_rev (rpath : list jsstring) (st : TreeState)
  : nat * TreeState :=
  match rpath with
  | [] => (default 0%nat (folders st !! str "ROOT"), st)
  | name :: localPath =>
      let key := join (str "/") (rev rpath) in
      match folders st !! key with
      | Some folder => (folder, st)
      | None =>
          let newFolder := length (heap st) in
          let st1 :=
            mkTreeState (heap st ++ [mkFolder name []])
              (<[key := newFolder]> (folders st)) in
          let (parent, st2) := getParentFolder_rev localPath st1 in
          (newFolder, pushChild parent (FolderRef newFolder) st2)
      end
  end.

Definition getParentFolder (path : list jsstring) (st : TreeState)
  : nat * TreeState :=
  getParentFolder_rev (rev path) st.

(** [crate.tracks.map(get).filter(index => index !== undefined)]. *)
Definition playlistTracks (trackPathIndex : gmap jsstring nat)
  (crate : CrateParser.Crate) : list nat :=
  omap (fun track => trackPathIndex !! CrateParser.path track)
    (CrateParser.tracks crate).

(** The body of [crateList.forEach]. *)
Definition placeCrate (trackPathIndex : gmap jsstring nat) (st : TreeState)
  (crate : CrateParser.Crate) : TreeState :=
  let parts := removelast (CrateParser.name crate) in
  let name := List.last (CrateParser.name crate) [] in
  let (parent, st') := getParentFolder parts st in
  pushChild parent
    (PlaylistNode name (playlistTracks trackPathIndex crate)) st'.

Definition buildTree (trackPathIndex : gmap jsstring nat)
  (crateList : list CrateParser.Crate) : TreeState :=
  fold_left (placeCrate trackPathIndex) crateList initialTree.

(** [rootFolder: folders.get('ROOT')], as the exporter walks it. *)
Definition rootFolder (st : TreeState) : option PlaylistTree :=
  ref ← folders st !! str "ROOT";
  generatePlaylistNode (length (heap st)) (heap st) (FolderRef ref).

End Cli.

(** ** Vocabulary of the statements *)

Module Layout.

(** The bytes a view shows. *)
Definition viewBytes (v : DataView) : list byte :=
  take (Z.to_nat (byteLength v)) (drop (Z.to_nat (byteOffset v)) (buffer v)).

(** A view as the [DataView] constructor makes them: inside its buffer. *)
Definition wfView (v : DataView) : Prop :=
  0 <= byteOffset v /\ 0 <= byteLength v
  /\ byteOffset v + byteLength v <= bufLen (buffer v).

(** Little-endian value of a byte sequence: byte [i] weighs [256 ^ i]. *)
Fixpoint leZ (bs : list byte) : Z :=
  match bs with
  | [] => 0
  | b :: rest => u8 b + 256 * leZ rest
  end.

(** The bytes of a sequence OR-ed together, the byte of index [i] shifted
    left by [8 * (i mod 4)] bits; [i] is the index of the first byte. *)
Fixpoint orBytes (i : Z) (bs : list byte) : Z :=
  match bs with
  | [] => 0
  | b :: rest => Z.lor (u8 b * 2 ^ (8 * (i mod 4))) (orBytes (i + 1) rest)
  end.

(** A call that returns or raises [RangeError], and does nothing else. *)
Definition returnsOrRangeError {A : Type} (r : result A) : Prop :=
  match r with
  | OK _ => True
  | Throws RangeError => True
  | _ => False
  end.

(** A call that returns or throws: its iteration bound was enough. *)
Definition terminates {A : Type} (r : result A) : Prop := r <> OutOfFuel.

(** A node with one of the string tags holds a string, and so do its
    descendants. *)
Fixpoint stringTagged (n : CrateParser.Node) : Prop :=
  (CrateParser.isString16Tag (CrateParser.type n) = true ->
   exists s, CrateParser.value n = CrateParser.VString s)
  /\ fold_right (fun c P => stringTagged c /\ P) True (CrateParser.children n).

(** The length field of the section header at [offset]. *)
Definition declaredSize (data : list byte) (offset : Z) : Z :=
  beZ (take 4 (drop (Z.to_nat (offset + 4)) data)).

(** *** The calls of the section decoder

    A call of [parseSectionNodes] is known by its iteration budget, its
    section and the offset its loop has come to; [run] is its outcome. *)
Definition Call : Type := nat * CrateParser.CrateSection * Z.

Definition run (c : Call) : result CrateParser.NodeList :=
  let '(fuel, section, offset) := c in
  CrateParser.parseSectionNodes_from fuel section offset.

(** The [switch] of [parseSectionNodes]: the node decoded for a sub-section,
    by a leaf decoder or by the nested call. *)
Definition nodeFor (fuel : nat) (subSection : CrateParser.CrateSection)
  : result CrateParser.Node :=
  if CrateParser.isString16Tag (CrateParser.stype subSection) then
    s <- CrateParser.parseString16 (CrateParser.data subSection)
           (CrateParser.dataSize subSection) ;;
    OK (CrateParser.mkNode (CrateParser.stype subSection)
          (CrateParser.VString s) [])
  else if CrateParser.isInt8Tag (CrateParser.stype subSection) then
    n <- CrateParser.parseInt8 (CrateParser.data subSection)
           (CrateParser.dataSize subSection) ;;
    OK (CrateParser.mkNode (CrateParser.stype subSection)
          (CrateParser.VNumber n) [])
  else
    sub <- run (fuel, subSection, CrateParser.dataOffset subSection) ;;
    OK (CrateParser.mkNode (CrateParser.stype subSection)
          CrateParser.VNull sub).

(** The calls that a call makes.  With [offset] inside its section and the
    header at [offset] accepted, the call goes into the sub-section when its
    tag is that of a container ([calls_into]), and, once the node of the
    sub-section is decoded, goes on behind the sub-section
    ([calls_behind]). *)
Inductive calls : Call -> Call -> Prop :=
| calls_into (fuel : nat) (section : CrateParser.CrateSection) (offset : Z)
    (subSection : CrateParser.CrateSection) :
    offset < CrateParser.dataOffset section + CrateParser.dataSize section ->
    CrateParser.parseSection (buffer (CrateParser.data section)) offset
    = OK subSection ->
    CrateParser.isString16Tag (CrateParser.stype subSection) = false ->
    CrateParser.isInt8Tag (CrateParser.stype subSection) = false ->
    calls (S fuel, section, offset)
          (fuel, subSection, CrateParser.dataOffset subSection)
| calls_behind (fuel : nat) (section : CrateParser.CrateSection) (offset : Z)
    (subSection : CrateParser.CrateSection) (node : CrateParser.Node) :
    offset < CrateParser.dataOffset section + CrateParser.dataSize section ->
    CrateParser.parseSection (buffer (CrateParser.data section)) offset
    = OK subSection ->
    nodeFor fuel subSection = OK node ->
    calls (S fuel, section, offset)
          (fuel, section, offset + (8 + CrateParser.dataSize subSection)).

(** The first call, as [parseCrate] makes it on the buffer of a file. *)
Definition firstCall (data : list byte) : Call :=
  (S (length data), CrateParser.rootSection data,
   CrateParser.dataOffset (CrateParser.rootSection data)).

(** The calls made while a buffer is decoded. *)
Definition reached (data : list byte) (c : Call) : Prop :=
  rtc calls (firstCall data) c.

(** *** The crate file layout, written out

    Section framing: a 4-byte tag, a 4-byte big-endian length, the payload.
    A string leaf holds UTF-16BE code units, an integer leaf raw bytes, a
    container the encodings of its sub-sections. *)

Definition byteOfZ (z : Z) : byte :=
  default x00 (Byte.of_N (Z.to_N (z mod 256))).

Definition be16 (n : Z) : list byte := [byteOfZ (n / 256); byteOfZ n].

Definition be32 (n : Z) : list byte :=
  [byteOfZ (n / 16777216); byteOfZ (n / 65536); byteOfZ (n / 256); byteOfZ n].

Definition utf16be (s : jsstring) : list byte := flat_map be16 s.

#[warnings="-register-all"]
Inductive SectionTree : Type :=
| StringLeaf (tag : list byte) (s : jsstring)
| IntLeaf (tag : list byte) (payload : list byte)
| Container (tag : list byte) (subs : list SectionTree).

Definition tagOf (t : SectionTree) : jsstring :=
  match t with
  | StringLeaf tag _ | IntLeaf tag _ | Container tag _ => map u8 tag
  end.

Definition frame (tag payload : list byte) : list byte :=
  tag ++ be32 (bufLen payload) ++ payload.

Fixpoint encode (t : SectionTree) : list byte :=
  match t with
  | StringLeaf tag s => frame tag (utf16be s)
  | IntLeaf tag payload => frame tag payload
  | Container tag subs => frame tag (flat_map encode subs)
  end.

Definition encodeAll (ts : list SectionTree) : list byte :=
  flat_map encode ts.

(** Number of sections of a tree. *)
Fixpoint sections (t : SectionTree) : nat :=
  match t with
  | Container _ subs => S (list_sum (map sections subs))
  | _ => 1%nat
  end.

(** The tag decides the kind of a section; a string has no zero code unit
    (the decoder stops there); an integer payload has at most four bytes;
    every length fits the 32-bit length field. *)
#[warnings="-register-all"]
Inductive wfTree : SectionTree -> Prop :=
| wfStringLeaf tag s :
    length tag = 4%nat ->
    CrateParser.isString16Tag (map u8 tag) = true ->
    Forall (fun c => 0 < c < 65536) s ->
    bufLen (utf16be s) < 2 ^ 32 ->
    wfTree (StringLeaf tag s)
| wfIntLeaf tag payload :
    length tag = 4%nat ->
    CrateParser.isString16Tag (map u8 tag) = false ->
    CrateParser.isInt8Tag (map u8 tag) = true ->
    bufLen payload <= 4 ->
    wfTree (IntLeaf tag payload)
| wfContainer tag subs :
    length tag = 4%nat ->
    CrateParser.isString16Tag (map u8 tag) = false ->
    CrateParser.isInt8Tag (map u8 tag) = false ->
    Forall wfTree subs ->
    bufLen (encodeAll subs) < 2 ^ 32 ->
    wfTree (Container tag subs).

(** The node that a section stands for. *)
Fixpoint nodeOf (t : SectionTree) : CrateParser.Node :=
  match t with
  | StringLeaf tag s =>
      CrateParser.mkNode (map u8 tag) (CrateParser.VString s) []
  | IntLeaf tag payload =>
      CrateParser.mkNode (map u8 tag)
        (CrateParser.VNumber (toInt32 (leZ payload))) []
  | Container tag subs =>
      CrateParser.mkNode (map u8 tag) CrateParser.VNull (map nodeOf subs)
  end.

(** The path of a track entry: the string of its first ['ptrk'] child. *)
Definition ptrkOf (t : SectionTree) : option jsstring :=
  match t with
  | StringLeaf tag s =>
      if bool_decide (map u8 tag = str "ptrk") then Some s else None
  | _ => None
  end.

Definition trackPath (t : SectionTree) : option jsstring :=
  match t with
  | Container _ subs => head (omap ptrkOf subs)
  | _ => None
  end.

(** The track entries of a document: its ['otrk'] sections, in order. *)
Definition trackEntries (items : list SectionTree) : list SectionTree :=
  filter (fun t => tagOf t = str "otrk") items.

(** The version section of a crate file. *)
Definition versionSection : SectionTree :=
  StringLeaf (list_byte_of_string "vrsn") CrateParser.crateVersion.

(** The filename of a path, and the filename without its extension as the
    specification words it: what precedes the last ['.'] (the whole name when
    it has none). *)
Definition basename (path : jsstring) : jsstring :=
  List.last (split (str "/") path) [].

Definition stripExtension (filename : jsstring) : jsstring :=
  match split (str ".") filename with
  | [_] => filename
  | parts => join (str ".") (removelast parts)
  end.

(** *** The Markers2 layout, written out

    After the two-byte header the payload is a flat sequence of elements:
    a NUL-terminated ASCII name, a 4-byte big-endian length, the data. *)

Record RawElement : Type := mkRawElement {
  rawName : list byte;
  rawData : list byte
}.

Definition encodeElement (e : RawElement) : list byte :=
  rawName e ++ [x00] ++ be32 (bufLen (rawData e)) ++ rawData e.

Definition encodeElements (es : list RawElement) : list byte :=
  flat_map encodeElement es.

(** An element name: ASCII, not empty, no NUL. *)
Definition wfElement (e : RawElement) : Prop :=
  rawName e <> [] /\ Forall (fun b => 0 < u8 b < 128) (rawName e)
  /\ bufLen (rawData e) < 2 ^ 32.

Definition elementName (e : RawElement) : jsstring := map u8 (rawName e).

(** The names that the decoder recognizes. *)
Definition knownElement (e : RawElement) : Prop :=
  elementName e ∈ [str "COLOR"; str "CUE"; str "LOOP"; str "BPMLOCK"].

(** The inner payload of a Markers2 tag: header, elements, and what
    follows them (nothing, or a NUL and anything). *)
Definition markers2Payload (es : list RawElement) (tail : list byte)
  : list byte :=
  [x01; x01] ++ encodeElements es ++ tail.

(** The bytes of a NUL-terminated string: those before the first NUL. *)
Fixpoint cstring (bs : list byte) : list byte :=
  match bs with
  | [] => []
  | b :: rest => if bool_decide (b = x00) then [] else b :: cstring rest
  end.

Definition byteAt (data : list byte) (i : nat) : Z := u8 (nth i data x00).

(** [COLOR]: 4 raw bytes, ARGB. *)
Definition colorOf (data : list byte) : TrackMetaDataParser.ColorARGB :=
  (byteAt data 0, byteAt data 1, byteAt data 2, byteAt data 3).

(** [CUE]: byte 1 is the index, bytes 2-5 the position in milliseconds
    (big-endian), bytes 7-9 the RGB colour, the bytes from 12 on the
    NUL-terminated UTF-8 name. *)
Definition cueOf (data : list byte) : TrackMetaDataParser.CuePoint :=
  TrackMetaDataParser.mkCuePoint (byteAt data 1) (beZ (take 4 (drop 2 data)))
    (byteAt data 7, byteAt data 8, byteAt data 9)
    (TrackMetaDataParser.textDecode (cstring (drop 12 data))).

(** An element as the decoder holds it, on a buffer of its own. *)
Definition elementOf (e : RawElement) : TrackMetaDataParser.Element :=
  TrackMetaDataParser.mkElement (elementName e) (wholeView (rawData e)).

(** The elements as the framing loop holds them: views on the payload
    [buf], the first element starting at [offset]. *)
Fixpoint framed (buf : list byte) (offset : Z) (es : list RawElement)
  : list TrackMetaDataParser.Element :=
  match es with
  | [] => []
  | e :: rest =>
      TrackMetaDataParser.mkElement (elementName e)
        (mkDataView buf (offset + bufLen (rawName e) + 5) (bufLen (rawData e)))
      :: framed buf
           (offset + (bufLen (rawName e) + 5 + bufLen (rawData e))) rest
  end.

(** A track record with its warning flag set and nothing else changed. *)
Definition setWarning {Common : Type}
  (r : TrackMetaDataParser.TrackMetaData Common)
  : TrackMetaDataParser.TrackMetaData Common :=
  TrackMetaDataParser.mkTrackMetaData
    (TrackMetaDataParser.path r) (TrackMetaDataParser.trackId r)
    (TrackMetaDataParser.size r) (TrackMetaDataParser.common r)
    (TrackMetaDataParser.color r) (TrackMetaDataParser.cuePoints r)
    (TrackMetaDataParser.loopEntries r)
    (TrackMetaDataParser.beatGridMarkers r)
    (TrackMetaDataParser.bpmLock r) true.

(** A GEOB frame whose Markers2 or BeatGrid payload fails to decode. *)
Definition failsToDecode (decodeBase64 : jsstring -> list byte)
  (value : TrackMetaDataParser.GEOBDir) : Prop :=
  TrackMetaDataParser.gtype value = str "application/octet-stream"
  /\ ((TrackMetaDataParser.description value = str "Serato Markers2"
       /\ forall m,
            TrackMetaDataParser.parseSeratorMarkers2 decodeBase64
              (wholeView (TrackMetaDataParser.gdata value)) <> OK m)
      \/ (TrackMetaDataParser.description value = str "Serato BeatGrid"
          /\ forall g,
               TrackMetaDataParser.parseSeratoBeatGrid
                 (wholeView (TrackMetaDataParser.gdata value)) <> OK g)).

(** *** Vocabulary of the scan *)

(** Paths in first-seen order: every path once, at its first sighting. *)
Definition seeFirst (seen : list jsstring) (p : jsstring) : list jsstring :=
  if decide (p ∈ seen) then seen else seen ++ [p].

Definition firstSeen (paths : list jsstring) : list jsstring :=
  fold_left seeFirst paths [].

(** The track paths of the crates, in scan order, sighting by sighting. *)
Definition sightedPaths (crates : list CrateParser.Crate) : list jsstring :=
  concat (map (fun c => map CrateParser.path (CrateParser.tracks c)) crates).

(** A path that the track filter lets through. *)
Definition passesFilter (trackFilter : option jsstring) (p : jsstring) : Prop :=
  Cli.filteredOut trackFilter (CrateParser.mkCrateTrack p) = false.

#[global] Instance passesFilter_dec (trackFilter : option jsstring)
  (p : jsstring) : Decision (passesFilter trackFilter p) :=
  decide (Cli.filteredOut trackFilter (CrateParser.mkCrateTrack p) = false).

(** The paths of the track list. *)
Definition indexedPaths (st : Cli.ScanState) : list jsstring :=
  map CrateParser.path (Cli.trackList st).

(** The index is the inverse of the track list, which holds no path twice. *)
Definition indexInvariant (st : Cli.ScanState) : Prop :=
  NoDup (indexedPaths st)
  /\ forall (p : jsstring) (i : nat),
       Cli.trackPathIndex st !! p = Some i <-> indexedPaths st !! i = Some p.

(** *** Vocabulary of the playlist tree *)

(** The registry and the folder objects correspond one to one: the root is
    registered under ['ROOT'] and is object 0, every registered key names an
    object of the heap, no object is registered under two keys, and every
    object is registered. *)
Definition registryInvariant (st : Cli.TreeState) : Prop :=
  Cli.folders st !! str "ROOT" = Some 0%nat
  /\ (exists kids,
        Cli.heap st !! 0%nat = Some (RekordboxExporter.mkFolder (str "ROOT") kids))
  /\ (forall (key : jsstring) (id : nat),
        Cli.folders st !! key = Some id -> (id < length (Cli.heap st))%nat)
  /\ (forall (k1 k2 : jsstring) (id : nat),
        Cli.folders st !! k1 = Some id -> Cli.folders st !! k2 = Some id ->
        k1 = k2)
  /\ (forall id : nat,
        (id < length (Cli.heap st))%nat ->
        exists key, Cli.folders st !! key = Some id).

(** A crate with a name and no track. *)
Definition emptyCrate (name : list jsstring) : CrateParser.Crate :=
  CrateParser.mkCrate name CrateParser.crateVersion [].

(** *** Vocabulary of the further properties *)

(** [LOOP]: byte 1 is the index, bytes 2-5 and 6-9 the start and the end
    in milliseconds (big-endian), bytes 14-17 the ARGB colour, byte 19 the
    lock flag, the bytes from 20 on the NUL-terminated UTF-8 name. *)
Definition loopOf (data : list byte) : TrackMetaDataParser.LoopEntry :=
  TrackMetaDataParser.mkLoopEntry (byteAt data 1)
    (beZ (take 4 (drop 2 data))) (beZ (take 4 (drop 6 data)))
    (byteAt data 14, byteAt data 15, byteAt data 16, byteAt data 17)
    (byteAt data 19 =? 1)
    (TrackMetaDataParser.textDecode (cstring (drop 20 data))).

(** [BPMLOCK]: byte 0 is the flag. *)
Definition bpmLockOf (data : list byte) : bool := byteAt data 0 =? 1.

(** The data of an element are long enough for what the decoder reads of
    them: the fixed fields, and the terminator of the name. *)
Definition elementDecodes (e : RawElement) : bool :=
  if bool_decide (elementName e = str "COLOR") then 4 <=? bufLen (rawData e)
  else if bool_decide (elementName e = str "CUE") then
    bool_decide (x00 ∈ drop 12 (rawData e))
  else if bool_decide (elementName e = str "LOOP") then
    bool_decide (x00 ∈ drop 20 (rawData e))
  else if bool_decide (elementName e = str "BPMLOCK") then
    1 <=? bufLen (rawData e)
  else true.

(** A GEOB frame that the track reader decodes. *)
Definition seratoFrame (value : TrackMetaDataParser.GEOBDir) : Prop :=
  TrackMetaDataParser.gtype value = str "application/octet-stream"
  /\ (TrackMetaDataParser.description value = str "Serato Markers2"
      \/ TrackMetaDataParser.description value = str "Serato BeatGrid").

#[global] Instance seratoFrame_dec (value : TrackMetaDataParser.GEOBDir)
  : Decision (seratoFrame value).
Proof. unfold seratoFrame. apply _. Defined.

(** The record of a file before any GEOB frame is read. *)
Definition bareRecord {Common : Type} (path : jsstring) (trackId : nat)
  (file : TrackMetaDataParser.AudioFile Common)
  : TrackMetaDataParser.TrackMetaData Common :=
  TrackMetaDataParser.mkTrackMetaData path trackId
    (TrackMetaDataParser.fileSize file) (TrackMetaDataParser.fileCommon file)
    None [] [] None false false.

(** A resolved path that the music library check lets through: no
    directory was given, or the path starts with it, as a string. *)
Definition inLibrary (musicDir : option jsstring) (resolvedPath : jsstring)
  : bool :=
  match musicDir with
  | Some dir => bool_decide (dir = []) || Cli.startsWith resolvedPath dir
  | None => true
  end.

(** What the track loop makes of the track at index [i]: its record, or
    its entry in the error list. *)
Definition recordOf {Common : Type} (decodeBase64 : jsstring -> list byte)
  (reader : jsstring -> result (TrackMetaDataParser.AudioFile Common))
  (resolve : jsstring -> jsstring) (mountPath : jsstring)
  (musicDir : option jsstring) (i : nat) (track : CrateParser.CrateTrack)
  : option (TrackMetaDataParser.TrackMetaData Common) :=
  let resolvedPath :=
    resolve (mountPath ++ str "/" ++ CrateParser.path track) in
  if inLibrary musicDir resolvedPath then
    match TrackMetaDataParser.parseTrackMetaData decodeBase64 reader
            resolvedPath i with
    | OK meta => Some meta
    | _ => None
    end
  else None.

Definition trackErrorOf {Common : Type} (decodeBase64 : jsstring -> list byte)
  (reader : jsstring -> result (TrackMetaDataParser.AudioFile Common))
  (resolve : jsstring -> jsstring) (mountPath : jsstring)
  (musicDir : option jsstring) (i : nat) (track : CrateParser.CrateTrack)
  : option Cli.ScanError :=
  let resolvedPath :=
    resolve (mountPath ++ str "/" ++ CrateParser.path track) in
  if inLibrary musicDir resolvedPath then
    match TrackMetaDataParser.parseTrackMetaData decodeBase64 reader
            resolvedPath i with
    | Throws err => Some (Cli.FailedToLoadTrack (CrateParser.path track) err)
    | _ => None
    end
  else Some (Cli.TrackNotInLibrary resolvedPath).

(** A hexadecimal digit, upper case, and the two digits of a byte. *)
Definition upperHex (d : Z) : Z := if d <? 10 then 48 + d else 55 + d.

Definition hexByte (x : Z) : jsstring := [upperHex (x / 16); upperHex (x mod 16)].

(** The path that [resolveMountPathOrThrow] checks for a list of leading
    segments. *)
Definition ancestorPath (segments : list jsstring) : jsstring :=
  if bool_decide (join (str "/") segments = []) then str "/"
  else join (str "/") segments.

(** A directory on the device [d]. *)
Definition directoryOn (stat : jsstring -> Util.StatOutcome) (d : Z)
  (path : jsstring) : Prop :=
  exists pathStats, stat path = Util.StatOK pathStats
                    /\ Util.isDirectory pathStats = true
                    /\ Util.dev pathStats = d.

(** What the crate scan makes of a crate file name. *)
Definition crateOf (fs : Util.FileSystem) (seratoDir crateName : jsstring)
  : option CrateParser.Crate :=
  match CrateParser.parseCrate fs (Cli.cratePath seratoDir crateName) with
  | OK crate => Some crate
  | _ => None
  end.

Definition crateErrorOf (fs : Util.FileSystem) (seratoDir crateName : jsstring)
  : option Cli.ScanError :=
  match CrateParser.parseCrate fs (Cli.cratePath seratoDir crateName) with
  | Throws err => Some (Cli.FailedToLoadCrate crateName err)
  | _ => None
  end.

(** The playlists that the folder objects hold, all folders together. *)
Definition isPlaylist (node : RekordboxExporter.RecordboxPlaylistNode) : bool :=
  match node with
  | RekordboxExporter.PlaylistNode _ _ => true
  | RekordboxExporter.FolderRef _ => false
  end.

Definition playlistsOf (heap : list RekordboxExporter.RecordboxFolder)
  : list RekordboxExporter.RecordboxPlaylistNode :=
  concat (map (fun f => List.filter isPlaylist (RekordboxExporter.children f))
            heap).

(** The playlist that the crate loop makes of a crate. *)
Definition playlistOf (trackPathIndex : gmap jsstring nat)
  (crate : CrateParser.Crate) : RekordboxExporter.RecordboxPlaylistNode :=
  RekordboxExporter.PlaylistNode (List.last (CrateParser.name crate) [])
    (Cli.playlistTracks trackPathIndex crate).

(** The rank of a registry key: the root first, a longer key later. *)
Definition keyRank (key : jsstring) : nat :=
  if bool_decide (key = str "ROOT") then 0%nat else S (length key).

(** The folder references of a heap name folders of the heap, and go
    from a folder to a folder of higher rank: they form no cycle. *)
Definition ranked (rank : nat -> nat)
  (heap : list RekordboxExporter.RecordboxFolder) : Prop :=
  forall (parent child : nat) (f : RekordboxExporter.RecordboxFolder),
    heap !! parent = Some f ->
    RekordboxExporter.FolderRef child ∈ RekordboxExporter.children f ->
    (child < length heap)%nat /\ (rank parent < rank child)%nat.

(** The folder references follow the keys of the registry. *)
Definition rankedByKey (st : Cli.TreeState) : Prop :=
  exists rank : nat -> nat,
    (forall (key : jsstring) (id : nat),
       Cli.folders st !! key = Some id -> rank id = keyRank key)
    /\ ranked rank (Cli.heap st).

End Layout.

(** * Properties *)

Import Layout.

(** ** Platform layer *)

Lemma u8_range (b : byte) : 0 <= u8 b < 256.
Proof. unfold u8. pose proof (Byte.to_N_bounded b). lia. Qed.

Lemma bufLen_app (a b : list byte) : bufLen (a ++ b) = bufLen a + bufLen b.
Proof. unfold bufLen. rewrite length_app. lia. Qed.

Lemma bufLen_nonneg (a : list byte) : 0 <= bufLen a.
Proof. unfold bufLen. lia. Qed.

Lemma beZ_app (bs : list byte) (b : byte) :
  beZ (bs ++ [b]) = beZ bs * 256 + u8 b.
Proof. unfold beZ. rewrite fold_left_app. reflexivity. Qed.

Lemma beZ_single (b : byte) : beZ [b] = u8 b.
Proof. reflexivity. Qed.

Lemma beZ_range (bs : list byte) : 0 <= beZ bs < 256 ^ bufLen bs.
Proof.
  induction bs as [|b bs IH] using rev_ind.
  - unfold beZ, bufLen. simpl. lia.
  - rewrite beZ_app. unfold bufLen in *. rewrite length_app. cbn [length].
    replace (Z.of_nat (length bs + 1)) with (Z.of_nat (length bs) + 1) by lia.
    rewrite Z.pow_add_r by lia. pose proof (u8_range b). lia.
Qed.

Lemma bind_OK {A B : Type} (c : result A) (k : A -> result B) (b : B) :
  bind c k = OK b -> exists a, c = OK a /\ k a = OK b.
Proof. destruct c; cbn; intros H; try discriminate. eauto. Qed.

Lemma wholeView_wf (data : list byte) : wfView (wholeView data).
Proof. unfold wfView, wholeView, bufLen; cbn. lia. Qed.

Lemma wholeView_bytes (data : list byte) : viewBytes (wholeView data) = data.
Proof.
  unfold viewBytes, wholeView, bufLen; cbn.
  rewrite Nat2Z.id. apply firstn_all.
Qed.

Lemma newDataView_wf (data : list byte) (off : Z) (len : option Z) (v : DataView) :
  newDataView data off len = OK v ->
  wfView v /\ buffer v = data /\ byteOffset v = off
  /\ byteLength v = default (bufLen data - off) len.
Proof.
  unfold newDataView, wfView.
  destruct (_ || _) eqn:E1; [discriminate|].
  apply orb_false_iff in E1 as [H1 H2].
  apply Z.ltb_ge in H1, H2.
  destruct len as [n|]; cbn.
  - destruct (_ || _) eqn:E2; [discriminate|].
    apply orb_false_iff in E2 as [H3 H4].
    apply Z.ltb_ge in H3, H4.
    intros [= <-]; cbn. repeat split; lia.
  - intros [= <-]; cbn. repeat split; lia.
Qed.

Lemma viewBytes_length (v : DataView) :
  wfView v -> bufLen (viewBytes v) = byteLength v.
Proof.
  intros (H1 & H2 & H3). unfold viewBytes, bufLen in *.
  rewrite length_take, length_drop. lia.
Qed.

(** A read inside the view returns the bytes of the view. *)
Lemma getBytes_inside (v : DataView) (i n : Z) :
  wfView v -> 0 <= i -> 0 <= n -> i + n <= byteLength v ->
  getBytes v i n = OK (take (Z.to_nat n) (drop (Z.to_nat i) (viewBytes v))).
Proof.
  intros (H1 & H2 & H3) Hi Hn Hin. unfold getBytes.
  replace ((0 <=? i) && (i + n <=? byteLength v)) with true
    by (symmetry; apply andb_true_iff; split; apply Z.leb_le; lia).
  cbv zeta.
  assert (Hlen : bufLen (take (Z.to_nat n)
            (drop (Z.to_nat (byteOffset v + i)) (buffer v))) = n).
  { unfold bufLen in *. rewrite length_take, length_drop. lia. }
  rewrite Hlen, Z.eqb_refl. f_equal.
  unfold viewBytes. rewrite skipn_firstn_comm, take_take, drop_drop.
  rewrite Z2Nat.inj_add by lia. f_equal. lia.
Qed.

(** A read that leaves the view raises [RangeError]. *)
Lemma getBytes_outside (v : DataView) (i n : Z) :
  i < 0 \/ byteLength v < i + n -> getBytes v i n = Throws RangeError.
Proof.
  intros H. unfold getBytes.
  replace ((0 <=? i) && (i + n <=? byteLength v)) with false; [reflexivity|].
  symmetry. apply andb_false_iff.
  destruct H; [left; apply Z.leb_gt|right; apply Z.leb_gt]; lia.
Qed.

(** Every read either succeeds or raises [RangeError]. *)
Lemma getBytes_cases (v : DataView) (i n : Z) :
  getBytes v i n = Throws RangeError
  \/ exists bs, getBytes v i n = OK bs /\ bufLen bs = n
                /\ 0 <= i /\ i + n <= byteLength v.
Proof.
  unfold getBytes. destruct (_ && _) eqn:E; [|now left].
  apply andb_true_iff in E as [E1 E2]. apply Z.leb_le in E1, E2.
  cbv zeta. destruct (_ =? _) eqn:E3; [|now left].
  apply Z.eqb_eq in E3. right. eauto.
Qed.

Lemma getUint8_at (v : DataView) (k : nat) (b : byte) :
  wfView v -> viewBytes v !! k = Some b ->
  getUint8 v (Z.of_nat k) = OK (u8 b).
Proof.
  intros Hwf Hk. unfold getUint8.
  pose proof (viewBytes_length v Hwf) as Hlen.
  pose proof (lookup_lt_Some _ _ _ Hk) as Hlt. unfold bufLen in Hlen.
  rewrite getBytes_inside by (auto; lia).
  rewrite Nat2Z.id. change (Z.to_nat 1) with 1%nat.
  rewrite (take_S_r _ 0 b) by (rewrite lookup_drop, Nat.add_0_r; exact Hk).
  reflexivity.
Qed.

(** ** 32-bit integer operations *)

Lemma toInt32_small (z : Z) : - 2 ^ 31 <= z < 2 ^ 31 -> toInt32 z = z.
Proof. unfold toInt32. intros H. Z.div_mod_to_equations. lia. Qed.

Lemma land_low_high (v m k : Z) :
  0 <= k -> 0 <= v < 2 ^ k -> Z.land v (m * 2 ^ k) = 0.
Proof.
  intros Hk Hv. apply Z.bits_inj'. intros n Hn.
  rewrite Z.land_spec, Z.bits_0.
  destruct (Z.lt_ge_cases n k) as [Hlt|Hge].
  - rewrite (Z.mul_pow2_bits_low m k n) by lia. apply andb_false_r.
  - destruct (Z.eq_dec v 0) as [->|Hnz].
    + rewrite Z.bits_0. reflexivity.
    + rewrite (Z.bits_above_log2 v n); [reflexivity|lia|].
      apply Z.lt_le_trans with k; [|lia].
      apply Z.log2_lt_pow2; lia.
Qed.

Lemma lor_low_high (v m k : Z) :
  0 <= k -> 0 <= v < 2 ^ k -> Z.lor v (m * 2 ^ k) = v + m * 2 ^ k.
Proof.
  intros Hk Hv. symmetry. apply Z.add_nocarry_lor. now apply land_low_high.
Qed.

(** ** Section decoder: [parseSection], [parseSectionNodes] *)

Lemma returnsOrRangeError_bind {A B : Type} (c : result A) (k : A -> result B) :
  returnsOrRangeError c ->
  (forall a, c = OK a -> returnsOrRangeError (k a)) ->
  returnsOrRangeError (bind c k).
Proof.
  destruct c as [a|e|]; cbn; intros Hc Hk; auto.
Qed.

Lemma getBytes_safe (v : DataView) (i n : Z) :
  returnsOrRangeError (getBytes v i n).
Proof.
  destruct (getBytes_cases v i n) as [->|(bs & -> & _)]; exact I.
Qed.

Lemma getUint8_safe (v : DataView) (i : Z) : returnsOrRangeError (getUint8 v i).
Proof.
  apply returnsOrRangeError_bind; [apply getBytes_safe|intros; exact I].
Qed.

Lemma getUint16_safe (v : DataView) (i : Z) : returnsOrRangeError (getUint16 v i).
Proof.
  apply returnsOrRangeError_bind; [apply getBytes_safe|intros; exact I].
Qed.

Lemma getUint32_safe (v : DataView) (i : Z) : returnsOrRangeError (getUint32 v i).
Proof.
  apply returnsOrRangeError_bind; [apply getBytes_safe|intros; exact I].
Qed.

Lemma getUint32_range (v : DataView) (i n : Z) :
  getUint32 v i = OK n -> 0 <= n < 2 ^ 32.
Proof.
  unfold getUint32. intros H. apply bind_OK in H as (bs & Hbs & H).
  injection H as <-.
  destruct (getBytes_cases v i 4) as [Hc|(bs' & Hc & Hlen & _)];
    rewrite Hc in Hbs; [discriminate|].
  injection Hbs as ->. pose proof (beZ_range bs) as Hr.
  rewrite Hlen in Hr. exact Hr.
Qed.

Lemma newDataView_safe (data : list byte) (off : Z) (len : option Z) :
  returnsOrRangeError (newDataView data off len).
Proof.
  unfold newDataView. destruct (_ || _); [exact I|].
  destruct len; [|exact I]. destruct (_ || _); exact I.
Qed.

Lemma parseSection_safe (data : list byte) (offset : Z) :
  returnsOrRangeError (CrateParser.parseSection data offset).
Proof.
  unfold CrateParser.parseSection.
  repeat (apply returnsOrRangeError_bind;
          [first [apply newDataView_safe|apply getUint8_safe
                 |apply getUint32_safe]|intros]).
  exact I.
Qed.

Lemma parseString16_safe (n : nat) (v : DataView) (i : Z) :
  returnsOrRangeError (CrateParser.parseString16_from n v i).
Proof.
  revert i. induction n as [|n IH]; intros i; cbn; [exact I|].
  apply returnsOrRangeError_bind; [apply getUint16_safe|intros c _].
  destruct (c =? 0); [exact I|].
  apply returnsOrRangeError_bind; [apply IH|intros; exact I].
Qed.

Lemma parseInt8_safe (n : nat) (v : DataView) (i value : Z) :
  returnsOrRangeError (CrateParser.parseInt8_from n v i value).
Proof.
  revert i value. induction n as [|n IH]; intros i value; cbn; [exact I|].
  apply returnsOrRangeError_bind; [apply getUint8_safe|intros; apply IH].
Qed.

(** What a successful [parseSection] has checked: the header and the
    declared payload lie inside the buffer. *)
Lemma parseSection_OK (data : list byte) (offset : Z) (s : CrateParser.CrateSection) :
  CrateParser.parseSection data offset = OK s ->
  0 <= offset
  /\ 0 <= CrateParser.dataSize s
  /\ offset + 8 + CrateParser.dataSize s <= bufLen data
  /\ CrateParser.offset s = offset
  /\ CrateParser.dataOffset s = offset + 8
  /\ CrateParser.dataSize s = declaredSize data offset
  /\ buffer (CrateParser.data s) = data
  /\ byteOffset (CrateParser.data s) = offset + 8
  /\ byteLength (CrateParser.data s) = CrateParser.dataSize s
  /\ wfView (CrateParser.data s).
Proof.
  unfold CrateParser.parseSection. intros H.
  apply bind_OK in H as (view & Hview & H).
  apply bind_OK in H as (c0 & _ & H). apply bind_OK in H as (c1 & _ & H).
  apply bind_OK in H as (c2 & _ & H). apply bind_OK in H as (c3 & _ & H).
  apply bind_OK in H as (size & Hsize & H).
  apply bind_OK in H as (contents & Hcontents & H).
  injection H as <-. cbn.
  apply newDataView_wf in Hview as (Hwf & Hbuf & Hoff & Hlen).
  apply newDataView_wf in Hcontents as (Hwf' & Hbuf' & Hoff' & Hlen').
  cbn in Hlen, Hlen'.
  pose proof (getUint32_range _ _ _ Hsize) as Hrange.
  destruct Hwf as (Hv1 & Hv2 & Hv3). destruct Hwf' as (Hc1 & Hc2 & Hc3).
  rewrite Hbuf' in Hc3. rewrite Hoff', Hlen' in *.
  assert (Hdecl : size = declaredSize data offset).
  { unfold getUint32 in Hsize. apply bind_OK in Hsize as (bs & Hbs & Hb).
    injection Hb as <-. unfold declaredSize.
    unfold getBytes in Hbs. destruct (_ && _); [|discriminate].
    cbv zeta in Hbs. destruct (_ =? _); [|discriminate].
    injection Hbs as <-. rewrite Hbuf, Hoff. reflexivity. }
  repeat split; auto; rewrite ?Hoff', ?Hlen', ?Hbuf'; lia.
Qed.

(** A section whose header or declared payload runs past the end of the
    buffer is refused. *)
Lemma parseSection_past_buffer (data : list byte) (offset : Z) :
  bufLen data < offset + 8
  \/ bufLen data < offset + 8 + declaredSize data offset ->
  CrateParser.parseSection data offset = Throws RangeError.
Proof.
  intros Hpast.
  pose proof (parseSection_safe data offset) as Hsafe.
  destruct (CrateParser.parseSection data offset) as [s|e|] eqn:E.
  - apply parseSection_OK in E as (H0 & H1 & H2 & _ & _ & H3 & _).
    rewrite H3 in *. lia.
  - destruct e; cbn in Hsafe; try contradiction. reflexivity.
  - contradiction.
Qed.

(** The decoder returns or raises [RangeError] when it is given more units
    of fuel than the buffer has bytes from [offset] on: every call, nested or
    next in sequence, starts at least 8 bytes further. *)
Lemma parseSectionNodes_from_safe (fuel : nat) :
  forall (section : CrateParser.CrateSection) (offset : Z),
  0 <= offset -> (0 < fuel)%nat ->
  bufLen (buffer (CrateParser.data section)) - offset < Z.of_nat fuel ->
  returnsOrRangeError (CrateParser.parseSectionNodes_from fuel section offset).
Proof.
  induction fuel as [|fuel IH]; intros section offset Hoff Hpos Hfuel; [lia|].
  cbn [CrateParser.parseSectionNodes_from].
  destruct (offset <? _); [|exact I].
  apply returnsOrRangeError_bind; [apply parseSection_safe|].
  intros sub Hsub.
  apply parseSection_OK in Hsub
    as (H0 & H1 & H2 & _ & H4 & _ & H6 & _ & _ & _).
  apply returnsOrRangeError_bind.
  - destruct (CrateParser.isString16Tag _).
    + apply returnsOrRangeError_bind; [apply parseString16_safe|intros; exact I].
    + destruct (CrateParser.isInt8Tag _).
      * apply returnsOrRangeError_bind; [apply parseInt8_safe|intros; exact I].
      * apply returnsOrRangeError_bind; [|intros; exact I].
        apply IH; rewrite ?H6, ?H4; lia.
  - intros node _.
    apply returnsOrRangeError_bind; [|intros; exact I].
    apply IH; lia.
Qed.

(** C1, the claim as stated, on a 24-byte buffer: the section ['otrk'] at
    offset 0 has 8 bytes of payload, which hold only the header of its
    sub-section ['ptrk']; that header declares 8 more bytes, none of which
    remain in ['otrk'].  The decoder raises nothing: it decodes the string of
    ['ptrk'] from the bytes of the next top-level section.  Changing one of
    those bytes, outside ['otrk'], changes the nodes decoded for ['otrk']. *)
Lemma section_overrun_not_refused :
  let data :=
    [x6f; x74; x72; x6b; x00; x00; x00; x08;
     x70; x74; x72; x6b; x00; x00; x00; x08;
     x61; x62; x63; x64; x00; x00; x00; x00] in
  let data' :=
    [x6f; x74; x72; x6b; x00; x00; x00; x08;
     x70; x74; x72; x6b; x00; x00; x00; x08;
     x7a; x62; x63; x64; x00; x00; x00; x00] in
  exists outer inner outer',
    CrateParser.parseSection data 0 = OK outer
    /\ CrateParser.parseSection data (CrateParser.dataOffset outer) = OK inner
    /\ CrateParser.dataOffset outer + CrateParser.dataSize outer
       - CrateParser.dataOffset inner = 0
    /\ CrateParser.dataSize inner = 8
    /\ CrateParser.parseSectionNodes 25 (CrateParser.rootSection data)
       = OK [CrateParser.mkNode (str "otrk") CrateParser.VNull
               [CrateParser.mkNode (str "ptrk")
                  (CrateParser.VString [24930; 25444]) []];
             CrateParser.mkNode (str "abcd") CrateParser.VNull []]
    /\ CrateParser.parseSection data' 0 = OK outer'
    /\ viewBytes (CrateParser.data outer') = viewBytes (CrateParser.data outer)
    /\ CrateParser.parseSectionNodes 25 outer'
       <> CrateParser.parseSectionNodes 25 outer.
Proof.
  cbv zeta. do 3 eexists.
  split; [reflexivity|]. split; [reflexivity|]. split; [reflexivity|].
  split; [reflexivity|]. split; [reflexivity|]. split; [reflexivity|].
  split; [reflexivity|]. vm_compute. congruence.
Qed.

(** The loop of the section decoder, in terms of its calls. *)
Lemma run_step (fuel : nat) (section : CrateParser.CrateSection) (offset : Z) :
  run (S fuel, section, offset)
  = if offset <? CrateParser.dataOffset section + CrateParser.dataSize section
    then
      subSection <- CrateParser.parseSection
                      (buffer (CrateParser.data section)) offset ;;
      node <- nodeFor fuel subSection ;;
      nodes <- run (fuel, section,
                    offset + (8 + CrateParser.dataSize subSection)) ;;
      OK (node :: nodes)
    else OK [].
Proof. reflexivity. Qed.

(** No call catches an error: what a call throws, its caller throws. *)
Lemma calls_throws (c c' : Call) (e : error) :
  calls c c' -> run c' = Throws e -> run c = Throws e.
Proof.
  intros Hc He.
  destruct Hc as [fuel section offset sub Hin Hsub Hs Hi
                 |fuel section offset sub node Hin Hsub Hnode];
    rewrite run_step; apply Z.ltb_lt in Hin; rewrite Hin, Hsub; cbn [bind].
  - unfold nodeFor. rewrite Hs, Hi, He. reflexivity.
  - rewrite Hnode. cbn [bind]. rewrite He. reflexivity.
Qed.

Lemma rtc_calls_throws (c c' : Call) (e : error) :
  rtc calls c c' -> run c' = Throws e -> run c = Throws e.
Proof.
  induction 1 as [|c c' c'' Hc _ IH]; [auto|].
  intros He. apply (calls_throws c c'); auto.
Qed.

(** The calls made on a buffer stay on that buffer, at offsets from 0 on, in
    sections that end inside the buffer, with more units of fuel than the
    buffer has bytes from the offset on. *)
Lemma reached_inside (data : list byte) (fuel : nat)
  (section : CrateParser.CrateSection) (offset : Z) :
  reached data (fuel, section, offset) ->
  buffer (CrateParser.data section) = data
  /\ 0 <= offset
  /\ CrateParser.dataOffset section + CrateParser.dataSize section
     <= bufLen data
  /\ bufLen data - offset < Z.of_nat fuel.
Proof.
  unfold reached.
  set (inv := fun c : Call =>
    buffer (CrateParser.data c.1.2) = data
    /\ 0 <= c.2
    /\ CrateParser.dataOffset c.1.2 + CrateParser.dataSize c.1.2
       <= bufLen data
    /\ bufLen data - c.2 < Z.of_nat c.1.1).
  intros H. change (inv (fuel, section, offset)).
  revert H. generalize (fuel, section, offset). clear fuel section offset.
  apply (rtc_ind_r inv (firstCall data)).
  - unfold inv, firstCall, CrateParser.rootSection, bufLen.
    cbn [fst snd CrateParser.data CrateParser.dataOffset
         CrateParser.dataSize].
    split; [reflexivity|lia].
  - intros c c' _ Hc IH. destruct IH as (Hb & H0 & Hend & Hfuel).
    destruct Hc as [f s o sub Hin Hsub Hs Hi|f s o sub node Hin Hsub Hnode];
      cbn in Hb, H0, Hend, Hfuel; unfold inv; cbn;
      apply parseSection_OK in Hsub
        as (S0 & S1 & S2 & _ & S4 & _ & S6 & _); rewrite Hb in *.
    + rewrite S4. repeat split; auto; lia.
    + repeat split; auto; lia.
Qed.

(** C1 (amended).  The section decoder checks a section against the end of
    the whole buffer, not against its enclosing section.  A sub-section whose
    8-byte header or whose declared length runs past the end of the buffer
    is refused with [RangeError] (there is no TruncatedSection error), and
    no call catches it: when the decoder comes to such a sub-section while it
    decodes a buffer, every call on the way there, the decoding of the
    buffer and [parseCrate] on a file with that content all fail with
    [RangeError].  A sub-section that the decoder accepts lies inside the
    buffer, so that nothing outside the buffer is read. *)
Theorem section_checked_against_buffer (fuel : nat)
  (section : CrateParser.CrateSection) (offset : Z) :
  let data := buffer (CrateParser.data section) in
  offset < CrateParser.dataOffset section + CrateParser.dataSize section ->
  (bufLen data < offset + 8
   \/ bufLen data < offset + 8 + declaredSize data offset ->
   CrateParser.parseSection data offset = Throws RangeError
   /\ CrateParser.parseSectionNodes_from (S fuel) section offset
      = Throws RangeError
   /\ (forall fuel' : nat,
       reached data (fuel', section, offset) ->
       (forall c : Call,
          rtc calls c (fuel', section, offset) -> run c = Throws RangeError)
       /\ CrateParser.parseSectionNodes (S (length data))
            (CrateParser.rootSection data) = Throws RangeError
       /\ (forall (fs : Util.FileSystem) (path : jsstring),
           Util.readFileToArrayBufferOrThrow fs path = OK data ->
           CrateParser.parseCrate fs path = Throws RangeError)))
  /\ (forall sub, CrateParser.parseSection data offset = OK sub ->
      0 <= offset
      /\ CrateParser.dataSize sub = declaredSize data offset
      /\ offset + 8 + CrateParser.dataSize sub <= bufLen data
      /\ buffer (CrateParser.data sub) = data
      /\ wfView (CrateParser.data sub)
      /\ byteOffset (CrateParser.data sub) = offset + 8
      /\ byteLength (CrateParser.data sub) = CrateParser.dataSize sub).
Proof.
  intros data Hin. split.
  - intros Hpast. pose proof (parseSection_past_buffer data offset Hpast) as E.
    assert (Hthrows : forall f : nat,
              run (S f, section, offset) = Throws RangeError).
    { intros f. rewrite run_step.
      apply Z.ltb_lt in Hin. rewrite Hin. fold data. rewrite E. reflexivity. }
    split; [exact E|]. split; [exact (Hthrows fuel)|].
    intros fuel' Hreached.
    pose proof (reached_inside _ _ _ _ Hreached) as (_ & _ & Hend & Hfuel).
    destruct fuel' as [|f]; [lia|].
    assert (Hall : forall c : Call,
              rtc calls c (S f, section, offset) -> run c = Throws RangeError).
    { intros c Hc. apply (rtc_calls_throws _ _ _ Hc), Hthrows. }
    assert (Hroot : CrateParser.parseSectionNodes (S (length data))
                      (CrateParser.rootSection data) = Throws RangeError).
    { apply (Hall (firstCall data)), Hreached. }
    split; [exact Hall|]. split; [exact Hroot|].
    intros fs path Hfile. unfold CrateParser.parseCrate.
    rewrite Hfile. cbn [bind]. rewrite Hroot. reflexivity.
  - intros sub Hsub.
    apply parseSection_OK in Hsub
      as (H0 & H1 & H2 & H3 & H4 & H5 & H6 & H7 & H8 & H9).
    repeat split; auto; apply H9.
Qed.

Lemma section_checked_against_buffer_witness :
  let data :=
    [x76; x72; x73; x6e; x00; x00; x00; x02; x00; x31;
     x6f; x74; x72; x6b; x00; x00; x00; x08;
     x70; x74; x72; x6b; x00; x00; x00; x09] in
  let otrk :=
    CrateParser.mkSection (str "otrk") 10 18 8 (mkDataView data 18 8) in
  reached data (25%nat, otrk, 18)
  /\ CrateParser.parseSection data 18 = Throws RangeError
  /\ CrateParser.parseSectionNodes (S (length data))
       (CrateParser.rootSection data) = Throws RangeError
  /\ CrateParser.parseCrate (fun _ => Some data) (str "a.crate")
     = Throws RangeError.
Proof.
  intros data otrk.
  assert (Hr : reached data (25%nat, otrk, 18)).
  { apply (rtc_l _ _ (26%nat, CrateParser.rootSection data, 10)).
    - refine (calls_behind 26 (CrateParser.rootSection data) 0
                (CrateParser.mkSection (str "vrsn") 0 8 2
                   (mkDataView data 8 2))
                (CrateParser.mkNode (str "vrsn") (CrateParser.VString [49])
                   []) _ _ _); vm_compute; reflexivity.
    - apply (rtc_l _ _ (25%nat, otrk, 18)); [|apply rtc_refl].
      refine (calls_into 25 (CrateParser.rootSection data) 10 otrk _ _ _ _);
        vm_compute; reflexivity. }
  pose proof (section_checked_against_buffer 0 otrk 18) as H.
  cbv zeta in H. destruct H as [H _]; [vm_compute; reflexivity|].
  destruct H as (Hs & _ & H); [right; vm_compute; reflexivity|].
  destruct (H 25%nat Hr) as (_ & Hroot & Hc).
  split; [exact Hr|]. split; [exact Hs|]. split; [exact Hroot|].
  apply Hc. reflexivity.
Defined.

(** The nodes that the decoder returns are well typed: a node with a string
    tag holds a string.  This is what the casts [value as string] of
    [parseCrate] rely on. *)
Lemma stringTagged_children (kids : CrateParser.NodeList) :
  Forall stringTagged kids ->
  fold_right (fun c P => stringTagged c /\ P) True kids.
Proof. induction 1; cbn [fold_right]; auto. Qed.

Lemma parseSectionNodes_from_stringTagged (fuel : nat) :
  forall (section : CrateParser.CrateSection) (offset : Z)
         (nodes : CrateParser.NodeList),
  CrateParser.parseSectionNodes_from fuel section offset = OK nodes ->
  Forall stringTagged nodes.
Proof.
  induction fuel as [|fuel IH]; intros section offset nodes H; [discriminate|].
  cbn [CrateParser.parseSectionNodes_from] in H.
  destruct (offset <? _); [|injection H as <-; constructor].
  apply bind_OK in H as (sub & _ & H).
  apply bind_OK in H as (node & Hnode & H).
  apply bind_OK in H as (rest & Hrest & H).
  injection H as <-. constructor; [|eapply IH, Hrest].
  destruct (CrateParser.isString16Tag (CrateParser.stype sub)) eqn:Hs.
  - apply bind_OK in Hnode as (s & _ & Hnode). injection Hnode as <-.
    cbn. split; [eauto|exact I].
  - destruct (CrateParser.isInt8Tag (CrateParser.stype sub)).
    + apply bind_OK in Hnode as (k & _ & Hnode). injection Hnode as <-.
      cbn. split; [congruence|exact I].
    + apply bind_OK in Hnode as (kids & Hkids & Hnode). injection Hnode as <-.
      cbn. split; [congruence|].
      apply stringTagged_children. eapply IH, Hkids.
Qed.

(** ** Integer leaves: [parseInt8] *)

Lemma leZ_range (bs : list byte) : 0 <= leZ bs < 256 ^ bufLen bs.
Proof.
  induction bs as [|b bs IH].
  - unfold bufLen. simpl. lia.
  - unfold bufLen in *. cbn [leZ length].
    replace (Z.of_nat (S (length bs))) with (Z.of_nat (length bs) + 1) by lia.
    rewrite Z.pow_add_r by lia. pose proof (u8_range b). lia.
Qed.

Lemma toInt32_mod (a : Z) : toInt32 a mod 2 ^ 32 = a mod 2 ^ 32.
Proof.
  unfold toInt32.
  replace ((a + 2 ^ 31) mod 2 ^ 32 - 2 ^ 31)
    with ((a + 2 ^ 31) mod 2 ^ 32 + (- 2 ^ 31)) by lia.
  rewrite Zplus_mod_idemp_l. f_equal. lia.
Qed.

Lemma toInt32_eq_mod (a b : Z) :
  a mod 2 ^ 32 = b mod 2 ^ 32 -> toInt32 a = toInt32 b.
Proof.
  intros H. unfold toInt32. f_equal.
  rewrite <- (Zplus_mod_idemp_l a), <- (Zplus_mod_idemp_l b), H. reflexivity.
Qed.

Lemma lor_mod_pow2 (a b n : Z) :
  0 <= n -> Z.lor a b mod 2 ^ n = Z.lor (a mod 2 ^ n) (b mod 2 ^ n).
Proof.
  intros Hn. rewrite <- !Z.land_ones by exact Hn.
  apply Z.land_lor_distr_l.
Qed.

(** [|] sees the low 32 bits of its operands only. *)
Lemma or32_toInt32 (a b : Z) :
  or32 (toInt32 a) (toInt32 b) = toInt32 (Z.lor a b).
Proof.
  unfold or32. apply toInt32_eq_mod.
  rewrite !lor_mod_pow2, !toInt32_mod by lia. reflexivity.
Qed.

(** [b << (i * 8)] for a byte [b]: the shift count is taken modulo 32. *)
Lemma shl32_byte (b i : Z) :
  0 <= b < 256 -> 0 <= i ->
  shl32 b (i * 8) = toInt32 (b * 2 ^ (8 * (i mod 4))).
Proof.
  intros Hb Hi. unfold shl32.
  replace ((i * 8) mod 32) with (8 * (i mod 4))
    by (rewrite <- (Z.mul_mod_distr_l i 4 8) by lia; f_equal; lia).
  rewrite (toInt32_small b) by lia.
  rewrite Z.shiftl_mul_pow2 by (pose proof (Z.mod_pos_bound i 4); lia).
  reflexivity.
Qed.

(** One iteration of the loop of [parseInt8] on the byte at index [k]. *)
Lemma parseInt8_from_step (n k : nat) (v : DataView) (value : Z) (b : byte) :
  wfView v -> viewBytes v !! k = Some b ->
  CrateParser.parseInt8_from (S n) v (Z.of_nat k) value
  = CrateParser.parseInt8_from n v (Z.of_nat (S k))
      (or32 value (shl32 (u8 b) (Z.of_nat k * 8))).
Proof.
  intros Hwf Hk. cbn [CrateParser.parseInt8_from].
  rewrite (getUint8_at v k b Hwf Hk). cbn [bind].
  replace (Z.of_nat k + 1) with (Z.of_nat (S k)) by lia. reflexivity.
Qed.

(** The loop of [parseInt8] from the byte of index [length done] on, with
    the bytes OR-ed so far in [acc]. *)
Lemma parseInt8_from_value (v : DataView) (rest : list byte) :
  forall (done : list byte) (acc : Z),
  wfView v -> viewBytes v = done ++ rest ->
  CrateParser.parseInt8_from (length rest) v (bufLen done) (toInt32 acc)
  = OK (toInt32 (Z.lor acc (orBytes (bufLen done) rest))).
Proof.
  induction rest as [|b rest IH]; intros done acc Hwf Hvb.
  - cbn [length CrateParser.parseInt8_from orBytes]. now rewrite Z.lor_0_r.
  - cbn [length]. unfold bufLen at 1.
    rewrite (parseInt8_from_step _ _ v _ b)
      by (auto; rewrite Hvb; apply list_lookup_middle; reflexivity).
    rewrite shl32_byte by (auto using u8_range; lia).
    rewrite or32_toInt32.
    replace (Z.of_nat (S (length done))) with (bufLen (done ++ [b]))
      by (unfold bufLen; rewrite length_app; cbn [length]; lia).
    rewrite (IH (done ++ [b])) by (auto; rewrite Hvb, <- app_assoc; reflexivity).
    cbn [orBytes]. rewrite Z.lor_assoc. f_equal. f_equal. f_equal.
    rewrite bufLen_app. reflexivity.
Qed.

(** The value decoded from a payload, whatever its length. *)
Lemma parseInt8_value (v : DataView) :
  wfView v ->
  CrateParser.parseInt8 v (byteLength v)
  = OK (toInt32 (orBytes 0 (viewBytes v))).
Proof.
  intros Hwf. unfold CrateParser.parseInt8.
  rewrite <- (viewBytes_length v Hwf). unfold bufLen at 1. rewrite Nat2Z.id.
  change 0 with (toInt32 0) at 2. change 0 with (bufLen []) at 1.
  rewrite (parseInt8_from_value v (viewBytes v) [] 0) by auto.
  reflexivity.
Qed.

(** Up to four bytes the shifts do not overlap: the OR is the sum. *)
Lemma orBytes_upto4 (bs : list byte) :
  (length bs <= 4)%nat -> orBytes 0 bs = leZ bs.
Proof.
  intros Hlen.
  destruct bs as [|b0 [|b1 [|b2 [|b3 [|b4 rest]]]]]; cbn [length] in Hlen;
    try lia; cbn [orBytes leZ];
    change (8 * (0 mod 4)) with 0; change (8 * ((0 + 1) mod 4)) with 8;
    change (8 * ((0 + 1 + 1) mod 4)) with 16;
    change (8 * ((0 + 1 + 1 + 1) mod 4)) with 24;
    change (2 ^ 0) with 1; change (2 ^ 8) with 256;
    change (2 ^ 16) with 65536; change (2 ^ 24) with 16777216;
    rewrite ?Z.lor_0_r.
  - reflexivity.
  - lia.
  - pose proof (u8_range b0).
    change 256 with (2 ^ 8) at 1.
    rewrite (lor_low_high (u8 b0 * 1) (u8 b1) 8) by lia. lia.
  - pose proof (u8_range b0). pose proof (u8_range b1).
    change 65536 with (2 ^ 16).
    rewrite (lor_low_high (u8 b1 * 256) (u8 b2) 16) by lia.
    replace (u8 b1 * 256 + u8 b2 * 2 ^ 16)
      with ((u8 b1 + u8 b2 * 256) * 2 ^ 8) by lia.
    rewrite (lor_low_high (u8 b0 * 1) _ 8) by lia. lia.
  - pose proof (u8_range b0). pose proof (u8_range b1).
    pose proof (u8_range b2).
    change 16777216 with (2 ^ 24).
    rewrite (lor_low_high (u8 b2 * 65536) (u8 b3) 24) by lia.
    replace (u8 b2 * 65536 + u8 b3 * 2 ^ 24)
      with ((u8 b2 + u8 b3 * 256) * 2 ^ 16) by lia.
    rewrite (lor_low_high (u8 b1 * 256) _ 16) by lia.
    replace (u8 b1 * 256 + (u8 b2 + u8 b3 * 256) * 2 ^ 16)
      with ((u8 b1 + u8 b2 * 256 + u8 b3 * 65536) * 2 ^ 8) by lia.
    rewrite (lor_low_high (u8 b0 * 1) _ 8) by lia. lia.
Qed.

(** C4, the claim as stated, at the two-byte payload [00 01]: the decoder
    returns 256, the big-endian value of the payload is 1. *)
Lemma parseInt8_not_big_endian :
  CrateParser.parseInt8 (wholeView [x00; x01]) 2 = OK 256
  /\ beZ [x00; x01] = 1
  /\ CrateParser.parseInt8 (wholeView [x00; x01]) 2 <> OK (beZ [x00; x01]).
Proof. vm_compute. repeat split; congruence. Qed.

(** The value decoded from a payload of at most four bytes. *)
Lemma parseInt8_upto4 (v : DataView) :
  wfView v -> byteLength v <= 4 ->
  CrateParser.parseInt8 v (byteLength v) = OK (toInt32 (leZ (viewBytes v))).
Proof.
  intros Hwf Hle. rewrite parseInt8_value by exact Hwf.
  rewrite orBytes_upto4; [reflexivity|].
  pose proof (viewBytes_length v Hwf) as Hlen. unfold bufLen in Hlen. lia.
Qed.

(** The little-endian value of a sequence made of two. *)
Lemma leZ_app (pre rest : list byte) :
  leZ (pre ++ rest) = leZ pre + 256 ^ bufLen pre * leZ rest.
Proof.
  induction pre as [|b pre IH].
  - cbn [app leZ]. change (bufLen []) with 0. lia.
  - cbn [app leZ]. rewrite IH. unfold bufLen. cbn [length].
    replace (Z.of_nat (S (length pre))) with (Z.of_nat (length pre) + 1)
      by lia.
    rewrite Z.pow_add_r by lia. lia.
Qed.

(** Bytes that are all zero add nothing, wherever they are shifted to. *)
Lemma orBytes_zero (bs : list byte) :
  leZ bs = 0 -> forall i : Z, orBytes i bs = 0.
Proof.
  induction bs as [|b bs IH]; intros Hz i; [reflexivity|].
  cbn [leZ] in Hz. cbn [orBytes].
  pose proof (u8_range b). pose proof (leZ_range bs).
  assert (Hb : u8 b = 0) by lia. rewrite Hb, IH by lia. reflexivity.
Qed.

Lemma orBytes_app_zero (pre rest : list byte) :
  leZ rest = 0 -> forall i : Z, orBytes i (pre ++ rest) = orBytes i pre.
Proof.
  intros Hz. induction pre as [|b pre IH]; intros i; cbn [app orBytes].
  - now apply orBytes_zero.
  - rewrite IH. reflexivity.
Qed.

(** Below [2 ^ 31] the bytes OR-ed together are the little-endian value. *)
Lemma orBytes_small (bs : list byte) :
  leZ bs < 2 ^ 31 -> orBytes 0 bs = leZ bs.
Proof.
  intros Hsmall.
  destruct (decide (length bs <= 4)%nat) as [Hle|Hgt];
    [now apply orBytes_upto4|].
  rewrite <- (take_drop 4 bs) in Hsmall |- *.
  assert (Hpre : length (take 4 bs) = 4%nat) by (rewrite length_take; lia).
  rewrite leZ_app in Hsmall. unfold bufLen in Hsmall. rewrite Hpre in Hsmall.
  pose proof (leZ_range (take 4 bs)). pose proof (leZ_range (drop 4 bs)).
  assert (Hz : leZ (drop 4 bs) = 0) by lia.
  rewrite orBytes_app_zero, leZ_app, Hz by exact Hz.
  rewrite orBytes_upto4 by lia. lia.
Qed.

(** C4 (amended).  An integer leaf is decoded least-significant byte first,
    not most-significant byte first: for a payload b0..b(k-1) whose
    little-endian value, the sum of the b(i) * 256^i, is below 2^31, the
    decoded value is that sum.  Every payload of at most three bytes is such
    a payload; for a one-byte payload the value is the byte, where big- and
    little-endian agree. *)
Theorem parseInt8_little_endian (v : DataView) :
  wfView v ->
  (leZ (viewBytes v) < 2 ^ 31 ->
   CrateParser.parseInt8 v (byteLength v) = OK (leZ (viewBytes v)))
  /\ (byteLength v <= 3 ->
      CrateParser.parseInt8 v (byteLength v) = OK (leZ (viewBytes v)))
  /\ (byteLength v = 1 ->
      CrateParser.parseInt8 v (byteLength v) = OK (beZ (viewBytes v))).
Proof.
  intros Hwf.
  pose proof (viewBytes_length v Hwf) as Hlen.
  assert (Hsmall : leZ (viewBytes v) < 2 ^ 31 ->
            CrateParser.parseInt8 v (byteLength v) = OK (leZ (viewBytes v))).
  { intros Hlt. rewrite parseInt8_value by exact Hwf.
    rewrite orBytes_small by exact Hlt.
    pose proof (leZ_range (viewBytes v)).
    rewrite toInt32_small by lia. reflexivity. }
  split; [exact Hsmall|]. split.
  - intros H3. apply Hsmall.
    pose proof (leZ_range (viewBytes v)) as Hr. rewrite Hlen in Hr.
    assert (256 ^ byteLength v <= 256 ^ 3)
      by (apply Z.pow_le_mono_r; destruct Hwf as (_ & ? & _); lia).
    lia.
  - intros H1. rewrite H1 in Hlen. unfold bufLen in Hlen.
    destruct (viewBytes v) as [|b [|]] eqn:Hb; cbn [length] in Hlen; try lia.
    rewrite beZ_single, Hsmall; cbn [leZ]; pose proof (u8_range b);
      [f_equal|]; lia.
Qed.

Lemma parseInt8_little_endian_witness :
  CrateParser.parseInt8 (wholeView [x01; x02; x03; x04]) 4 = OK 67305985.
Proof.
  pose proof (parseInt8_little_endian (wholeView [x01; x02; x03; x04])
                (wholeView_wf _)) as H.
  destruct H as (H & _).
  apply H. vm_compute. reflexivity.
Defined.

(** ** Crate documents: [parseCrate] *)

(** [parseCrate] returns or throws: its budget for the section decoder is
    never exhausted. *)
Lemma parseCrate_returns (fs : Util.FileSystem) (path : jsstring) :
  CrateParser.parseCrate fs path <> OutOfFuel.
Proof.
  unfold CrateParser.parseCrate, Util.readFileToArrayBufferOrThrow.
  destruct (fs path) as [data|]; cbn [bind]; [|discriminate].
  pose proof (parseSectionNodes_from_safe (S (length data))
                (CrateParser.rootSection data) 0) as Hsafe.
  unfold CrateParser.parseSectionNodes. cbn [CrateParser.rootSection
    CrateParser.dataOffset].
  destruct (CrateParser.parseSectionNodes_from _ _ 0) as [nodes|e|] eqn:E;
    cbn [bind].
  - destruct nodes as [|first rest]; [discriminate|].
    unfold CrateParser.expectNodeType. destruct (bool_decide _); cbn [bind];
      [|discriminate].
    destruct (bool_decide _); [|discriminate].
    destruct (CrateParser.collectTracks rest) as [tracks|e|] eqn:Et;
      cbn [bind]; try discriminate.
    exfalso. clear -Et. induction rest as [|n rest IH]; cbn in Et; [discriminate|].
    destruct (bool_decide _); [|auto].
    unfold CrateParser.findNodeOrThrow in Et.
    destruct (CrateParser.findNode _ _); cbn [bind] in Et; [|discriminate].
    destruct (CrateParser.collectTracks rest); cbn [bind] in Et;
      try discriminate. auto.
  - discriminate.
  - exfalso. apply Hsafe; cbn; unfold bufLen; lia.
Qed.

(** A crate is returned only for a buffer whose first node is the version
    node with the crate-format identifier. *)
Lemma parseCrate_OK_version (fs : Util.FileSystem) (path : jsstring)
  (crate : CrateParser.Crate) :
  CrateParser.parseCrate fs path = OK crate ->
  exists data first rest,
    fs path = Some data
    /\ CrateParser.parseSectionNodes (S (length data))
         (CrateParser.rootSection data) = OK (first :: rest)
    /\ CrateParser.type first = str "vrsn"
    /\ CrateParser.value first = CrateParser.VString CrateParser.crateVersion
    /\ CrateParser.version crate = CrateParser.crateVersion.
Proof.
  unfold CrateParser.parseCrate, Util.readFileToArrayBufferOrThrow.
  destruct (fs path) as [data|]; cbn [bind]; [|discriminate].
  intros H. apply bind_OK in H as (nodes & Hnodes & H).
  destruct nodes as [|first rest]; [discriminate|].
  apply bind_OK in H as (version & Hversion & H).
  unfold CrateParser.expectNodeType in Hversion.
  destruct (bool_decide (CrateParser.type first = str "vrsn")) eqn:Et;
    [|discriminate].
  injection Hversion as <-. apply bool_decide_eq_true in Et.
  destruct (bool_decide (CrateParser.value first = _)) eqn:Ev; [|discriminate].
  apply bool_decide_eq_true in Ev.
  apply bind_OK in H as (tracks & _ & H). injection H as <-.
  exists data, first, rest. cbn [CrateParser.version]. rewrite Ev.
  repeat split; auto.
Qed.

(** C3.  When the first decoded node of a crate buffer is not a version node
    whose value is exactly the crate-format identifier (because the tag is
    wrong, the value is wrong, or there is no node at all), [parseCrate]
    throws and returns no [Crate]. *)
Theorem parseCrate_requires_version (fs : Util.FileSystem) (path : jsstring)
  (data : list byte) (nodes : CrateParser.NodeList) :
  fs path = Some data ->
  CrateParser.parseSectionNodes (S (length data)) (CrateParser.rootSection data)
  = OK nodes ->
  ~ (exists first rest, nodes = first :: rest
       /\ CrateParser.type first = str "vrsn"
       /\ CrateParser.value first = CrateParser.VString CrateParser.crateVersion) ->
  (exists e, CrateParser.parseCrate fs path = Throws e
     /\ (e = NoSectionsFound
         \/ (exists got, e = ExpectedNodeType (str "vrsn") got)
         \/ (exists got, e = UnsupportedCrateVersion got)))
  /\ (forall crate, CrateParser.parseCrate fs path <> OK crate).
Proof.
  intros Hfs Hnodes Hbad.
  assert (H : exists e, CrateParser.parseCrate fs path = Throws e
     /\ (e = NoSectionsFound
         \/ (exists got, e = ExpectedNodeType (str "vrsn") got)
         \/ (exists got, e = UnsupportedCrateVersion got))).
  { unfold CrateParser.parseCrate, Util.readFileToArrayBufferOrThrow.
    rewrite Hfs. cbn [bind]. rewrite Hnodes. cbn [bind].
    destruct nodes as [|first rest]; [eauto|].
    unfold CrateParser.expectNodeType.
    destruct (bool_decide (CrateParser.type first = str "vrsn")) eqn:Et;
      cbn [bind]; [|eauto 6].
    apply bool_decide_eq_true in Et.
    destruct (bool_decide (CrateParser.value first = _)) eqn:Ev; [|eauto 6].
    apply bool_decide_eq_true in Ev. exfalso. apply Hbad. eauto. }
  split; [exact H|]. destruct H as (e & -> & _). discriminate.
Qed.

Lemma parseCrate_requires_version_witness :
  let data :=
    [x76; x72; x73; x6e; x00; x00; x00; x04; x00; x32; x00; x2e] in
  exists e, CrateParser.parseCrate (fun _ => Some data) (str "/s/Subcrates/A.crate")
            = Throws e.
Proof.
  intros data.
  destruct (parseCrate_requires_version (fun _ => Some data)
              (str "/s/Subcrates/A.crate") data
              [CrateParser.mkNode (str "vrsn") (CrateParser.VString (str "2.")) []]
              eq_refl eq_refl) as [(e & He & _) _].
  - intros (first & rest & [= <- <-] & _ & Hv). vm_compute in Hv. discriminate.
  - exists e. exact He.
Defined.

(** ** The crate layout read back *)

Lemma u8_byteOfZ (z : Z) : u8 (byteOfZ z) = z mod 256.
Proof.
  unfold u8, byteOfZ.
  assert (Hm : 0 <= z mod 256 < 256) by (apply Z.mod_pos_bound; lia).
  destruct (Byte.of_N (Z.to_N (z mod 256))) as [b|] eqn:E; cbn.
  - apply Byte.to_of_N in E. rewrite E. lia.
  - apply Byte.of_N_None_iff in E. lia.
Qed.

Lemma beZ_be16 (n : Z) : 0 <= n < 65536 -> beZ (be16 n) = n.
Proof.
  intros Hn. unfold beZ, be16. cbn [fold_left].
  rewrite !u8_byteOfZ. Z.div_mod_to_equations. lia.
Qed.

Lemma beZ_be32 (n : Z) : 0 <= n < 2 ^ 32 -> beZ (be32 n) = n.
Proof.
  intros Hn. unfold beZ, be32. cbn [fold_left].
  rewrite !u8_byteOfZ. Z.div_mod_to_equations. lia.
Qed.

Lemma bufLen_frame (tag payload : list byte) :
  length tag = 4%nat -> bufLen (frame tag payload) = 8 + bufLen payload.
Proof.
  intros Htag. unfold frame. rewrite !bufLen_app. unfold bufLen at 1 2.
  rewrite Htag. cbn [be32 length]. lia.
Qed.

(** The bytes shown by a window that starts after [pre] and spans [mid]. *)
Lemma viewBytes_window (data pre mid post : list byte) :
  data = pre ++ mid ++ post ->
  viewBytes (mkDataView data (bufLen pre) (bufLen mid)) = mid.
Proof.
  intros ->. unfold viewBytes, bufLen. cbn. rewrite !Nat2Z.id.
  rewrite drop_app_length. apply take_app_length.
Qed.

Lemma window_wf (data pre mid post : list byte) :
  data = pre ++ mid ++ post ->
  wfView (mkDataView data (bufLen pre) (bufLen mid)).
Proof.
  intros ->. unfold wfView; cbn. rewrite !bufLen_app.
  pose proof (bufLen_nonneg pre). pose proof (bufLen_nonneg mid).
  pose proof (bufLen_nonneg post). lia.
Qed.

(** [parseSection] on a framed section that starts after [pre]. *)
Lemma parseSection_frame (data pre tag payload post : list byte) :
  data = pre ++ frame tag payload ++ post ->
  length tag = 4%nat -> bufLen payload < 2 ^ 32 ->
  CrateParser.parseSection data (bufLen pre)
  = OK (CrateParser.mkSection (map u8 tag) (bufLen pre) (bufLen pre + 8)
          (bufLen payload)
          (mkDataView data (bufLen pre + 8) (bufLen payload))).
Proof.
  intros Hdata Htag Hsize.
  destruct tag as [|t0 [|t1 [|t2 [|t3 [|]]]]]; try discriminate.
  pose proof (bufLen_nonneg pre) as Hpre.
  pose proof (bufLen_nonneg payload) as Hpay.
  pose proof (bufLen_nonneg post) as Hpost.
  assert (Hlen : bufLen data = bufLen pre + (8 + bufLen payload + bufLen post)).
  { rewrite Hdata, !bufLen_app, bufLen_frame by reflexivity. lia. }
  unfold CrateParser.parseSection, newDataView.
  replace ((bufLen pre <? 0) || (bufLen data <? bufLen pre)) with false
    by (symmetry; apply orb_false_iff; split; apply Z.ltb_ge; lia).
  cbn [bind].
  set (view := mkDataView data (bufLen pre) (bufLen data - bufLen pre)).
  assert (Hwf : wfView view) by (unfold wfView, view; cbn; lia).
  assert (Hvb : viewBytes view
                = t0 :: t1 :: t2 :: t3 :: be32 (bufLen payload) ++ payload ++ post).
  { unfold view. replace (bufLen data - bufLen pre)
      with (bufLen (frame [t0; t1; t2; t3] payload ++ post))
      by (rewrite bufLen_app, bufLen_frame by reflexivity; lia).
    rewrite (viewBytes_window data pre _ []) by (now rewrite app_nil_r).
    unfold frame. cbn [app]. now rewrite <- app_assoc. }
  change 0 with (Z.of_nat 0) at 1.
  rewrite (getUint8_at view 0 t0 Hwf) by (now rewrite Hvb). cbn [bind].
  change 1 with (Z.of_nat 1) at 1.
  rewrite (getUint8_at view 1 t1 Hwf) by (now rewrite Hvb). cbn [bind].
  change 2 with (Z.of_nat 2) at 1.
  rewrite (getUint8_at view 2 t2 Hwf) by (now rewrite Hvb). cbn [bind].
  change 3 with (Z.of_nat 3) at 1.
  rewrite (getUint8_at view 3 t3 Hwf) by (now rewrite Hvb). cbn [bind].
  unfold getUint32.
  rewrite getBytes_inside by (auto; unfold view; cbn; lia).
  replace (take (Z.to_nat 4) (drop (Z.to_nat 4) (viewBytes view)))
    with (be32 (bufLen payload)) by (rewrite Hvb; reflexivity).
  cbn [bind]. rewrite beZ_be32 by lia.
  replace ((bufLen pre + 8 <? 0) || (bufLen data <? bufLen pre + 8))
    with false by (symmetry; apply orb_false_iff; split; apply Z.ltb_ge; lia).
  replace ((bufLen payload <? 0)
           || (bufLen data <? bufLen pre + 8 + bufLen payload))
    with false by (symmetry; apply orb_false_iff; split; apply Z.ltb_ge; lia).
  cbn [bind]. f_equal. f_equal.
  unfold fromCharCode. cbn [app map].
  pose proof (u8_range t0). pose proof (u8_range t1).
  pose proof (u8_range t2). pose proof (u8_range t3).
  rewrite !Z.mod_small by lia. reflexivity.
Qed.

Lemma bufLen_utf16be (s : jsstring) : bufLen (utf16be s) = 2 * Z.of_nat (length s).
Proof.
  unfold utf16be, bufLen. induction s as [|c s IH]; [reflexivity|].
  cbn [flat_map be16 app length]. lia.
Qed.

(** The string loop reads back the code units that were written. *)
Lemma parseString16_from_utf16be (s : jsstring) :
  forall (v : DataView) (pre : list byte),
  wfView v -> viewBytes v = pre ++ utf16be s ->
  Forall (fun c => 0 < c < 65536) s ->
  CrateParser.parseString16_from (length s) v (bufLen pre) = OK s.
Proof.
  induction s as [|c s IH]; intros v pre Hwf Hvb Hs; [reflexivity|].
  apply Forall_cons in Hs as [Hc Hs].
  pose proof (viewBytes_length v Hwf) as Hlen.
  rewrite Hvb, bufLen_app, bufLen_utf16be in Hlen. cbn [length] in Hlen.
  pose proof (bufLen_nonneg pre) as Hpre.
  cbn [length CrateParser.parseString16_from]. unfold getUint16.
  rewrite getBytes_inside by (auto; lia).
  replace (take (Z.to_nat 2) (drop (Z.to_nat (bufLen pre)) (viewBytes v)))
    with (be16 c).
  2:{ rewrite Hvb. unfold bufLen. rewrite Nat2Z.id, drop_app_length.
      reflexivity. }
  cbn [bind]. rewrite beZ_be16 by lia.
  replace (c =? 0) with false by (symmetry; apply Z.eqb_neq; lia).
  replace (bufLen pre + 2) with (bufLen (pre ++ be16 c))
    by (rewrite bufLen_app; reflexivity).
  rewrite (IH v (pre ++ be16 c) Hwf); [|rewrite Hvb, <- app_assoc; reflexivity|exact Hs].
  cbn [bind]. unfold fromCharCode. rewrite Z.mod_small by lia. reflexivity.
Qed.

Lemma parseString16_utf16be (s : jsstring) (v : DataView) :
  wfView v -> viewBytes v = utf16be s ->
  Forall (fun c => 0 < c < 65536) s ->
  CrateParser.parseString16 v (bufLen (utf16be s)) = OK s.
Proof.
  intros Hwf Hvb Hs. unfold CrateParser.parseString16.
  rewrite bufLen_utf16be.
  replace (Z.to_nat ((2 * Z.of_nat (length s) + 1) / 2)) with (length s)
    by (Z.div_mod_to_equations; lia).
  apply (parseString16_from_utf16be s v []); auto.
Qed.

Lemma sections_pos (t : SectionTree) : (0 < sections t)%nat.
Proof. destruct t; cbn; lia. Qed.

Lemma encodeAll_cons (t : SectionTree) (ts : list SectionTree) :
  encodeAll (t :: ts) = encode t ++ encodeAll ts.
Proof. reflexivity. Qed.

(** The decoder reads back a sequence of well-formed sections laid out
    after [pre], whatever follows them, given one unit of fuel per
    section and one more. *)
Lemma parseSectionNodes_from_encodeAll (n : nat) :
  forall (ts : list SectionTree) (fuel : nat)
         (section : CrateParser.CrateSection) (pre post : list byte),
  (list_sum (map sections ts) <= n)%nat ->
  Forall wfTree ts ->
  buffer (CrateParser.data section) = pre ++ encodeAll ts ++ post ->
  CrateParser.dataOffset section + CrateParser.dataSize section
  = bufLen pre + bufLen (encodeAll ts) ->
  (list_sum (map sections ts) < fuel)%nat ->
  CrateParser.parseSectionNodes_from fuel section (bufLen pre)
  = OK (map nodeOf ts).
Proof.
  induction n as [|n IH]; intros ts fuel section pre post Hn Hwf Hbuf Hend Hfuel.
  - destruct ts as [|t ts].
    + destruct fuel as [|fuel]; [cbn in Hfuel; lia|].
      cbn [CrateParser.parseSectionNodes_from]. rewrite Hend.
      cbn. rewrite Z.add_0_r, Z.ltb_irrefl. reflexivity.
    + cbn in Hn. pose proof (sections_pos t). lia.
  - destruct ts as [|t ts].
    + destruct fuel as [|fuel]; [cbn in Hfuel; lia|].
      cbn [CrateParser.parseSectionNodes_from]. rewrite Hend.
      cbn. rewrite Z.add_0_r, Z.ltb_irrefl. reflexivity.
    + destruct fuel as [|fuel]; [lia|].
      apply Forall_cons in Hwf as [Hwt Hwts].
      change (list_sum (map sections (t :: ts)))
        with (sections t + list_sum (map sections ts))%nat in Hn, Hfuel.
      pose proof (sections_pos t) as Hpos.
      rewrite encodeAll_cons in Hbuf, Hend. rewrite <- app_assoc in Hbuf.
      rewrite bufLen_app in Hend.
      pose proof (bufLen_nonneg (encodeAll ts)) as Hrest.
      cbn [CrateParser.parseSectionNodes_from map].
      (* the three kinds of section share the frame *)
      assert (Hstep : forall tag payload node,
        encode t = frame tag payload -> length tag = 4%nat ->
        bufLen payload < 2 ^ 32 ->
        (let sub := CrateParser.mkSection (map u8 tag) (bufLen pre)
                      (bufLen pre + 8) (bufLen payload)
                      (mkDataView (buffer (CrateParser.data section))
                         (bufLen pre + 8) (bufLen payload)) in
         (if CrateParser.isString16Tag (CrateParser.stype sub) then
            s <- CrateParser.parseString16 (CrateParser.data sub)
                   (CrateParser.dataSize sub) ;;
            OK (CrateParser.mkNode (CrateParser.stype sub)
                  (CrateParser.VString s) [])
          else if CrateParser.isInt8Tag (CrateParser.stype sub) then
            k <- CrateParser.parseInt8 (CrateParser.data sub)
                   (CrateParser.dataSize sub) ;;
            OK (CrateParser.mkNode (CrateParser.stype sub)
                  (CrateParser.VNumber k) [])
          else
            kids <- CrateParser.parseSectionNodes_from fuel sub
                      (CrateParser.dataOffset sub) ;;
            OK (CrateParser.mkNode (CrateParser.stype sub)
                  CrateParser.VNull kids)) = OK node) ->
        (if bufLen pre <? CrateParser.dataOffset section
                           + CrateParser.dataSize section
         then
           subSection <- CrateParser.parseSection
                           (buffer (CrateParser.data section)) (bufLen pre) ;;
           node0 <-
             (if CrateParser.isString16Tag (CrateParser.stype subSection) then
                s <- CrateParser.parseString16 (CrateParser.data subSection)
                       (CrateParser.dataSize subSection) ;;
                OK (CrateParser.mkNode (CrateParser.stype subSection)
                      (CrateParser.VString s) [])
              else if CrateParser.isInt8Tag (CrateParser.stype subSection) then
                k <- CrateParser.parseInt8 (CrateParser.data subSection)
                       (CrateParser.dataSize subSection) ;;
                OK (CrateParser.mkNode (CrateParser.stype subSection)
                      (CrateParser.VNumber k) [])
              else
                kids <- CrateParser.parseSectionNodes_from fuel subSection
                          (CrateParser.dataOffset subSection) ;;
                OK (CrateParser.mkNode (CrateParser.stype subSection)
                      CrateParser.VNull kids)) ;;
           nodes <- CrateParser.parseSectionNodes_from fuel section
                      (bufLen pre + (8 + CrateParser.dataSize subSection)) ;;
           OK (node0 :: nodes)
         else OK [])
        = OK (node :: map nodeOf ts)).
      { intros tag payload node Henc Htag Hsize Hnode.
        rewrite Henc in Hbuf, Hend. rewrite bufLen_frame in Hend by exact Htag.
        pose proof (bufLen_nonneg payload) as Hpay.
        replace (bufLen pre <? _) with true by (symmetry; apply Z.ltb_lt; lia).
        rewrite (parseSection_frame _ pre tag payload (encodeAll ts ++ post))
          by auto.
        cbn [bind]. cbv zeta in Hnode. rewrite Hnode. cbn [bind].
        cbn [CrateParser.dataSize].
        replace (bufLen pre + (8 + bufLen payload))
          with (bufLen (pre ++ frame tag payload))
          by (rewrite bufLen_app, bufLen_frame by exact Htag; lia).
        rewrite (IH ts fuel section (pre ++ frame tag payload) post);
          [reflexivity|lia|exact Hwts| |
           rewrite bufLen_app, bufLen_frame by exact Htag; lia|lia].
        rewrite Hbuf, <- app_assoc. reflexivity. }
      inversion Hwt as [tag s Htag Hstr Hs Hsize Ht
                       |tag payload Htag Hstr Hint Hsize Ht
                       |tag subs Htag Hstr Hint Hsubs Hsize Ht]; subst t.
      * apply (Hstep tag (utf16be s)); auto. cbv zeta.
        cbn [CrateParser.stype CrateParser.data CrateParser.dataSize].
        rewrite Hstr.
        rewrite parseString16_utf16be; [reflexivity| | |exact Hs].
        -- replace (bufLen pre + 8) with (bufLen (pre ++ tag ++ be32 (bufLen (utf16be s))))
             by (rewrite !bufLen_app; unfold bufLen at 2 3; rewrite Htag;
                 cbn [be32 length]; lia).
           apply (window_wf _ _ _ (encodeAll ts ++ post)).
           rewrite Hbuf. cbn [encode]. unfold frame.
           rewrite <- !app_assoc. reflexivity.
        -- replace (bufLen pre + 8) with (bufLen (pre ++ tag ++ be32 (bufLen (utf16be s))))
             by (rewrite !bufLen_app; unfold bufLen at 2 3; rewrite Htag;
                 cbn [be32 length]; lia).
           apply (viewBytes_window _ _ _ (encodeAll ts ++ post)).
           rewrite Hbuf. cbn [encode]. unfold frame.
           rewrite <- !app_assoc. reflexivity.
      * apply (Hstep tag payload); auto; [lia|]. cbv zeta.
        cbn [CrateParser.stype CrateParser.data CrateParser.dataSize].
        rewrite Hstr, Hint.
        set (v := mkDataView _ _ _).
        assert (Hv : wfView v /\ viewBytes v = payload).
        { unfold v.
          replace (bufLen pre + 8) with (bufLen (pre ++ tag ++ be32 (bufLen payload)))
            by (rewrite !bufLen_app; unfold bufLen at 2 3; rewrite Htag;
                cbn [be32 length]; lia).
          split.
          - apply (window_wf _ _ _ (encodeAll ts ++ post)).
            rewrite Hbuf. cbn [encode]. unfold frame.
            rewrite <- !app_assoc. reflexivity.
          - apply (viewBytes_window _ _ _ (encodeAll ts ++ post)).
            rewrite Hbuf. cbn [encode]. unfold frame.
            rewrite <- !app_assoc. reflexivity. }
        destruct Hv as [Hv1 Hv2].
        change (bufLen payload) with (byteLength v).
        rewrite parseInt8_upto4 by (auto; cbn; lia).
        rewrite Hv2. reflexivity.
      * apply (Hstep tag (flat_map encode subs)); auto. cbv zeta.
        cbn [CrateParser.stype CrateParser.data CrateParser.dataSize
             CrateParser.dataOffset].
        rewrite Hstr, Hint.
        replace (bufLen pre + 8)
          with (bufLen (pre ++ tag ++ be32 (bufLen (flat_map encode subs))))
          by (rewrite !bufLen_app; unfold bufLen at 2 3; rewrite Htag;
              cbn [be32 length]; lia).
        change (sections (Container tag subs))
          with (S (list_sum (map sections subs))) in Hn, Hfuel.
        rewrite (IH subs fuel _ _ (encodeAll ts ++ post));
          [reflexivity|lia|exact Hsubs| |reflexivity|lia].
        cbn [CrateParser.data buffer]. rewrite Hbuf. cbn [encode].
        unfold frame, encodeAll. rewrite <- !app_assoc. reflexivity.
Qed.

Lemma SectionTree_ind' (P : SectionTree -> Prop) :
  (forall tag s, P (StringLeaf tag s)) ->
  (forall tag payload, P (IntLeaf tag payload)) ->
  (forall tag subs, Forall P subs -> P (Container tag subs)) ->
  forall t, P t.
Proof.
  intros Hs Hi Hc. fix IH 1. intros [tag s|tag payload|tag subs].
  - apply Hs.
  - apply Hi.
  - apply Hc. induction subs as [|t subs IHsubs]; constructor.
    + apply IH.
    + exact IHsubs.
Qed.

(** Every section takes at least one byte, so a budget of one unit per byte
    covers a unit per section. *)
Lemma sections_le_encode (t : SectionTree) :
  (sections t <= length (encode t))%nat.
Proof.
  induction t as [tag s|tag payload|tag subs IH] using SectionTree_ind';
    cbn [sections encode]; unfold frame; rewrite !length_app;
    cbn [be32 length]; try lia.
  assert (list_sum (map sections subs) <= length (flat_map encode subs))%nat;
    [|lia].
  induction IH as [|t subs Ht _ IHsubs]; [cbn; lia|].
  change (list_sum (map sections (t :: subs)))
    with (sections t + list_sum (map sections subs))%nat.
  cbn [flat_map]. rewrite length_app. lia.
Qed.

Lemma sections_le_encodeAll (ts : list SectionTree) :
  (list_sum (map sections ts) <= length (encodeAll ts))%nat.
Proof.
  induction ts as [|t ts IH]; [cbn; lia|].
  change (list_sum (map sections (t :: ts)))
    with (sections t + list_sum (map sections ts))%nat.
  rewrite encodeAll_cons, length_app.
  pose proof (sections_le_encode t). lia.
Qed.

(** The whole buffer of a file made of well-formed sections decodes to their
    nodes. *)
Lemma parseSectionNodes_encodeAll (ts : list SectionTree) :
  Forall wfTree ts ->
  CrateParser.parseSectionNodes (S (length (encodeAll ts)))
    (CrateParser.rootSection (encodeAll ts))
  = OK (map nodeOf ts).
Proof.
  intros Hwf. unfold CrateParser.parseSectionNodes.
  cbn [CrateParser.rootSection CrateParser.dataOffset].
  change 0 with (bufLen []) at 1.
  apply (parseSectionNodes_from_encodeAll (list_sum (map sections ts)) ts _ _ [] []);
    auto.
  - cbn. now rewrite app_nil_r.
  - pose proof (sections_le_encodeAll ts). lia.
Qed.

Lemma nodeOf_type (t : SectionTree) : CrateParser.type (nodeOf t) = tagOf t.
Proof. destruct t; reflexivity. Qed.

Lemma omap_cons_eq {A B : Type} (f : A -> option B) (x : A) (l : list A) :
  omap f (x :: l)
  = match f x with Some y => y :: omap f l | None => omap f l end.
Proof. reflexivity. Qed.

(** The first ['ptrk'] child of a container, found among its nodes. *)
Lemma findNode_ptrk (subs : list SectionTree) (p : jsstring) :
  Forall wfTree subs -> head (omap ptrkOf subs) = Some p ->
  exists node, CrateParser.findNode (map nodeOf subs) (str "ptrk") = Some node
               /\ CrateParser.value node = CrateParser.VString p.
Proof.
  intros Hwf. induction Hwf as [|t subs Ht _ IH]; [discriminate|].
  unfold CrateParser.findNode. cbn [map find]. rewrite nodeOf_type.
  destruct (bool_decide (tagOf t = str "ptrk")) eqn:E.
  - apply bool_decide_eq_true in E. intros Hhead.
    inversion Ht as [tag s Htag Hstr Hs Hsize Heq
                    |tag payload Htag Hstr Hint Hsize Heq
                    |tag sub' Htag Hstr Hint Hsubs Hsize Heq]; subst t;
      cbn [tagOf] in E; try (rewrite E in *; discriminate).
    rewrite omap_cons_eq in Hhead. cbn [ptrkOf] in Hhead.
    rewrite bool_decide_eq_true_2 in Hhead by exact E.
    cbn [head] in Hhead. injection Hhead as ->.
    eexists. split; reflexivity.
  - apply bool_decide_eq_false in E. intros Hhead.
    assert (Hnone : ptrkOf t = None).
    { destruct t; cbn [ptrkOf tagOf] in *; try reflexivity.
      now rewrite bool_decide_eq_false_2. }
    rewrite omap_cons_eq, Hnone in Hhead.
    apply IH in Hhead. exact Hhead.
Qed.

(** The track loop of [parseCrate] on the nodes of well-formed sections. *)
Lemma collectTracks_nodeOf (items : list SectionTree) :
  Forall wfTree items ->
  Forall (fun e => is_Some (trackPath e)) (trackEntries items) ->
  exists tracks,
    CrateParser.collectTracks (map nodeOf items) = OK tracks
    /\ map (fun t => Some (CrateParser.path t)) tracks
       = map trackPath (trackEntries items).
Proof.
  intros Hwf. unfold trackEntries.
  induction Hwf as [|t items Ht _ IH]; intros Hpaths.
  - exists []. split; reflexivity.
  - cbn [map CrateParser.collectTracks]. rewrite nodeOf_type.
    destruct (decide (tagOf t = str "otrk")) as [E|E].
    + rewrite filter_cons_True in * by exact E.
      apply Forall_cons in Hpaths as [[p Hp] Hpaths].
      destruct (IH Hpaths) as (tracks & Htracks & Hmap).
      rewrite bool_decide_eq_true_2 by exact E.
      inversion Ht as [tag s Htag Hstr Hs Hsize Heq
                      |tag payload Htag Hstr Hint Hsize Heq
                      |tag subs Htag Hstr Hint Hsubs Hsize Heq]; subst t;
        cbn [tagOf] in E; rewrite E in *; try discriminate.
      cbn [trackPath] in Hp.
      destruct (findNode_ptrk subs p Hsubs Hp) as (node & Hfind & Hval).
      cbn [nodeOf CrateParser.children]. unfold CrateParser.findNodeOrThrow.
      rewrite Hfind. cbn [bind]. rewrite Htracks. cbn [bind].
      eexists. split; [reflexivity|].
      cbn [map CrateParser.path trackPath]. rewrite Hval, Hp, Hmap.
      reflexivity.
    + rewrite filter_cons_False in * by exact E.
      rewrite bool_decide_eq_false_2 by exact E. apply IH, Hpaths.
Qed.

Lemma versionSection_wf : wfTree versionSection.
Proof.
  constructor; [reflexivity|reflexivity| |vm_compute; reflexivity].
  unfold CrateParser.crateVersion. cbv [str list_byte_of_string map].
  repeat constructor; vm_compute; congruence.
Qed.

(** C2.  For every crate buffer made of the version section followed by
    well-formed sections, N of which are track entries (['otrk'] containers)
    that each hold a ['ptrk'] string, [parseCrate] returns a [Crate] with
    exactly N tracks, in source order, whose paths are the respective
    ['ptrk'] strings; sections with other tags contribute no track.  (The
    paths need not be distinct.) *)
Theorem parseCrate_tracks (fs : Util.FileSystem) (path : jsstring)
  (items : list SectionTree) :
  fs path = Some (encodeAll (versionSection :: items)) ->
  Forall wfTree items ->
  Forall (fun e => is_Some (trackPath e)) (trackEntries items) ->
  exists crate,
    CrateParser.parseCrate fs path = OK crate
    /\ length (CrateParser.tracks crate) = length (trackEntries items)
    /\ map (fun t => Some (CrateParser.path t)) (CrateParser.tracks crate)
       = map trackPath (trackEntries items)
    /\ CrateParser.version crate = CrateParser.crateVersion.
Proof.
  intros Hfs Hwf Hpaths.
  destruct (collectTracks_nodeOf items Hwf Hpaths) as (tracks & Htracks & Hmap).
  unfold CrateParser.parseCrate, Util.readFileToArrayBufferOrThrow.
  rewrite Hfs. cbn [bind].
  rewrite parseSectionNodes_encodeAll
    by (constructor; [apply versionSection_wf|exact Hwf]).
  cbn [bind map]. unfold CrateParser.expectNodeType.
  rewrite nodeOf_type.
  rewrite bool_decide_eq_true_2 by reflexivity. cbn [bind].
  rewrite bool_decide_eq_true_2 by reflexivity.
  rewrite Htracks. cbn [bind].
  eexists. split; [reflexivity|]. cbn [CrateParser.tracks CrateParser.version].
  split; [|split; [exact Hmap|reflexivity]].
  rewrite <- (length_map (fun t => Some (CrateParser.path t))), Hmap.
  apply length_map.
Qed.

Lemma parseCrate_tracks_witness :
  exists crate,
    CrateParser.parseCrate
      (fun _ => Some (encodeAll
         [versionSection;
          Container (list_byte_of_string "otrk")
            [StringLeaf (list_byte_of_string "ptrk") (str "a.mp3")];
          IntLeaf (list_byte_of_string "brev") [x01]]))
      (str "/s/Subcrates/A%%B.crate") = OK crate
    /\ length (CrateParser.tracks crate) = 1%nat.
Proof.
  destruct (parseCrate_tracks
    (fun _ => Some (encodeAll
         [versionSection;
          Container (list_byte_of_string "otrk")
            [StringLeaf (list_byte_of_string "ptrk") (str "a.mp3")];
          IntLeaf (list_byte_of_string "brev") [x01]]))
    (str "/s/Subcrates/A%%B.crate")
    [Container (list_byte_of_string "otrk")
       [StringLeaf (list_byte_of_string "ptrk") (str "a.mp3")];
     IntLeaf (list_byte_of_string "brev") [x01]] eq_refl)
    as (crate & Hcrate & Hlen & _).
  - repeat constructor; vm_compute; congruence.
  - vm_compute. repeat constructor. eexists. reflexivity.
  - exists crate. split; [exact Hcrate|exact Hlen].
Defined.

(** ** Crate names *)

(** [split] on a one-character separator, step by step. *)
Lemma split_go_char_cons (c x : Z) (cur s : jsstring) :
  split_go [c] O cur (x :: s)
  = if decide (x = c) then rev cur :: split_go [c] O [] s
    else split_go [c] O (x :: cur) s.
Proof.
  cbn [split_go length take]. destruct (decide (x = c)) as [->|Hne].
  - rewrite bool_decide_eq_true_2 by reflexivity. reflexivity.
  - rewrite bool_decide_eq_false_2 by congruence. reflexivity.
Qed.

Lemma split_go_char_absent (c : Z) (s : jsstring) :
  forall cur : jsstring, c ∉ s -> split_go [c] O cur s = [rev cur ++ s].
Proof.
  induction s as [|x s IH]; intros cur Hc.
  - cbn. now rewrite app_nil_r.
  - rewrite not_elem_of_cons in Hc. destruct Hc as [Hx Hs].
    rewrite split_go_char_cons, decide_False by congruence.
    rewrite IH by exact Hs. cbn [rev]. now rewrite <- app_assoc.
Qed.

Lemma split_go_char_first (c : Z) (a b : jsstring) :
  forall cur : jsstring, c ∉ a ->
  split_go [c] O cur (a ++ c :: b) = (rev cur ++ a) :: split_go [c] O [] b.
Proof.
  induction a as [|x a IH]; intros cur Hc.
  - cbn [app]. rewrite split_go_char_cons, decide_True by reflexivity.
    now rewrite app_nil_r.
  - rewrite not_elem_of_cons in Hc. destruct Hc as [Hx Ha].
    cbn [app]. rewrite split_go_char_cons, decide_False by congruence.
    rewrite IH by exact Ha. cbn [rev]. now rewrite <- app_assoc.
Qed.

Lemma split_go_nonempty (sep : jsstring) (s : jsstring) :
  forall (skip : nat) (cur : jsstring), split_go sep skip cur s <> [].
Proof.
  induction s as [|x s IH]; intros skip cur; cbn [split_go]; [discriminate|].
  destruct skip; [|apply IH]. destruct (bool_decide _); [discriminate|apply IH].
Qed.

Lemma split_go_char_last (c : Z) (s file : jsstring) :
  forall cur : jsstring, c ∉ file ->
  List.last (split_go [c] O cur (s ++ c :: file)) [] = file.
Proof.
  induction s as [|x s IH]; intros cur Hc.
  - rewrite (split_go_char_first c [] file cur) by apply not_elem_of_nil.
    rewrite split_go_char_absent by exact Hc. reflexivity.
  - cbn [app]. rewrite split_go_char_cons.
    destruct (decide (x = c)).
    + pose proof (split_go_nonempty [c] (s ++ c :: file) O []) as Hne.
      specialize (IH [] Hc).
      destruct (split_go [c] O [] (s ++ c :: file)); [congruence|exact IH].
    + apply IH, Hc.
Qed.

(** For a crate file whose name holds no ['.'] before the extension, the
    crate name is the filename without its extension split on ['%%']: the
    two differ only when the name itself holds a dot. *)
Lemma crate_name_without_dot (dir stem : jsstring) :
  47 ∉ stem -> 46 ∉ stem ->
  let path := dir ++ str "/" ++ stem ++ str ".crate" in
  CrateParser.filenameWithoutExtension path = stem
  /\ split (str "%%") (CrateParser.filenameWithoutExtension path)
     = split (str "%%") (stripExtension (basename path)).
Proof.
  intros Hslash Hdot. cbv zeta.
  assert (Hbase : basename (dir ++ str "/" ++ stem ++ str ".crate")
                  = stem ++ str ".crate").
  { unfold basename, split. change (str "/") with [47].
    cbn [app]. apply split_go_char_last.
    rewrite not_elem_of_app. split; [exact Hslash|].
    apply (bool_decide_unpack _). vm_compute. exact I. }
  assert (Hparts : split (str ".") (stem ++ str ".crate")
                   = [stem; str "crate"]).
  { unfold split. change (str ".") with [46].
    change (str ".crate") with (46 :: str "crate").
    rewrite split_go_char_first by exact Hdot.
    rewrite split_go_char_absent; [reflexivity|].
    apply (bool_decide_unpack _). vm_compute. exact I. }
  assert (Hcode : CrateParser.filenameWithoutExtension
                    (dir ++ str "/" ++ stem ++ str ".crate") = stem).
  { unfold CrateParser.filenameWithoutExtension. fold (basename
      (dir ++ str "/" ++ stem ++ str ".crate")).
    rewrite Hbase, Hparts. reflexivity. }
  split; [exact Hcode|]. rewrite Hcode, Hbase.
  unfold stripExtension. rewrite Hparts. reflexivity.
Qed.

(** C5 at the crate file [Dr. Dre%%Hits.crate]: the crate is named by the
    single segment [Dr], because the filename is cut at its first ['.'];
    the filename without its extension splits into [Dr. Dre] and [Hits]. *)
Theorem crate_name_cut_at_first_dot :
  let path := str "/Serato/Subcrates/Dr. Dre%%Hits.crate" in
  let fs : Util.FileSystem := fun _ => Some (encodeAll [versionSection]) in
  (exists crate, CrateParser.parseCrate fs path = OK crate
     /\ CrateParser.name crate = [str "Dr"])
  /\ split (str "%%") (stripExtension (basename path))
     = [str "Dr. Dre"; str "Hits"].
Proof.
  cbv zeta. split; [|vm_compute; reflexivity].
  eexists. split; vm_compute; reflexivity.
Qed.

(** ** Beat grid: [parseSeratoBeatGrid] *)

Section BeatGrid.

Import TrackMetaDataParser.

Variable view : DataView.
Variable numMarkers : Z.

(** What the loop produces from index [i] on: one marker per iteration, the
    marker of index [j] read from the record at [6 + 8 j], with a beat count
    when [j < numMarkers - 1] and a BPM otherwise. *)
Lemma beatGridMarkers_from_shape (n : nat) :
  forall (i : Z) (ms : list SeratoBeatGridMarker),
  beatGridMarkers_from n view numMarkers i = OK ms ->
  length ms = n
  /\ forall (j : nat) (m : SeratoBeatGridMarker), ms !! j = Some m ->
       getFloat32 view (6 + (i + Z.of_nat j) * 8) = OK (position m)
       /\ (i + Z.of_nat j < numMarkers - 1 ->
           bpm m = None
           /\ exists beats, getUint32 view (6 + (i + Z.of_nat j) * 8 + 4) = OK beats
                            /\ beatsTillNextMarker m = Some beats)
       /\ (numMarkers - 1 <= i + Z.of_nat j ->
           beatsTillNextMarker m = None
           /\ exists b, getFloat32 view (6 + (i + Z.of_nat j) * 8 + 4) = OK b
                        /\ bpm m = Some b).
Proof.
  induction n as [|n IH]; intros i ms H.
  - cbn in H. injection H as <-. split; [reflexivity|].
    intros j m Hj. rewrite lookup_nil in Hj. discriminate.
  - cbn [beatGridMarkers_from] in H.
    apply bind_OK in H as (pos & Hpos & H).
    apply bind_OK in H as (marker & Hmarker & H).
    apply bind_OK in H as (rest & Hrest & H).
    injection H as <-.
    destruct (IH _ _ Hrest) as [Hlen Hshape].
    split; [cbn; now rewrite Hlen|].
    intros [|j] m Hj.
    + cbn in Hj. injection Hj as ->.
      replace (i + Z.of_nat 0) with i by lia.
      destruct (i <? numMarkers - 1) eqn:E.
      * apply Z.ltb_lt in E.
        apply bind_OK in Hmarker as (beats & Hbeats & Hm).
        injection Hm as <-. cbn. split; [exact Hpos|]. split; [|lia].
        intros _. split; [reflexivity|]. eauto.
      * apply Z.ltb_ge in E.
        apply bind_OK in Hmarker as (b & Hb & Hm).
        injection Hm as <-. cbn. split; [exact Hpos|]. split; [lia|].
        intros _. split; [reflexivity|]. eauto.
    + cbn in Hj. specialize (Hshape j m Hj).
      replace (i + Z.of_nat (S j)) with (i + 1 + Z.of_nat j) by lia.
      exact Hshape.
Qed.

(** The loop returns when the view holds all the records. *)
Lemma beatGridMarkers_from_returns (n : nat) :
  forall (i : Z), wfView view -> 0 <= i ->
  6 + (i + Z.of_nat n) * 8 <= byteLength view ->
  exists ms, beatGridMarkers_from n view numMarkers i = OK ms.
Proof.
  induction n as [|n IH]; intros i Hwf Hi Hfit.
  - eexists. reflexivity.
  - cbn [beatGridMarkers_from]. unfold getFloat32, getUint32.
    rewrite !getBytes_inside by (auto; lia). cbn [bind].
    destruct (IH (i + 1) Hwf) as [ms Hms]; [lia|lia|].
    rewrite Hms. destruct (i <? numMarkers - 1); cbn [bind]; eauto.
Qed.

End BeatGrid.

(** The decoder returns a grid whenever the payload holds the count and the
    records it announces. *)
Lemma parseSeratoBeatGrid_returns (view : DataView) (numMarkers : Z) :
  wfView view -> getUint32 view 2 = OK numMarkers ->
  6 + numMarkers * 8 <= byteLength view ->
  exists grid, TrackMetaDataParser.parseSeratoBeatGrid view = OK grid.
Proof.
  intros Hwf Hn Hfit. unfold TrackMetaDataParser.parseSeratoBeatGrid.
  rewrite Hn. cbn [bind].
  assert (0 <= numMarkers).
  { unfold getUint32 in Hn. apply bind_OK in Hn as (bs & _ & Hbs).
    injection Hbs as <-. apply beZ_range. }
  destruct (beatGridMarkers_from_returns view numMarkers
              (Z.to_nat numMarkers) 0 Hwf) as [ms Hms]; [lia|lia|].
  rewrite Hms. cbn. eauto.
Qed.

(** C6, the claim as stated, at marker count 0: the payload decodes to the
    empty grid, in which no marker carries a BPM, so it is not true that
    exactly one marker does. *)
Lemma beatGrid_count_zero :
  let payload := wholeView [x01; x00; x00; x00; x00; x00] in
  getUint32 payload 2 = OK 0
  /\ TrackMetaDataParser.parseSeratoBeatGrid payload
     = OK (TrackMetaDataParser.mkBeatGridData [])
  /\ ~ (exists m, m ∈ @nil TrackMetaDataParser.SeratoBeatGridMarker
                  /\ is_Some (TrackMetaDataParser.bpm m)).
Proof.
  repeat split; try reflexivity.
  intros (m & Hm & _). inversion Hm.
Qed.

(** C6 (amended).  A payload that the beat-grid decoder decodes with marker
    count N yields exactly N markers; every marker before the last carries an
    integer beats-to-next value (the big-endian u32 of its record) and a null
    BPM; when N >= 1 the last marker, and only it, carries a BPM and a null
    beats-to-next value; no marker carries both.  For N = 0 the grid is
    empty and no marker carries a BPM. *)
Theorem beatGrid_markers (view : DataView)
  (grid : TrackMetaDataParser.SeratoBeatGridData) :
  TrackMetaDataParser.parseSeratoBeatGrid view = OK grid ->
  let ms := TrackMetaDataParser.markers grid in
  exists N : Z,
    getUint32 view 2 = OK N
    /\ Z.of_nat (length ms) = N
    /\ (forall (j : nat) m, ms !! j = Some m -> Z.of_nat j < N - 1 ->
          TrackMetaDataParser.bpm m = None
          /\ exists beats, getUint32 view (6 + Z.of_nat j * 8 + 4) = OK beats
               /\ TrackMetaDataParser.beatsTillNextMarker m = Some beats)
    /\ (forall (j : nat) m, ms !! j = Some m ->
          (is_Some (TrackMetaDataParser.bpm m) <-> Z.of_nat j = N - 1))
    /\ (1 <= N ->
        exists m, ms !! Z.to_nat (N - 1) = Some m
          /\ is_Some (TrackMetaDataParser.bpm m)
          /\ TrackMetaDataParser.beatsTillNextMarker m = None)
    /\ (forall m, m ∈ ms ->
          ~ (is_Some (TrackMetaDataParser.bpm m)
             /\ is_Some (TrackMetaDataParser.beatsTillNextMarker m))).
Proof.
  intros H ms. unfold TrackMetaDataParser.parseSeratoBeatGrid in H.
  apply bind_OK in H as (N & HN & H).
  apply bind_OK in H as (ms' & Hms & H).
  injection H as <-. cbn in ms. subst ms.
  assert (HN0 : 0 <= N).
  { unfold getUint32 in HN. apply bind_OK in HN as (bs & _ & Hbs).
    injection Hbs as <-. apply beZ_range. }
  destruct (beatGridMarkers_from_shape view N _ _ _ Hms) as [Hlen Hshape].
  exists N. split; [exact HN|]. split; [lia|].
  assert (Hidx : forall (j : nat) m, ms' !! j = Some m -> Z.of_nat j < N).
  { intros j m Hj. apply lookup_lt_Some in Hj. lia. }
  split; [|split; [|split]].
  - intros j m Hj Hlt. destruct (Hshape j m Hj) as (_ & Hbefore & _).
    rewrite Z.add_0_l in Hbefore. exact (Hbefore Hlt).
  - intros j m Hj. destruct (Hshape j m Hj) as (_ & Hbefore & Hlast).
    rewrite Z.add_0_l in Hbefore, Hlast. specialize (Hidx j m Hj). split.
    + intros [b Hb]. destruct (Z.lt_ge_cases (Z.of_nat j) (N - 1)) as [Hlt|Hge];
        [|lia].
      destruct (Hbefore Hlt) as [Hnone _]. congruence.
    + intros Heq. destruct Hlast as (_ & b & _ & Hb); [lia|]. eauto.
  - intros HN1.
    destruct (lookup_lt_is_Some_2 ms' (Z.to_nat (N - 1))) as [m Hm]; [lia|].
    exists m. split; [exact Hm|].
    destruct (Hshape _ m Hm) as (_ & _ & Hlast).
    destruct Hlast as (Hnone & b & _ & Hb); [lia|]. split; eauto.
  - intros m Hm [[b Hb] [beats Hbeats]].
    apply list_elem_of_lookup in Hm as [j Hj].
    destruct (Hshape j m Hj) as (_ & Hbefore & Hlast).
    destruct (Z.lt_ge_cases (0 + Z.of_nat j) (N - 1)) as [Hlt|Hge].
    + destruct (Hbefore Hlt) as [Hnone _]. congruence.
    + destruct (Hlast Hge) as [Hnone _]. congruence.
Qed.

Lemma beatGrid_markers_witness :
  exists N : Z,
    N = 3
    /\ TrackMetaDataParser.parseSeratoBeatGrid (wholeView
         [x01; x00; x00; x00; x00; x03;
          x00; x00; x00; x00; x00; x00; x00; x04;
          x41; x00; x00; x00; x00; x00; x00; x08;
          x41; x80; x00; x00; x42; xf0; x00; x00; x00])
       = OK (TrackMetaDataParser.mkBeatGridData
          [TrackMetaDataParser.mkBeatGridMarker (Float32 0) None (Some 4);
           TrackMetaDataParser.mkBeatGridMarker (Float32 1090519040) None (Some 8);
           TrackMetaDataParser.mkBeatGridMarker (Float32 1098907648)
             (Some (Float32 1123024896)) None])
    /\ getUint32 (wholeView
         [x01; x00; x00; x00; x00; x03;
          x00; x00; x00; x00; x00; x00; x00; x04;
          x41; x00; x00; x00; x00; x00; x00; x08;
          x41; x80; x00; x00; x42; xf0; x00; x00; x00]) 2 = OK N.
Proof.
  assert (Hrun : TrackMetaDataParser.parseSeratoBeatGrid (wholeView
         [x01; x00; x00; x00; x00; x03;
          x00; x00; x00; x00; x00; x00; x00; x04;
          x41; x00; x00; x00; x00; x00; x00; x08;
          x41; x80; x00; x00; x42; xf0; x00; x00; x00])
       = OK (TrackMetaDataParser.mkBeatGridData
          [TrackMetaDataParser.mkBeatGridMarker (Float32 0) None (Some 4);
           TrackMetaDataParser.mkBeatGridMarker (Float32 1090519040) None (Some 8);
           TrackMetaDataParser.mkBeatGridMarker (Float32 1098907648)
             (Some (Float32 1123024896)) None])) by reflexivity.
  destruct (beatGrid_markers _ _ Hrun) as (N & HN & Hlen & _).
  exists N. split; [cbn in Hlen; lia|]. split; [exact Hrun|exact HN].
Defined.

(** ** DataView reads as functions of the bytes shown *)

Lemma getBytes_bytes (v : DataView) (i n : Z) :
  wfView v -> 0 <= i -> 0 <= n ->
  getBytes v i n
  = if i + n <=? bufLen (viewBytes v)
    then OK (take (Z.to_nat n) (drop (Z.to_nat i) (viewBytes v)))
    else Throws RangeError.
Proof.
  intros Hwf Hi Hn. rewrite (viewBytes_length v Hwf).
  destruct (i + n <=? byteLength v) eqn:E.
  - apply Z.leb_le in E. now apply getBytes_inside.
  - apply Z.leb_gt in E. apply getBytes_outside. lia.
Qed.

Lemma getUint8_bytes (v : DataView) (i : Z) :
  wfView v -> 0 <= i ->
  getUint8 v i
  = match viewBytes v !! Z.to_nat i with
    | Some b => OK (u8 b)
    | None => Throws RangeError
    end.
Proof.
  intros Hwf Hi. unfold getUint8. rewrite getBytes_bytes by (auto; lia).
  unfold bufLen.
  destruct (viewBytes v !! Z.to_nat i) as [b|] eqn:E.
  - pose proof (lookup_lt_Some _ _ _ E).
    replace (i + 1 <=? _) with true by (symmetry; apply Z.leb_le; lia).
    change (Z.to_nat 1) with 1%nat.
    rewrite (take_S_r _ 0 b) by (rewrite lookup_drop, Nat.add_0_r; exact E).
    reflexivity.
  - apply lookup_ge_None in E.
    replace (i + 1 <=? _) with false by (symmetry; apply Z.leb_gt; lia).
    reflexivity.
Qed.

Lemma getUint8_byteAt (v : DataView) (i z : Z) :
  wfView v -> 0 <= i -> getUint8 v i = OK z ->
  z = byteAt (viewBytes v) (Z.to_nat i).
Proof.
  intros Hwf Hi. rewrite getUint8_bytes by auto. unfold byteAt.
  destruct (viewBytes v !! Z.to_nat i) as [b|] eqn:E; [|discriminate].
  intros [= <-]. now rewrite (nth_lookup_Some _ _ _ _ E).
Qed.

Lemma getUint32_bytes (v : DataView) (i : Z) :
  wfView v -> 0 <= i ->
  getUint32 v i
  = if i + 4 <=? bufLen (viewBytes v)
    then OK (beZ (take 4 (drop (Z.to_nat i) (viewBytes v))))
    else Throws RangeError.
Proof.
  intros Hwf Hi. unfold getUint32. rewrite getBytes_bytes by (auto; lia).
  destruct (_ <=? _); reflexivity.
Qed.

Lemma u8_zero (b : byte) : u8 b = 0 -> b = x00.
Proof.
  unfold u8. intros H.
  assert (E : Byte.to_N b = 0%N) by lia.
  pose proof (Byte.of_to_N b) as Hb. rewrite E in Hb.
  cbn in Hb. congruence.
Qed.

Lemma cstring_length (bs : list byte) : (length (cstring bs) <= length bs)%nat.
Proof.
  induction bs as [|b bs IH]; cbn [cstring]; [lia|].
  destruct (bool_decide _); cbn [length]; lia.
Qed.

Lemma take_cstring (bs : list byte) : take (length (cstring bs)) bs = cstring bs.
Proof.
  induction bs as [|b bs IH]; cbn [cstring]; [reflexivity|].
  destruct (bool_decide _); cbn [length take]; [reflexivity|].
  now rewrite IH.
Qed.

(** The scan for the terminator, from the bytes shown: it stops at the first
    NUL, and raises [RangeError] when there is none before the end of the
    view. *)
Lemma nullTerminatedLength_bytes (v : DataView) (off : Z) (sfx : list byte) :
  forall (done : list byte) (n : nat),
  wfView v -> 0 <= off ->
  drop (Z.to_nat off) (viewBytes v) = done ++ sfx ->
  (length sfx <= n)%nat ->
  TrackMetaDataParser.nullTerminatedLength n v off (bufLen done)
  = if bool_decide (x00 ∈ sfx)
    then OK (bufLen done + bufLen (cstring sfx))
    else Throws RangeError.
Proof.
  induction sfx as [|b sfx IH]; intros done n Hwf Hoff Hdrop Hn.
  - assert (Hnone : viewBytes v !! Z.to_nat (off + bufLen done) = None).
    { unfold bufLen. rewrite Z2Nat.inj_add, Nat2Z.id by lia.
      rewrite <- lookup_drop, Hdrop, app_nil_r.
      apply lookup_ge_None. lia. }
    destruct n; cbn [TrackMetaDataParser.nullTerminatedLength];
      rewrite getUint8_bytes by (auto; unfold bufLen; lia);
      rewrite Hnone; reflexivity.
  - assert (Hsome : viewBytes v !! Z.to_nat (off + bufLen done) = Some b).
    { unfold bufLen. rewrite Z2Nat.inj_add, Nat2Z.id by lia.
      rewrite <- lookup_drop, Hdrop. apply list_lookup_middle. reflexivity. }
    assert (Hget : getUint8 v (off + bufLen done) = OK (u8 b))
      by (rewrite getUint8_bytes by (auto; unfold bufLen; lia);
          now rewrite Hsome).
    destruct (decide (b = x00)) as [->|Hb].
    + rewrite bool_decide_eq_true_2 by (apply list_elem_of_here).
      cbn [cstring]. rewrite bool_decide_eq_true_2 by reflexivity.
      destruct n; cbn [TrackMetaDataParser.nullTerminatedLength];
        rewrite Hget; cbn; f_equal; unfold bufLen; cbn; lia.
    + destruct n as [|n]; [cbn in Hn; lia|].
      cbn [TrackMetaDataParser.nullTerminatedLength]. rewrite Hget.
      cbn [bind].
      assert (Hnz : (u8 b =? 0) = false)
        by (apply Z.eqb_neq; intros E; apply Hb, u8_zero, E).
      assert (Hin : (off + bufLen done <? byteLength v) = true).
      { apply Z.ltb_lt. apply lookup_lt_Some in Hsome.
        pose proof (viewBytes_length v Hwf) as Hl. unfold bufLen in *. lia. }
      rewrite Hnz, Hin. cbn [negb andb].
      replace (bufLen done + 1) with (bufLen (done ++ [b]))
        by (rewrite bufLen_app; reflexivity).
      rewrite (IH (done ++ [b]) n Hwf Hoff);
        [|rewrite Hdrop, <- app_assoc; reflexivity|cbn in Hn; lia].
      cbn [cstring]. rewrite (bool_decide_eq_false_2 (b = x00)) by exact Hb.
      assert (Hiff : x00 ∈ b :: sfx <-> x00 ∈ sfx).
      { rewrite elem_of_cons. split; [intros [E|E]; [congruence|exact E]|auto]. }
      rewrite (bool_decide_ext _ _ Hiff).
      destruct (bool_decide (x00 ∈ sfx)); [|reflexivity].
      f_equal. rewrite bufLen_app. unfold bufLen. cbn [length]. lia.
Qed.

(** [readNullTerminatedString] from the bytes shown. *)
Lemma readNullTerminatedBytes_bytes (v : DataView) (off : Z) :
  wfView v -> 0 <= off ->
  TrackMetaDataParser.readNullTerminatedBytes v off
  = if bool_decide (x00 ∈ drop (Z.to_nat off) (viewBytes v))
    then OK (cstring (drop (Z.to_nat off) (viewBytes v)))
    else Throws RangeError.
Proof.
  intros Hwf Hoff. unfold TrackMetaDataParser.readNullTerminatedBytes.
  pose proof (viewBytes_length v Hwf) as Hlen.
  change 0 with (bufLen []) at 1.
  rewrite (nullTerminatedLength_bytes v off (drop (Z.to_nat off) (viewBytes v)) [])
    by (auto; rewrite length_drop; unfold bufLen in Hlen; lia).
  destruct (bool_decide _); [|reflexivity]. cbn [bind]. f_equal.
  set (sfx := drop (Z.to_nat off) (viewBytes v)).
  pose proof (cstring_length sfx) as Hc.
  destruct Hwf as (H1 & H2 & H3).
  unfold TrackMetaDataParser.slice, bufLen. cbn [length].
  replace (Z.to_nat (byteOffset v + off
                     + (Z.of_nat 0 + Z.of_nat (length (cstring sfx))))
           - Z.to_nat (byteOffset v + off))%nat
    with (length (cstring sfx)) by lia.
  rewrite <- (take_cstring sfx) at 2.
  unfold sfx at 3, viewBytes.
  rewrite skipn_firstn_comm, take_take, drop_drop.
  rewrite Z2Nat.inj_add by lia. f_equal.
  subst sfx. rewrite length_drop in Hc.
  unfold bufLen in Hlen. lia.
Qed.

(** ASCII text is decoded to the same code units. *)
Lemma utf8Decode_ascii (bs : list byte) :
  Forall (fun b => 0 < u8 b < 128) bs ->
  TrackMetaDataParser.utf8Decode None bs = map u8 bs.
Proof.
  induction 1 as [|b bs Hb _ IH]; [reflexivity|].
  cbn [TrackMetaDataParser.utf8Decode map].
  unfold TrackMetaDataParser.utf8Lead.
  replace (u8 b <=? 127) with true by (symmetry; apply Z.leb_le; lia).
  cbn [fst snd app]. now rewrite IH.
Qed.

Lemma textDecode_ascii (bs : list byte) :
  Forall (fun b => 0 < u8 b < 128) bs ->
  TrackMetaDataParser.textDecode bs = map u8 bs.
Proof.
  intros Hbs. unfold TrackMetaDataParser.textDecode.
  assert (Hbom : TrackMetaDataParser.stripBOM bs = bs).
  { destruct bs as [|b bs]; [reflexivity|].
    apply Forall_cons in Hbs as [Hb _].
    destruct b; try reflexivity. vm_compute in Hb. destruct Hb; discriminate. }
  rewrite Hbom, utf8Decode_ascii by exact Hbs.
  clear Hbom. induction Hbs as [|b bs Hb _ IH]; [reflexivity|].
  cbn [map concat]. rewrite IH. unfold TrackMetaDataParser.codeUnits.
  replace (u8 b <? 65536) with true by (symmetry; apply Z.ltb_lt; lia).
  reflexivity.
Qed.

(** ** Markers2: [parseSeratorMarkers2] *)

Lemma readNullTerminatedString_bytes (v : DataView) (off : Z) :
  wfView v -> 0 <= off ->
  TrackMetaDataParser.readNullTerminatedString v off
  = if bool_decide (x00 ∈ drop (Z.to_nat off) (viewBytes v))
    then OK (TrackMetaDataParser.textDecode
               (cstring (drop (Z.to_nat off) (viewBytes v))))
    else Throws RangeError.
Proof.
  intros Hwf Hoff. unfold TrackMetaDataParser.readNullTerminatedString.
  rewrite readNullTerminatedBytes_bytes by auto.
  destruct (bool_decide _); reflexivity.
Qed.

(** The dispatch on an element depends on its name and on the bytes its view
    shows, not on where the view lies in the payload. *)
Lemma applyElement_bytes (r : TrackMetaDataParser.SeratorMarker2Data)
  (name : jsstring) (v : DataView) :
  wfView v ->
  TrackMetaDataParser.applyElement r (TrackMetaDataParser.mkElement name v)
  = TrackMetaDataParser.applyElement r
      (TrackMetaDataParser.mkElement name (wholeView (viewBytes v))).
Proof.
  intros Hwf. pose proof (wholeView_wf (viewBytes v)) as Hwf'.
  unfold TrackMetaDataParser.applyElement.
  cbn [TrackMetaDataParser.elName TrackMetaDataParser.elData].
  rewrite !(getUint8_bytes v), !(getUint32_bytes v),
    !(readNullTerminatedString_bytes v) by (auto; lia).
  rewrite !(getUint8_bytes (wholeView _)), !(getUint32_bytes (wholeView _)),
    !(readNullTerminatedString_bytes (wholeView _)) by (auto; lia).
  rewrite !wholeView_bytes. reflexivity.
Qed.

Lemma ascii_nonzero (name : list byte) :
  Forall (fun b => 0 < u8 b < 128) name -> x00 ∉ name.
Proof.
  intros H Hin. rewrite Forall_forall in H. apply H in Hin.
  vm_compute in Hin. destruct Hin as [Hin _]. discriminate.
Qed.

Lemma cstring_terminated (name rest : list byte) :
  x00 ∉ name -> cstring (name ++ x00 :: rest) = name.
Proof.
  induction name as [|b name IH]; intros Hnz; cbn [app cstring].
  - now rewrite bool_decide_eq_true_2.
  - rewrite not_elem_of_cons in Hnz. destruct Hnz as [Hb Hnz].
    rewrite bool_decide_eq_false_2 by congruence. now rewrite IH.
Qed.

Lemma bufLen_encodeElement (e : RawElement) :
  bufLen (encodeElement e) = bufLen (rawName e) + 5 + bufLen (rawData e).
Proof.
  unfold encodeElement. rewrite !bufLen_app. unfold bufLen.
  cbn [be32 length]. lia.
Qed.

Lemma encodeElements_cons (e : RawElement) (es : list RawElement) :
  encodeElements (e :: es) = encodeElement e ++ encodeElements es.
Proof. reflexivity. Qed.

(** The framing loop on a payload laid out as elements after [pre]: it
    returns one view per element, and stops at the end of the payload or at
    an empty name. *)
Lemma readElements_framed (es : list RawElement) :
  forall (n : nat) (pre tail payload : list byte),
  payload = pre ++ encodeElements es ++ tail ->
  Forall wfElement es ->
  tail = [] \/ (exists t, tail = x00 :: t) ->
  (length es <= n)%nat ->
  TrackMetaDataParser.readElements n (wholeView payload) (bufLen pre)
  = OK (framed payload (bufLen pre) es).
Proof.
  induction es as [|e es IH]; intros n pre tail payload Hpay Hwf Htail Hn.
  - cbn [encodeElements flat_map app] in Hpay. cbn [framed].
    assert (Hend : TrackMetaDataParser.readElements n (wholeView payload)
                     (bufLen pre) = OK []).
    { destruct Htail as [->|[t ->]].
      - rewrite app_nil_r in Hpay. subst payload.
        destruct n; cbn [TrackMetaDataParser.readElements wholeView byteLength];
          rewrite Z.ltb_irrefl; reflexivity.
      - assert (Hstr : TrackMetaDataParser.readNullTerminatedString
                         (wholeView payload) (bufLen pre) = OK []).
        { rewrite readNullTerminatedString_bytes
            by (auto using wholeView_wf, bufLen_nonneg).
          rewrite wholeView_bytes.
          assert (Hdrop : drop (Z.to_nat (bufLen pre)) payload = x00 :: t)
            by (unfold bufLen; rewrite Nat2Z.id, Hpay;
                apply drop_app_length).
          rewrite Hdrop.
          rewrite bool_decide_eq_true_2 by apply list_elem_of_here.
          cbn [cstring]. rewrite bool_decide_eq_true_2 by reflexivity.
          reflexivity. }
        destruct n; cbn [TrackMetaDataParser.readElements];
          rewrite Hstr; cbn [bind];
          rewrite bool_decide_eq_true_2 by reflexivity;
          destruct (_ <? _); reflexivity. }
    exact Hend.
  - apply Forall_cons in Hwf as [(Hne & Hascii & Hsize) Hwf].
    destruct n as [|n]; [cbn in Hn; lia|].
    rewrite encodeElements_cons in Hpay. rewrite <- app_assoc in Hpay.
    pose proof (bufLen_nonneg pre) as Hpre.
    pose proof (bufLen_nonneg (rawName e)) as Hname.
    pose proof (bufLen_nonneg (rawData e)) as Hdata.
    assert (Hlen : bufLen payload
                   = bufLen pre + (bufLen (rawName e) + 5 + bufLen (rawData e))
                     + bufLen (encodeElements es ++ tail)).
    { rewrite Hpay, !bufLen_app, bufLen_encodeElement. lia. }
    pose proof (bufLen_nonneg (encodeElements es ++ tail)) as Hrest.
    cbn [TrackMetaDataParser.readElements framed wholeView byteLength].
    replace (bufLen pre <? bufLen payload) with true
      by (symmetry; apply Z.ltb_lt; lia).
    fold (wholeView payload).
    assert (Hstr : TrackMetaDataParser.readNullTerminatedString
                     (wholeView payload) (bufLen pre) = OK (elementName e)).
    { rewrite readNullTerminatedString_bytes
        by (auto using wholeView_wf).
      rewrite wholeView_bytes.
      assert (Hdrop : drop (Z.to_nat (bufLen pre)) payload
                = rawName e ++ x00 :: be32 (bufLen (rawData e))
                    ++ rawData e ++ encodeElements es ++ tail).
      { unfold bufLen. rewrite Nat2Z.id, Hpay, drop_app_length.
        unfold encodeElement. rewrite <- !app_assoc. reflexivity. }
      rewrite Hdrop.
      rewrite bool_decide_eq_true_2
        by (apply elem_of_app; right; apply list_elem_of_here).
      rewrite cstring_terminated by (now apply ascii_nonzero).
      rewrite textDecode_ascii by exact Hascii. reflexivity. }
    rewrite Hstr. cbn [bind].
    rewrite bool_decide_eq_false_2
      by (unfold elementName; destruct (rawName e); [congruence|discriminate]).
    assert (HnameLen : Z.of_nat (length (elementName e)) = bufLen (rawName e))
      by (unfold elementName, bufLen; now rewrite length_map).
    rewrite HnameLen.
    rewrite getUint32_bytes by (auto using wholeView_wf; lia).
    rewrite wholeView_bytes.
    replace (bufLen pre + bufLen (rawName e) + 1 + 4 <=? bufLen payload)
      with true by (symmetry; apply Z.leb_le; lia).
    replace (take 4 (drop (Z.to_nat (bufLen pre + bufLen (rawName e) + 1)) payload))
      with (be32 (bufLen (rawData e))).
    2:{ replace (Z.to_nat (bufLen pre + bufLen (rawName e) + 1))
          with (length (pre ++ rawName e ++ [x00]))
          by (rewrite !length_app; unfold bufLen; cbn [length]; lia).
        rewrite Hpay. unfold encodeElement.
        replace (pre ++ (rawName e ++ [x00] ++ be32 (bufLen (rawData e))
                          ++ rawData e) ++ encodeElements es ++ tail)
          with ((pre ++ rawName e ++ [x00])
                ++ be32 (bufLen (rawData e))
                ++ rawData e ++ encodeElements es ++ tail)
          by (rewrite <- !app_assoc; reflexivity).
        rewrite drop_app_length. reflexivity. }
    cbn [bind]. rewrite beZ_be32 by lia.
    unfold newDataView. cbn [buffer wholeView].
    replace ((bufLen pre + bufLen (rawName e) + 5 <? 0)
             || (bufLen payload <? bufLen pre + bufLen (rawName e) + 5))
      with false by (symmetry; apply orb_false_iff; split; apply Z.ltb_ge; lia).
    replace ((bufLen (rawData e) <? 0)
             || (bufLen payload
                 <? bufLen pre + bufLen (rawName e) + 5 + bufLen (rawData e)))
      with false by (symmetry; apply orb_false_iff; split; apply Z.ltb_ge; lia).
    cbn [bind]. fold (wholeView payload).
    replace (bufLen pre + (bufLen (rawName e) + 5 + bufLen (rawData e)))
      with (bufLen (pre ++ encodeElement e))
      by (rewrite bufLen_app, bufLen_encodeElement; lia).
    rewrite (IH n (pre ++ encodeElement e) tail payload);
      [reflexivity|rewrite Hpay, <- app_assoc; reflexivity|exact Hwf
      |exact Htail|cbn in Hn; lia].
Qed.

(** The views of the framing loop show the data of the elements, so the
    dispatch runs as on elements held on buffers of their own. *)
Lemma applyElements_framed (es : list RawElement) :
  forall (r : TrackMetaDataParser.SeratorMarker2Data)
         (pre tail payload : list byte),
  payload = pre ++ encodeElements es ++ tail ->
  TrackMetaDataParser.applyElements r (framed payload (bufLen pre) es)
  = TrackMetaDataParser.applyElements r (map elementOf es).
Proof.
  induction es as [|e es IH]; intros r pre tail payload Hpay; [reflexivity|].
  rewrite encodeElements_cons in Hpay. rewrite <- app_assoc in Hpay.
  cbn [framed map TrackMetaDataParser.applyElements].
  assert (Hwin : payload
                 = (pre ++ rawName e ++ [x00] ++ be32 (bufLen (rawData e)))
                   ++ rawData e ++ encodeElements es ++ tail).
  { rewrite Hpay. unfold encodeElement. rewrite <- !app_assoc. reflexivity. }
  assert (Hoff : bufLen pre + bufLen (rawName e) + 5
                 = bufLen (pre ++ rawName e ++ [x00] ++ be32 (bufLen (rawData e)))).
  { rewrite !bufLen_app. unfold bufLen. cbn [be32 length]. lia. }
  rewrite Hoff.
  rewrite applyElement_bytes by (eapply window_wf; exact Hwin).
  rewrite (viewBytes_window _ _ _ _ Hwin).
  fold (elementOf e).
  destruct (TrackMetaDataParser.applyElement r (elementOf e)) as [r'| |];
    cbn [bind]; try reflexivity.
  replace (bufLen pre + (bufLen (rawName e) + 5 + bufLen (rawData e)))
    with (bufLen (pre ++ encodeElement e))
    by (rewrite bufLen_app, bufLen_encodeElement; lia).
  apply (IH r' _ tail). rewrite Hpay, <- app_assoc. reflexivity.
Qed.

Lemma length_encodeElements (es : list RawElement) :
  (length es <= length (encodeElements es))%nat.
Proof.
  induction es as [|e es IH]; [cbn; lia|].
  rewrite encodeElements_cons, length_app. unfold encodeElement.
  rewrite !length_app. cbn [length]. lia.
Qed.

(** The decoder on a payload laid out as elements: the dispatch over the
    elements in order. *)
Lemma parseMarkers2Payload_elements (es : list RawElement) (tail : list byte) :
  Forall wfElement es ->
  tail = [] \/ (exists t, tail = x00 :: t) ->
  TrackMetaDataParser.parseMarkers2Payload (markers2Payload es tail)
  = TrackMetaDataParser.applyElements TrackMetaDataParser.emptyMarker2Data
      (map elementOf es).
Proof.
  intros Hwf Htail. unfold TrackMetaDataParser.parseMarkers2Payload.
  unfold markers2Payload at 1 2. cbn [app lookup list_lookup].
  rewrite !bool_decide_eq_true_2 by reflexivity. cbn [andb].
  change 2 with (bufLen [x01; x01]).
  rewrite (readElements_framed es _ [x01; x01] tail); auto.
  - cbn [bind]. apply (applyElements_framed es _ [x01; x01] tail). reflexivity.
  - unfold markers2Payload. rewrite !length_app.
    pose proof (length_encodeElements es). lia.
Qed.

(** An element whose name is not recognized leaves the result as it is. *)
Lemma applyElement_unknown (r : TrackMetaDataParser.SeratorMarker2Data)
  (e : RawElement) :
  ~ knownElement e -> TrackMetaDataParser.applyElement r (elementOf e) = OK r.
Proof.
  unfold knownElement. rewrite !not_elem_of_cons. intros (H1 & H2 & H3 & H4 & _).
  unfold TrackMetaDataParser.applyElement, elementOf.
  cbn [TrackMetaDataParser.elName].
  now rewrite !bool_decide_eq_false_2 by assumption.
Qed.

Lemma applyElements_known (es : list RawElement) :
  forall r : TrackMetaDataParser.SeratorMarker2Data,
  TrackMetaDataParser.applyElements r (map elementOf es)
  = TrackMetaDataParser.applyElements r (map elementOf (filter knownElement es)).
Proof.
  induction es as [|e es IH]; intros r; [reflexivity|].
  destruct (decide (knownElement e)) as [Hk|Hk].
  - rewrite filter_cons_True by exact Hk.
    cbn [map TrackMetaDataParser.applyElements].
    destruct (TrackMetaDataParser.applyElement r (elementOf e)); cbn [bind];
      auto.
  - rewrite filter_cons_False by exact Hk.
    cbn [map TrackMetaDataParser.applyElements].
    rewrite applyElement_unknown by exact Hk. cbn [bind]. apply IH.
Qed.

(** What one element does to the colour and to the cue points. *)
Lemma applyElement_values (r r' : TrackMetaDataParser.SeratorMarker2Data)
  (e : RawElement) :
  TrackMetaDataParser.applyElement r (elementOf e) = OK r' ->
  TrackMetaDataParser.m2color r'
  = (if decide (elementName e = str "COLOR")
     then Some (colorOf (rawData e)) else TrackMetaDataParser.m2color r)
  /\ TrackMetaDataParser.m2cuePoints r'
     = TrackMetaDataParser.m2cuePoints r
       ++ (if decide (elementName e = str "CUE")
           then [cueOf (rawData e)] else []).
Proof.
  pose proof (wholeView_wf (rawData e)) as Hwf.
  unfold TrackMetaDataParser.applyElement, elementOf.
  cbn [TrackMetaDataParser.elName TrackMetaDataParser.elData].
  destruct (decide (elementName e = str "COLOR")) as [E1|E1].
  { rewrite bool_decide_eq_true_2 by exact E1. intros H.
    apply bind_OK in H as (a & Ha & H). apply bind_OK in H as (cr & Hr & H).
    apply bind_OK in H as (g & Hg & H). apply bind_OK in H as (b & Hb & H).
    injection H as <-. cbn.
    apply getUint8_byteAt in Ha, Hr, Hg, Hb; auto; try lia.
    rewrite wholeView_bytes in *. subst.
    rewrite E1. cbn. rewrite app_nil_r. split; reflexivity. }
  rewrite bool_decide_eq_false_2 by exact E1.
  destruct (decide (elementName e = str "CUE")) as [E2|E2].
  { rewrite bool_decide_eq_true_2 by exact E2. intros H.
    apply bind_OK in H as (idx & Hidx & H). apply bind_OK in H as (pos & Hpos & H).
    apply bind_OK in H as (cr & Hr & H). apply bind_OK in H as (g & Hg & H).
    apply bind_OK in H as (b & Hb & H). apply bind_OK in H as (nm & Hnm & H).
    injection H as <-. cbn.
    apply getUint8_byteAt in Hidx, Hr, Hg, Hb; auto; try lia.
    rewrite getUint32_bytes in Hpos by (auto; lia).
    destruct (_ <=? _) in Hpos; [|discriminate]. injection Hpos as <-.
    rewrite readNullTerminatedString_bytes in Hnm by (auto; lia).
    destruct (bool_decide _) in Hnm; [|discriminate]. injection Hnm as <-.
    rewrite wholeView_bytes in *. subst.
    split; reflexivity. }
  rewrite bool_decide_eq_false_2 by exact E2.
  destruct (bool_decide (elementName e = str "LOOP")).
  { intros H. repeat (apply bind_OK in H as (? & _ & H)).
    injection H as <-. cbn. rewrite app_nil_r. split; reflexivity. }
  destruct (bool_decide (elementName e = str "BPMLOCK")).
  { intros H. repeat (apply bind_OK in H as (? & _ & H)).
    injection H as <-. cbn. rewrite app_nil_r. split; reflexivity. }
  intros [= <-]. rewrite app_nil_r. split; reflexivity.
Qed.

Lemma applyElements_values (es : list RawElement) :
  forall r res : TrackMetaDataParser.SeratorMarker2Data,
  TrackMetaDataParser.applyElements r (map elementOf es) = OK res ->
  TrackMetaDataParser.m2color res
  = match last (filter (fun e => elementName e = str "COLOR") es) with
    | Some e => Some (colorOf (rawData e))
    | None => TrackMetaDataParser.m2color r
    end
  /\ TrackMetaDataParser.m2cuePoints res
     = TrackMetaDataParser.m2cuePoints r
       ++ map (fun e => cueOf (rawData e))
            (filter (fun e => elementName e = str "CUE") es).
Proof.
  induction es as [|e es IH]; intros r res H.
  - injection H as <-. cbn. rewrite app_nil_r. split; reflexivity.
  - cbn [map TrackMetaDataParser.applyElements] in H.
    apply bind_OK in H as (r' & Hr' & H).
    destruct (applyElement_values _ _ _ Hr') as [Hc Hq].
    destruct (IH _ _ H) as [IHc IHq]. rewrite IHc, IHq, Hc, Hq. split.
    + destruct (decide (elementName e = str "COLOR")) as [E|E].
      * rewrite filter_cons_True by exact E. rewrite last_cons.
        destruct (last _); reflexivity.
      * rewrite filter_cons_False by exact E. reflexivity.
    + destruct (decide (elementName e = str "CUE")) as [E|E].
      * rewrite filter_cons_True by exact E. cbn [map].
        rewrite <- app_assoc. reflexivity.
      * rewrite filter_cons_False by exact E. now rewrite app_nil_r.
Qed.

(** The outer layer of [parseSeratorMarkers2]: the payload handed to the
    element decoder is the base64 decoding of the NUL-terminated string at
    the start of the tag. *)
Lemma parseSeratorMarkers2_payload (decodeBase64 : jsstring -> list byte)
  (view : DataView) (base64String : jsstring) :
  TrackMetaDataParser.readNullTerminatedString view 0 = OK base64String ->
  TrackMetaDataParser.parseSeratorMarkers2 decodeBase64 view
  = TrackMetaDataParser.parseMarkers2Payload (decodeBase64 base64String).
Proof.
  intros H. unfold TrackMetaDataParser.parseSeratorMarkers2. now rewrite H.
Qed.

(** ** The tag decoders return or throw

    The iteration bounds that the embedding gives to the string scan and to
    the element loop are never exhausted, so the [catch] of the track reader
    sees every failure of the decoders. *)

Lemma terminates_bind {A B : Type} (c : result A) (k : A -> result B) :
  terminates c -> (forall a, c = OK a -> terminates (k a)) ->
  terminates (bind c k).
Proof.
  unfold terminates. destruct c as [a|e|]; cbn; intros Hc Hk; auto.
Qed.

Lemma returnsOrRangeError_terminates {A : Type} (r : result A) :
  returnsOrRangeError r -> terminates r.
Proof. unfold terminates. destruct r; cbn; [discriminate|discriminate|tauto]. Qed.

Lemma getUint8_terminates (v : DataView) (i : Z) : terminates (getUint8 v i).
Proof. apply returnsOrRangeError_terminates, getUint8_safe. Qed.

Lemma getUint32_terminates (v : DataView) (i : Z) : terminates (getUint32 v i).
Proof. apply returnsOrRangeError_terminates, getUint32_safe. Qed.

Lemma readNullTerminatedString_terminates (v : DataView) (off : Z) :
  wfView v -> 0 <= off ->
  terminates (TrackMetaDataParser.readNullTerminatedString v off).
Proof.
  intros Hwf Hoff. rewrite readNullTerminatedString_bytes by auto.
  unfold terminates. destruct (bool_decide _); discriminate.
Qed.

Lemma applyElement_terminates (r : TrackMetaDataParser.SeratorMarker2Data)
  (e : TrackMetaDataParser.Element) :
  wfView (TrackMetaDataParser.elData e) ->
  terminates (TrackMetaDataParser.applyElement r e).
Proof.
  intros Hwf. unfold TrackMetaDataParser.applyElement.
  repeat (destruct (bool_decide _));
    repeat (apply terminates_bind;
            [first [apply getUint8_terminates|apply getUint32_terminates
                   |apply readNullTerminatedString_terminates; [exact Hwf|lia]]
            |intros]);
    discriminate.
Qed.

Lemma applyElements_terminates (es : list TrackMetaDataParser.Element) :
  forall r : TrackMetaDataParser.SeratorMarker2Data,
  Forall (fun e => wfView (TrackMetaDataParser.elData e)) es ->
  terminates (TrackMetaDataParser.applyElements r es).
Proof.
  induction es as [|e es IH]; intros r Hwf; [discriminate|].
  apply Forall_cons in Hwf as [He Hes].
  cbn [TrackMetaDataParser.applyElements].
  apply terminates_bind; [now apply applyElement_terminates|].
  intros r' _. now apply IH.
Qed.

(** The element loop: every iteration moves the offset forward, so as many
    iterations as the payload has bytes from [offset] on are enough; the
    views it returns lie inside the payload. *)
Lemma readElements_terminates (n : nat) :
  forall (payload : list byte) (offset : Z),
  bufLen payload - offset <= Z.of_nat n ->
  terminates (TrackMetaDataParser.readElements n (wholeView payload) offset)
  /\ forall es,
       TrackMetaDataParser.readElements n (wholeView payload) offset = OK es ->
       Forall (fun e => wfView (TrackMetaDataParser.elData e)) es.
Proof.
  induction n as [|n IH]; intros payload offset Hn.
  - cbn [TrackMetaDataParser.readElements wholeView byteLength].
    replace (offset <? bufLen payload) with false
      by (symmetry; apply Z.ltb_ge; lia).
    split; [discriminate|]. intros es [= <-]. constructor.
  - cbn [TrackMetaDataParser.readElements wholeView byteLength].
    fold (wholeView payload).
    destruct (offset <? bufLen payload) eqn:Hlt;
      [|split; [discriminate|intros es [= <-]; constructor]].
    apply Z.ltb_lt in Hlt.
    destruct (Z.lt_ge_cases offset 0) as [Hneg|Hoff].
    { assert (E : TrackMetaDataParser.readNullTerminatedString
                    (wholeView payload) offset = Throws RangeError).
      { unfold TrackMetaDataParser.readNullTerminatedString,
          TrackMetaDataParser.readNullTerminatedBytes.
        destruct (Z.to_nat _);
          cbn [TrackMetaDataParser.nullTerminatedLength];
          unfold getUint8; rewrite getBytes_outside by lia; reflexivity. }
      rewrite E. split; [discriminate|discriminate]. }
    destruct (TrackMetaDataParser.readNullTerminatedString _ _)
      as [name| |] eqn:Hname; cbn [bind].
    2:{ split; discriminate. }
    2:{ exfalso.
        apply (readNullTerminatedString_terminates (wholeView payload) offset);
          auto using wholeView_wf. }
    destruct (bool_decide (name = [])) eqn:Hempty;
      [split; [discriminate|intros es [= <-]; constructor]|].
    apply bool_decide_eq_false in Hempty.
    assert (Hpos : 0 < Z.of_nat (length name))
      by (destruct name; [congruence|cbn [length]; lia]).
    destruct (getUint32 _ _) as [len| |] eqn:Hlen; cbn [bind].
    2:{ split; discriminate. }
    2:{ exfalso. exact (getUint32_terminates _ _ Hlen). }
    pose proof (getUint32_range _ _ _ Hlen) as Hrange.
    destruct (newDataView _ _ _) as [data| |] eqn:Hdata; cbn [bind].
    2:{ split; discriminate. }
    2:{ pose proof (newDataView_safe (buffer (wholeView payload))
                      (offset + Z.of_nat (length name) + 5) (Some len)) as Hs.
        rewrite Hdata in Hs. contradiction. }
    apply newDataView_wf in Hdata as (Hwf & _).
    destruct (IH payload (offset + (Z.of_nat (length name) + 5 + len)))
      as [Hterm Hviews]; [lia|].
    destruct (TrackMetaDataParser.readElements n _ _) as [es'| |] eqn:Hrest;
      cbn [bind].
    + split; [discriminate|]. intros es [= <-]. constructor; [exact Hwf|].
      now apply Hviews.
    + split; discriminate.
    + exfalso. now apply Hterm.
Qed.

Lemma parseMarkers2Payload_terminates (payload : list byte) :
  terminates (TrackMetaDataParser.parseMarkers2Payload payload).
Proof.
  unfold TrackMetaDataParser.parseMarkers2Payload.
  destruct (_ && _); [|discriminate].
  destruct (readElements_terminates (length payload) payload 2)
    as [Hterm Hviews]; [unfold bufLen; lia|].
  apply terminates_bind; [exact Hterm|].
  intros es Hes. apply applyElements_terminates. now apply Hviews.
Qed.

Lemma parseSeratorMarkers2_terminates (decodeBase64 : jsstring -> list byte)
  (view : DataView) :
  wfView view ->
  terminates (TrackMetaDataParser.parseSeratorMarkers2 decodeBase64 view).
Proof.
  intros Hwf. unfold TrackMetaDataParser.parseSeratorMarkers2.
  apply terminates_bind;
    [apply readNullTerminatedString_terminates; [exact Hwf|lia]|].
  intros s _. apply parseMarkers2Payload_terminates.
Qed.

Lemma beatGridMarkers_from_terminates (n : nat) (view : DataView)
  (numMarkers : Z) :
  forall i : Z,
  terminates (TrackMetaDataParser.beatGridMarkers_from n view numMarkers i).
Proof.
  induction n as [|n IH]; intros i; [discriminate|].
  cbn [TrackMetaDataParser.beatGridMarkers_from].
  assert (Hf : forall j, terminates (getFloat32 view j)).
  { intros j. unfold getFloat32. apply terminates_bind;
      [apply returnsOrRangeError_terminates, getBytes_safe|discriminate]. }
  apply terminates_bind; [apply Hf|intros pos _].
  apply terminates_bind.
  - destruct (_ <? _); apply terminates_bind;
      first [apply getUint32_terminates|apply Hf|discriminate].
  - intros m _. apply terminates_bind; [apply IH|discriminate].
Qed.

Lemma parseSeratoBeatGrid_terminates (view : DataView) :
  terminates (TrackMetaDataParser.parseSeratoBeatGrid view).
Proof.
  unfold TrackMetaDataParser.parseSeratoBeatGrid.
  apply terminates_bind; [apply getUint32_terminates|intros n _].
  apply terminates_bind; [apply beatGridMarkers_from_terminates|discriminate].
Qed.

(** ** Track records: [parseTrackMetaData] *)

Section TrackRecords.

Import TrackMetaDataParser.

Context {Common : Type}.
Variable decodeBase64 : jsstring -> list byte.

(** A frame whose payload fails to decode sets the warning flag and changes
    nothing else. *)
Lemma applyGeob_failure (result : TrackMetaData Common) (value : GEOBDir) :
  failsToDecode decodeBase64 value ->
  applyGeob decodeBase64 result value = setWarning result.
Proof.
  intros (Htype & Hfail). unfold applyGeob.
  rewrite bool_decide_eq_true_2 by exact Htype. cbn [negb].
  destruct Hfail as [(Hd & Hfail)|(Hd & Hfail)].
  - rewrite bool_decide_eq_true_2 by exact Hd.
    destruct (parseSeratorMarkers2 _ _) as [m| |]; try reflexivity.
    exfalso. exact (Hfail m eq_refl).
  - rewrite bool_decide_eq_false_2
      by (rewrite Hd; vm_compute; congruence).
    rewrite bool_decide_eq_true_2 by exact Hd.
    destruct (parseSeratoBeatGrid _) as [g| |]; try reflexivity.
    exfalso. exact (Hfail g eq_refl).
Qed.

(** The warning flag plays no part in what a frame does to the record. *)
Lemma applyGeob_setWarning (result : TrackMetaData Common) (value : GEOBDir) :
  applyGeob decodeBase64 (setWarning result) value
  = setWarning (applyGeob decodeBase64 result value).
Proof.
  unfold applyGeob. destruct (negb _); [reflexivity|].
  destruct (bool_decide _).
  - destruct (parseSeratorMarkers2 _ _); reflexivity.
  - destruct (bool_decide _); [|reflexivity].
    destruct (parseSeratoBeatGrid _); reflexivity.
Qed.

Lemma fold_applyGeob_setWarning (geobs : list GEOBDir) :
  forall result : TrackMetaData Common,
  fold_left (applyGeob decodeBase64) geobs (setWarning result)
  = setWarning (fold_left (applyGeob decodeBase64) geobs result).
Proof.
  induction geobs as [|g geobs IH]; intros result; [reflexivity|].
  cbn [fold_left]. rewrite applyGeob_setWarning. apply IH.
Qed.

End TrackRecords.

(** C8.  When the Markers2 or BeatGrid payload of a frame fails to decode,
    the loop over the frames of the track catches the failure: the frame
    sets the warning flag of the track record and leaves every other field of
    the record as it was before the frame; the frames before and after it are
    decoded as if the failing frame were not there; and [parseTrackMetaData]
    returns the record that it returns for the same file without the failing
    frame, with the warning flag set, so that the scan goes on with the next
    track. *)
Theorem geob_failure_contained {Common : Type}
  (decodeBase64 : jsstring -> list byte)
  (value : TrackMetaDataParser.GEOBDir) :
  failsToDecode decodeBase64 value ->
  (forall result : TrackMetaDataParser.TrackMetaData Common,
     TrackMetaDataParser.applyGeob decodeBase64 result value
     = setWarning result)
  /\ (forall (before after : list TrackMetaDataParser.GEOBDir)
        (result : TrackMetaDataParser.TrackMetaData Common),
      fold_left (TrackMetaDataParser.applyGeob decodeBase64)
        (before ++ value :: after) result
      = setWarning
          (fold_left (TrackMetaDataParser.applyGeob decodeBase64)
             (before ++ after) result))
  /\ (forall (reader reader' : jsstring
                                -> result (TrackMetaDataParser.AudioFile Common))
        (path : jsstring) (trackId : nat)
        (file : TrackMetaDataParser.AudioFile Common)
        (before after : list TrackMetaDataParser.GEOBDir),
      reader path = OK file ->
      TrackMetaDataParser.geobObjects file = Some (before ++ value :: after) ->
      reader' path
      = OK (TrackMetaDataParser.mkAudioFile
              (TrackMetaDataParser.fileSize file)
              (TrackMetaDataParser.fileCommon file)
              (Some (before ++ after))) ->
      exists meta',
        TrackMetaDataParser.parseTrackMetaData decodeBase64 reader' path trackId
        = OK meta'
        /\ TrackMetaDataParser.parseTrackMetaData decodeBase64 reader path
             trackId
           = OK (setWarning meta')).
Proof.
  intros Hfail.
  assert (Hfold : forall (before after : list TrackMetaDataParser.GEOBDir)
        (result : TrackMetaDataParser.TrackMetaData Common),
      fold_left (TrackMetaDataParser.applyGeob decodeBase64)
        (before ++ value :: after) result
      = setWarning
          (fold_left (TrackMetaDataParser.applyGeob decodeBase64)
             (before ++ after) result)).
  { intros before after result. rewrite !fold_left_app. cbn [fold_left].
    rewrite applyGeob_failure by exact Hfail.
    apply fold_applyGeob_setWarning. }
  split; [intros result; now apply applyGeob_failure|].
  split; [exact Hfold|].
  intros reader reader' path trackId file before after Hread Hgeobs Hread'.
  unfold TrackMetaDataParser.parseTrackMetaData.
  rewrite Hread, Hread'. cbn [bind]. rewrite Hgeobs, Hfold.
  eexists. split; reflexivity.
Qed.

Lemma geob_failure_contained_witness :
  TrackMetaDataParser.applyGeob (Common := unit) (fun _ => [x01; x02])
    (TrackMetaDataParser.mkTrackMetaData (str "a.mp3") 0 10 tt
       (Some (1, 2, 3, 4)) [] [] None false false)
    (TrackMetaDataParser.mkGEOBDir (str "application/octet-stream") []
       (str "Serato Markers2") [x41; x00])
  = TrackMetaDataParser.mkTrackMetaData (str "a.mp3") 0 10 tt
       (Some (1, 2, 3, 4)) [] [] None false true.
Proof.
  apply (geob_failure_contained (Common := unit) (fun _ => [x01; x02])
           (TrackMetaDataParser.mkGEOBDir (str "application/octet-stream") []
              (str "Serato Markers2") [x41; x00])).
  split; [reflexivity|]. left. split; [reflexivity|].
  intros m. vm_compute. congruence.
Defined.

(** In the track scan, a track whose file is read is recorded under its
    index, whatever its payloads do, and no error is added for it. *)
Lemma loadTrack_records {Common : Type}
  (decodeBase64 : jsstring -> list byte)
  (reader : jsstring -> result (TrackMetaDataParser.AudioFile Common))
  (resolve : jsstring -> jsstring) (mountPath : jsstring)
  (acc : gmap nat (TrackMetaDataParser.TrackMetaData Common)
         * list Cli.ScanError)
  (i : nat) (track : CrateParser.CrateTrack)
  (file : TrackMetaDataParser.AudioFile Common) :
  reader (resolve (mountPath ++ str "/" ++ CrateParser.path track)) = OK file ->
  exists meta,
    TrackMetaDataParser.parseTrackMetaData decodeBase64 reader
      (resolve (mountPath ++ str "/" ++ CrateParser.path track)) i = OK meta
    /\ Cli.loadTrack decodeBase64 reader resolve mountPath None acc i track
       = (<[i := meta]> acc.1, acc.2).
Proof.
  intros Hread. unfold Cli.loadTrack.
  unfold TrackMetaDataParser.parseTrackMetaData. rewrite Hread. cbn [bind].
  destruct (TrackMetaDataParser.geobObjects file); eexists; split; reflexivity.
Qed.

(** ** Track de-duplication: the crate scan of [cli.ts] *)

Lemma firstSeen_from_elem (paths : list jsstring) :
  forall (seen : list jsstring) (p : jsstring),
  p ∈ fold_left seeFirst paths seen <-> p ∈ seen \/ p ∈ paths.
Proof.
  induction paths as [|q paths IH]; intros seen p; cbn [fold_left].
  - rewrite elem_of_nil. tauto.
  - rewrite IH, elem_of_cons. unfold seeFirst.
    destruct (decide (q ∈ seen)) as [Hq|Hq].
    + split; [tauto|]. intros [H|[->|H]]; auto.
    + rewrite elem_of_app, list_elem_of_singleton. tauto.
Qed.

Lemma firstSeen_from_NoDup (paths : list jsstring) :
  forall seen : list jsstring,
  NoDup seen -> NoDup (fold_left seeFirst paths seen).
Proof.
  induction paths as [|q paths IH]; intros seen Hseen; cbn [fold_left];
    [exact Hseen|].
  apply IH. unfold seeFirst. destruct (decide (q ∈ seen)) as [Hq|Hq];
    [exact Hseen|].
  apply NoDup_app. split; [exact Hseen|]. split.
  - intros x Hx Hx'. apply list_elem_of_singleton in Hx'. congruence.
  - apply NoDup_singleton.
Qed.

(** [firstSeen] keeps every path, once. *)
Lemma firstSeen_spec (paths : list jsstring) :
  NoDup (firstSeen paths) /\ forall p, p ∈ firstSeen paths <-> p ∈ paths.
Proof.
  split.
  - apply firstSeen_from_NoDup, NoDup_nil_2.
  - intros p. unfold firstSeen. rewrite firstSeen_from_elem, elem_of_nil. tauto.
Qed.

Section Scan.

Import Cli.

Variable trackFilter : option jsstring.

Lemma indexInvariant_fresh (st : ScanState) (p : jsstring) :
  indexInvariant st ->
  (trackPathIndex st !! p = None <-> p ∉ indexedPaths st).
Proof.
  intros [_ Hidx]. split.
  - intros Hnone Hin. apply list_elem_of_lookup in Hin as [i Hi].
    apply Hidx in Hi. congruence.
  - intros Hnot. destruct (trackPathIndex st !! p) as [i|] eqn:E; [|reflexivity].
    apply Hidx in E. exfalso. apply Hnot. eapply list_elem_of_lookup_2, E.
Qed.

(** One sighting: the track list grows as [seeFirst] says when the path
    passes the filter, and the invariant is kept. *)
Lemma scanTrack_spec (st : ScanState) (track : CrateParser.CrateTrack) :
  indexInvariant st ->
  indexInvariant (scanTrack trackFilter st track)
  /\ crateList (scanTrack trackFilter st track) = crateList st
  /\ errors (scanTrack trackFilter st track) = errors st
  /\ indexedPaths (scanTrack trackFilter st track)
     = if filteredOut trackFilter track then indexedPaths st
       else seeFirst (indexedPaths st) (CrateParser.path track).
Proof.
  intros Hinv. unfold scanTrack.
  destruct (filteredOut trackFilter track); [auto|].
  pose proof (indexInvariant_fresh st (CrateParser.path track) Hinv) as Hfresh.
  unfold seeFirst.
  destruct (trackPathIndex st !! CrateParser.path track) as [i|] eqn:E.
  - destruct (decide (CrateParser.path track ∈ indexedPaths st)) as [Hin|Hin];
      [auto|].
    apply Hfresh in Hin. congruence.
  - destruct (decide (CrateParser.path track ∈ indexedPaths st)) as [Hin|Hin].
    { exfalso. apply Hfresh in Hin; auto. }
    set (st' := mkScanState _ _ _ _).
    assert (Hpaths : indexedPaths st'
                     = indexedPaths st ++ [CrateParser.path track])
      by (unfold indexedPaths, st'; cbn [trackList]; now rewrite map_app).
    split; [|auto]. destruct Hinv as [Hnd Hidx]. split.
    + rewrite Hpaths. apply NoDup_app. split; [exact Hnd|].
      split; [|apply NoDup_singleton].
      intros x Hx Hx'. apply list_elem_of_singleton in Hx'. subst x.
      exact (Hin Hx).
    + intros p i. rewrite Hpaths. unfold st'. cbn [trackPathIndex].
      rewrite length_app. cbn [length].
      replace (length (trackList st) + 1 - 1)%nat
        with (length (indexedPaths st))
        by (unfold indexedPaths; rewrite length_map; lia).
      destruct (decide (CrateParser.path track = p)) as [<-|Hne].
      * rewrite lookup_insert_eq. split.
        -- intros [= <-]. apply list_lookup_middle. reflexivity.
        -- intros Hi. f_equal.
           apply lookup_app_Some in Hi as [Hl|[Hge Hr]].
           ++ exfalso. apply Hin. eapply list_elem_of_lookup_2, Hl.
           ++ apply lookup_lt_Some in Hr. cbn in Hr. lia.
      * rewrite lookup_insert_ne by exact Hne. rewrite Hidx. split.
        -- intros Hi. rewrite lookup_app_l; [exact Hi|].
           eapply lookup_lt_Some, Hi.
        -- intros Hi. apply lookup_app_Some in Hi as [Hl|[Hge Hr]]; [exact Hl|].
           destruct (i - length (indexedPaths st))%nat; cbn in Hr;
             [congruence|discriminate].
Qed.

(** The sightings of one crate. *)
Lemma scanTracks_spec (tracks : list CrateParser.CrateTrack) :
  forall st : ScanState,
  indexInvariant st ->
  indexInvariant (fold_left (scanTrack trackFilter) tracks st)
  /\ crateList (fold_left (scanTrack trackFilter) tracks st) = crateList st
  /\ indexedPaths (fold_left (scanTrack trackFilter) tracks st)
     = fold_left seeFirst
         (filter (passesFilter trackFilter) (map CrateParser.path tracks))
         (indexedPaths st).
Proof.
  induction tracks as [|t tracks IH]; intros st Hinv; [auto|].
  cbn [fold_left map].
  destruct (scanTrack_spec st t Hinv) as (Hinv' & Hcl & _ & Hpaths).
  destruct (IH _ Hinv') as (IH1 & IH2 & IH3).
  split; [exact IH1|]. split; [congruence|]. rewrite IH3, Hpaths.
  assert (Ht : passesFilter trackFilter (CrateParser.path t)
               <-> filteredOut trackFilter t = false)
    by (unfold passesFilter; destruct t; reflexivity).
  destruct (filteredOut trackFilter t) eqn:E.
  - rewrite filter_cons_False by (rewrite Ht; congruence). reflexivity.
  - rewrite filter_cons_True by (now rewrite Ht). reflexivity.
Qed.

Variable fs : Util.FileSystem.
Variable seratoDir : jsstring.

(** What the scan maintains: the invariant of the index, and a track list
    that is the first-seen list of the sighted paths that pass the filter. *)
Lemma scanCrate_spec (st : ScanState) (crateName : jsstring) :
  indexInvariant st ->
  indexedPaths st
  = firstSeen (filter (passesFilter trackFilter) (sightedPaths (crateList st))) ->
  let st' := scanCrate fs seratoDir trackFilter st crateName in
  indexInvariant st'
  /\ indexedPaths st'
     = firstSeen (filter (passesFilter trackFilter)
                    (sightedPaths (crateList st'))).
Proof.
  intros Hinv Hpaths. cbv zeta. unfold scanCrate.
  destruct (CrateParser.parseCrate fs _) as [crate|err|]; [|auto|auto].
  set (st1 := mkScanState _ _ _ _).
  assert (Hinv1 : indexInvariant st1) by exact Hinv.
  destruct (scanTracks_spec (CrateParser.tracks crate) st1 Hinv1)
    as (H1 & H2 & H3).
  split; [exact H1|]. rewrite H3, H2.
  change (indexedPaths st1) with (indexedPaths st). rewrite Hpaths.
  unfold st1. cbn [crateList]. unfold sightedPaths, firstSeen.
  rewrite map_app, concat_app, filter_app, fold_left_app. cbn [map concat].
  now rewrite app_nil_r.
Qed.

Lemma scanCrates_spec (crateNameList : list jsstring) :
  forall st : ScanState,
  indexInvariant st ->
  indexedPaths st
  = firstSeen (filter (passesFilter trackFilter) (sightedPaths (crateList st))) ->
  let st' := fold_left (scanCrate fs seratoDir trackFilter) crateNameList st in
  indexInvariant st'
  /\ indexedPaths st'
     = firstSeen (filter (passesFilter trackFilter)
                    (sightedPaths (crateList st'))).
Proof.
  induction crateNameList as [|name names IH]; intros st Hinv Hpaths; [auto|].
  cbn [fold_left].
  destruct (scanCrate_spec st name Hinv Hpaths) as [Hinv' Hpaths'].
  apply IH; assumption.
Qed.

End Scan.

Lemma initialScan_invariant : indexInvariant Cli.initialScan.
Proof.
  split; [apply NoDup_nil_2|]. intros p i. cbn.
  rewrite lookup_empty, lookup_nil. split; discriminate.
Qed.

(** C9, the claim as stated, with a track filter: the crate holds the track
    path [a.mp3], which does not contain the filter [x]; the path is sighted
    and is assigned no index. *)
Lemma filtered_path_not_indexed :
  let fs : Util.FileSystem := fun _ =>
    Some (encodeAll
            [versionSection;
             Container (list_byte_of_string "otrk")
               [StringLeaf (list_byte_of_string "ptrk") (str "a.mp3")]]) in
  let st := Cli.scanCrates fs (str "/s") (Some (str "x")) [str "A.crate"] in
  sightedPaths (Cli.crateList st) = [str "a.mp3"]
  /\ Cli.trackPathIndex st !! str "a.mp3" = None
  /\ Cli.trackList st = [].
Proof. vm_compute. repeat split; reflexivity. Qed.

(** C9 (amended).  For every sequence of crates processed by the scan, with
    or without a track filter: each distinct track path that passes the
    filter (every path when there is no filter), across all the crates that
    load, is assigned exactly one integer index, in first-seen order; a later
    sighting of a path reuses the index and inserts nothing; a path that the
    filter rejects is assigned no index; every playlist lists exactly the
    indices of its crate's tracks, so two crates that reference the same
    indexed path reference the same index. *)
Theorem track_index_first_seen (fs : Util.FileSystem) (seratoDir : jsstring)
  (trackFilter : option jsstring) (crateNameList : list jsstring) :
  let st := Cli.scanCrates fs seratoDir trackFilter crateNameList in
  let idx := Cli.trackPathIndex st in
  indexedPaths st
  = firstSeen (filter (passesFilter trackFilter)
                 (sightedPaths (Cli.crateList st)))
  /\ NoDup (indexedPaths st)
  /\ (forall (p : jsstring) (i : nat),
        idx !! p = Some i <-> indexedPaths st !! i = Some p)
  /\ (forall p : jsstring,
        is_Some (idx !! p)
        <-> p ∈ sightedPaths (Cli.crateList st) /\ passesFilter trackFilter p)
  /\ (forall (crate : CrateParser.Crate) (i : nat),
        i ∈ Cli.playlistTracks idx crate
        <-> exists t, t ∈ CrateParser.tracks crate
                      /\ idx !! CrateParser.path t = Some i)
  /\ (forall (c1 c2 : CrateParser.Crate) (t1 t2 : CrateParser.CrateTrack),
        c1 ∈ Cli.crateList st -> c2 ∈ Cli.crateList st ->
        t1 ∈ CrateParser.tracks c1 -> t2 ∈ CrateParser.tracks c2 ->
        CrateParser.path t1 = CrateParser.path t2 ->
        passesFilter trackFilter (CrateParser.path t1) ->
        exists i, idx !! CrateParser.path t1 = Some i
                  /\ i ∈ Cli.playlistTracks idx c1
                  /\ i ∈ Cli.playlistTracks idx c2).
Proof.
  intros st idx.
  destruct (scanCrates_spec trackFilter fs seratoDir crateNameList
              Cli.initialScan initialScan_invariant eq_refl)
    as [[Hnd Hidx] Hpaths].
  fold (Cli.scanCrates fs seratoDir trackFilter crateNameList) in Hnd, Hidx, Hpaths.
  fold st in Hnd, Hidx, Hpaths.
  assert (Hsome : forall p : jsstring,
        is_Some (idx !! p)
        <-> p ∈ sightedPaths (Cli.crateList st) /\ passesFilter trackFilter p).
  { intros p. transitivity (p ∈ indexedPaths st).
    - split.
      + intros [i Hi]. apply Hidx in Hi. eapply list_elem_of_lookup_2, Hi.
      + intros Hin. apply list_elem_of_lookup in Hin as [i Hi].
        exists i. now apply Hidx.
    - rewrite Hpaths. destruct (firstSeen_spec
        (filter (passesFilter trackFilter) (sightedPaths (Cli.crateList st))))
        as [_ Hmem].
      rewrite Hmem, list_elem_of_filter. tauto. }
  assert (Hplay : forall (crate : CrateParser.Crate) (i : nat),
        i ∈ Cli.playlistTracks idx crate
        <-> exists t, t ∈ CrateParser.tracks crate
                      /\ idx !! CrateParser.path t = Some i).
  { intros crate i. unfold Cli.playlistTracks. apply list_elem_of_omap. }
  split; [exact Hpaths|]. split; [exact Hnd|]. split; [exact Hidx|].
  split; [exact Hsome|]. split; [exact Hplay|].
  intros c1 c2 t1 t2 Hc1 Hc2 Ht1 Ht2 Heq Hpass.
  destruct (proj2 (Hsome (CrateParser.path t1))) as [i Hi].
  { split; [|exact Hpass]. unfold sightedPaths.
    apply list_elem_of_In, in_concat.
    exists (map CrateParser.path (CrateParser.tracks c1)). split.
    - apply (in_map (fun c => map CrateParser.path (CrateParser.tracks c))).
      now apply list_elem_of_In.
    - apply in_map. now apply list_elem_of_In. }
  exists i. split; [exact Hi|]. split; apply Hplay; eauto.
  exists t2. split; [exact Ht2|]. now rewrite <- Heq.
Qed.

(** ** Playlist tree: [getParentFolder] and the crate loop of [cli.ts] *)

Section Registry.

Import Cli RekordboxExporter.

Lemma pushChild_heap_lookup (ref i : nat) (node : RecordboxPlaylistNode)
  (st : TreeState) (f : RecordboxFolder) :
  heap st !! i = Some f ->
  heap (pushChild ref node st) !! i
  = Some (if decide (i = ref)
          then mkFolder (name f) (children f ++ [node]) else f).
Proof.
  intros Hf. unfold pushChild. cbn [heap].
  destruct (decide (i = ref)) as [->|Hne].
  - rewrite list_lookup_alter_eq, Hf. reflexivity.
  - rewrite list_lookup_alter_ne by congruence. exact Hf.
Qed.

Lemma pushChild_length (ref : nat) (node : RecordboxPlaylistNode)
  (st : TreeState) :
  length (heap (pushChild ref node st)) = length (heap st).
Proof. unfold pushChild. cbn [heap]. apply length_alter. Qed.

Lemma pushChild_folders (ref : nat) (node : RecordboxPlaylistNode)
  (st : TreeState) :
  folders (pushChild ref node st) = folders st.
Proof. reflexivity. Qed.

Lemma pushChild_invariant (ref : nat) (node : RecordboxPlaylistNode)
  (st : TreeState) :
  registryInvariant st -> registryInvariant (pushChild ref node st).
Proof.
  intros (Hroot & [kids Hobj] & Hvalid & Hinj & Hsurj).
  pose proof (pushChild_heap_lookup ref 0 node st _ Hobj) as H0.
  unfold registryInvariant.
  split; [exact Hroot|]. split.
  - rewrite H0. destruct (decide (0%nat = ref)); cbn; eauto.
  - unfold pushChild. cbn [heap folders]. rewrite length_alter. auto.
Qed.

(** Registering a new folder object under a free key. *)
Lemma register_invariant (st : TreeState) (key segment : jsstring) :
  registryInvariant st -> folders st !! key = None ->
  registryInvariant
    (mkTreeState (heap st ++ [mkFolder segment []])
       (<[key := length (heap st)]> (folders st))).
Proof.
  intros (Hroot & [kids Hobj] & Hvalid & Hinj & Hsurj) Hkey.
  assert (Hne : key <> str "ROOT") by congruence.
  unfold registryInvariant. cbn [heap folders].
  rewrite length_app. cbn [length].
  split; [rewrite lookup_insert_ne by exact Hne; exact Hroot|].
  split; [exists kids; rewrite lookup_app_l; [exact Hobj|];
          eapply lookup_lt_Some, Hobj|].
  split; [|split].
  - intros k id. destruct (decide (key = k)) as [<-|Hk].
    + rewrite lookup_insert_eq. intros [= <-]. lia.
    + rewrite lookup_insert_ne by exact Hk. intros H.
      apply Hvalid in H. lia.
  - intros k1 k2 id.
    destruct (decide (key = k1)) as [<-|Hk1];
      destruct (decide (key = k2)) as [<-|Hk2];
      rewrite ?lookup_insert_eq, ?lookup_insert_ne by assumption; auto.
    + intros [= <-] H. apply Hvalid in H. lia.
    + intros H [= <-]. apply Hvalid in H. lia.
    + apply Hinj.
  - intros id Hid.
    destruct (decide (id = length (heap st))) as [->|Hlt].
    + exists key. apply lookup_insert_eq.
    + destruct (Hsurj id) as [k Hk]; [lia|].
      exists k. rewrite lookup_insert_ne; [exact Hk|congruence].
Qed.

(** [getParentFolder] keeps the registry and the heap in correspondence; it
    only adds registrations and objects; the folder it returns is an object
    of the heap, registered under the key of the path (the root for the
    empty path). *)
Lemma getParentFolder_rev_spec (rpath : list jsstring) :
  forall st : TreeState,
  registryInvariant st ->
  registryInvariant (getParentFolder_rev rpath st).2
  /\ ((getParentFolder_rev rpath st).1
      < length (heap (getParentFolder_rev rpath st).2))%nat
  /\ (forall key id, folders st !! key = Some id ->
        folders (getParentFolder_rev rpath st).2 !! key = Some id)
  /\ (length (heap st) <= length (heap (getParentFolder_rev rpath st).2))%nat
  /\ (forall i f, heap st !! i = Some f ->
        exists f', heap (getParentFolder_rev rpath st).2 !! i = Some f'
                   /\ name f' = name f)
  /\ (rpath <> [] ->
      folders (getParentFolder_rev rpath st).2 !! join (str "/") (rev rpath)
      = Some (getParentFolder_rev rpath st).1)
  /\ (rpath = [] -> (getParentFolder_rev rpath st).1 = 0%nat).
Proof.
  induction rpath as [|segment localPath IH]; intros st Hinv.
  - cbn [getParentFolder_rev fst snd].
    destruct Hinv as (Hroot & Hobj & Hvalid & Hinj & Hsurj).
    rewrite Hroot. cbn [default].
    repeat split; auto; try congruence; eauto.
  - cbn [getParentFolder_rev].
    set (key := join (str "/") (rev (segment :: localPath))).
    destruct (folders st !! key) as [folder|] eqn:Hkey.
    + cbn [fst snd].
      pose proof Hinv as (Hroot & Hobj & Hvalid & Hinj & Hsurj).
      repeat split; auto; try congruence; eauto.
    + set (st1 := mkTreeState (heap st ++ [mkFolder segment []])
                    (<[key := length (heap st)]> (folders st))).
      pose proof Hinv as (Hroot & [kids Hobj] & Hvalid & Hinj & Hsurj).
      assert (Hinv1 : registryInvariant st1)
        by (apply register_invariant; assumption).
      destruct (IH st1 Hinv1) as (Hinv2 & Hparent & Hmono & Hlen & Hnames & _).
      destruct (getParentFolder_rev localPath st1) as [parent st2] eqn:Hrec.
      cbn [fst snd] in *.
      split; [now apply pushChild_invariant|].
      assert (Hlen1 : length (heap st1) = S (length (heap st)))
        by (unfold st1; cbn [heap]; rewrite length_app; cbn [length]; lia).
      rewrite !pushChild_length, !pushChild_folders.
      split; [lia|]. split.
      { intros k id Hk. apply Hmono. unfold st1. cbn [folders].
        rewrite lookup_insert_ne; [exact Hk|congruence]. }
      split; [lia|]. split.
      { intros i f Hf.
        destruct (Hnames i f) as (f' & Hf' & Hname).
        { unfold st1. cbn [heap]. rewrite lookup_app_l; [exact Hf|].
          eapply lookup_lt_Some, Hf. }
        rewrite (pushChild_heap_lookup parent i _ st2 f' Hf').
        eexists. split; [reflexivity|].
        destruct (decide (i = parent)); [cbn; exact Hname|exact Hname]. }
      split; [|discriminate].
      intros _. apply Hmono. unfold st1. cbn [folders].
      apply lookup_insert_eq.
Qed.

(** A prefix that is registered is resolved to its folder, and nothing is
    created: this is how a shared prefix gets one folder. *)
Lemma getParentFolder_registered (path : list jsstring) (st : TreeState)
  (folder : nat) :
  path <> [] -> folders st !! join (str "/") path = Some folder ->
  getParentFolder path st = (folder, st).
Proof.
  intros Hne Hkey. unfold getParentFolder.
  destruct (rev path) as [|segment localPath] eqn:Hrev.
  - apply (f_equal (@rev jsstring)) in Hrev. rewrite rev_involutive in Hrev.
    cbn in Hrev. congruence.
  - cbn [getParentFolder_rev]. rewrite <- Hrev, rev_involutive, Hkey.
    reflexivity.
Qed.

(** A prefix that is not registered gets a new folder object, named by its
    last segment, registered under its key and attached as the last child
    of the folder of the prefix one segment shorter. *)
Lemma getParentFolder_created (localPath : list jsstring) (segment : jsstring)
  (st : TreeState) :
  registryInvariant st ->
  folders st !! join (str "/") (localPath ++ [segment]) = None ->
  let created := getParentFolder (localPath ++ [segment]) st in
  let st1 := mkTreeState (heap st ++ [mkFolder segment []])
               (<[join (str "/") (localPath ++ [segment]) := length (heap st)]>
                  (folders st)) in
  let parent := (getParentFolder localPath st1).1 in
  created.1 = length (heap st)
  /\ folders created.2 !! join (str "/") (localPath ++ [segment])
     = Some created.1
  /\ (exists f, heap created.2 !! created.1 = Some f /\ name f = segment)
  /\ (exists f, heap created.2 !! parent = Some f
                /\ last (children f) = Some (FolderRef created.1)).
Proof.
  intros Hinv Hkey. cbv zeta. unfold getParentFolder.
  rewrite rev_app_distr. cbn [rev app]. cbn [getParentFolder_rev].
  assert (Hrev : rev (segment :: rev localPath) = localPath ++ [segment])
    by (cbn [rev]; now rewrite rev_involutive).
  rewrite Hrev, Hkey.
  set (key := join (str "/") (localPath ++ [segment])).
  set (st1 := mkTreeState (heap st ++ [mkFolder segment []])
                (<[key := length (heap st)]> (folders st))).
  assert (Hinv1 : registryInvariant st1)
    by (apply register_invariant; assumption).
  destruct (getParentFolder_rev_spec (rev localPath) st1 Hinv1)
    as (Hinv2 & Hparent & Hmono & Hlen & Hnames & _).
  destruct (getParentFolder_rev (rev localPath) st1) as [parent st2] eqn:Hrec.
  cbn [fst snd] in *.
  split; [reflexivity|]. split.
  { apply Hmono. unfold st1. cbn [folders]. apply lookup_insert_eq. }
  split.
  - destruct (Hnames (length (heap st)) (mkFolder segment [])) as (f' & Hf' & Hn).
    { unfold st1. cbn [heap]. apply list_lookup_middle. reflexivity. }
    rewrite (pushChild_heap_lookup parent _ _ st2 f' Hf').
    eexists. split; [reflexivity|]. destruct (decide _); exact Hn.
  - destruct (lookup_lt_is_Some_2 (heap st2) parent Hparent) as [f Hf].
    rewrite (pushChild_heap_lookup parent _ _ st2 f Hf).
    rewrite decide_True by reflexivity.
    eexists. split; [reflexivity|]. cbn [children]. apply last_snoc.
Qed.

Variable trackPathIndex : gmap jsstring nat.

(** A crate's playlist is named by the last segment of the crate name and
    becomes the last child of the folder of the remaining prefix. *)
Lemma placeCrate_spec (st : TreeState) (crate : CrateParser.Crate) :
  registryInvariant st ->
  let parent := (getParentFolder (removelast (CrateParser.name crate)) st).1 in
  registryInvariant (placeCrate trackPathIndex st crate)
  /\ exists f,
       heap (placeCrate trackPathIndex st crate) !! parent = Some f
       /\ last (children f)
          = Some (PlaylistNode (List.last (CrateParser.name crate) [])
                    (playlistTracks trackPathIndex crate)).
Proof.
  intros Hinv. cbv zeta. unfold placeCrate, getParentFolder.
  destruct (getParentFolder_rev_spec
              (rev (removelast (CrateParser.name crate))) st Hinv)
    as (Hinv' & Hparent & _).
  destruct (getParentFolder_rev _ st) as [parent st'].
  cbn [fst snd] in *.
  split; [now apply pushChild_invariant|].
  destruct (lookup_lt_is_Some_2 (heap st') parent Hparent) as [f Hf].
  rewrite (pushChild_heap_lookup parent _ _ st' f Hf).
  rewrite decide_True by reflexivity.
  eexists. split; [reflexivity|]. cbn [children]. apply last_snoc.
Qed.

Lemma initialTree_invariant : registryInvariant initialTree.
Proof.
  unfold registryInvariant, initialTree. cbn [heap folders length].
  split; [apply lookup_singleton_eq|].
  split; [eexists; reflexivity|]. split; [|split].
  - intros key id H. apply lookup_singleton_Some in H as [_ <-]. lia.
  - intros k1 k2 id H1 H2.
    apply lookup_singleton_Some in H1 as [<- _].
    apply lookup_singleton_Some in H2 as [<- _]. reflexivity.
  - intros id Hid. exists (str "ROOT").
    replace id with 0%nat by lia. apply lookup_singleton_eq.
Qed.

(** After any sequence of crates the registry and the folder objects
    correspond one to one: one folder object per registered key. *)
Lemma buildTree_invariant (crateList : list CrateParser.Crate) :
  registryInvariant (buildTree trackPathIndex crateList).
Proof.
  unfold buildTree.
  generalize initialTree_invariant. generalize initialTree.
  induction crateList as [|crate crates IH]; intros st Hinv; [exact Hinv|].
  cbn [fold_left]. apply IH. now apply placeCrate_spec.
Qed.

End Registry.

(** *** The tree of concrete crate lists *)

(** The two crates of the specification's example: one root, one folder [A]
    under it, the folders [B] and [C] under [A], one playlist in each. *)
Example tree_of_two_crates :
  Cli.rootFolder
    (Cli.buildTree ∅ [emptyCrate [str "A"; str "B"; str "Mix1"];
                      emptyCrate [str "A"; str "C"; str "Mix2"]])
  = Some (RekordboxExporter.Folder (str "ROOT")
            [RekordboxExporter.Folder (str "A")
               [RekordboxExporter.Folder (str "B")
                  [RekordboxExporter.Playlist (str "Mix1") []];
                RekordboxExporter.Folder (str "C")
                  [RekordboxExporter.Playlist (str "Mix2") []]]]).
Proof. vm_compute. reflexivity. Qed.

(** C10 at the crates [ROOT%%Mix1] and [ROOT%%B%%Mix2]: the prefix [ROOT]
    has the registry key of the root folder, so no folder [ROOT] is created
    under the root; the playlist [Mix1] and the folder [B] are attached to
    the root itself, exactly as for the crates [Mix1] and [B%%Mix2].  With
    any other folder name, here [A], the folder is created under the root. *)
Theorem folder_named_ROOT_is_the_root :
  Cli.rootFolder
    (Cli.buildTree ∅ [emptyCrate [str "ROOT"; str "Mix1"];
                      emptyCrate [str "ROOT"; str "B"; str "Mix2"]])
  = Some (RekordboxExporter.Folder (str "ROOT")
            [RekordboxExporter.Playlist (str "Mix1") [];
             RekordboxExporter.Folder (str "B")
               [RekordboxExporter.Playlist (str "Mix2") []]])
  /\ Cli.rootFolder
       (Cli.buildTree ∅ [emptyCrate [str "ROOT"; str "Mix1"];
                         emptyCrate [str "ROOT"; str "B"; str "Mix2"]])
     = Cli.rootFolder
         (Cli.buildTree ∅ [emptyCrate [str "Mix1"];
                           emptyCrate [str "B"; str "Mix2"]])
  /\ Cli.rootFolder
       (Cli.buildTree ∅ [emptyCrate [str "A"; str "Mix1"];
                         emptyCrate [str "A"; str "B"; str "Mix2"]])
     = Some (RekordboxExporter.Folder (str "ROOT")
               [RekordboxExporter.Folder (str "A")
                  [RekordboxExporter.Playlist (str "Mix1") [];
                   RekordboxExporter.Folder (str "B")
                     [RekordboxExporter.Playlist (str "Mix2") []]]]).
Proof. vm_compute. repeat split; reflexivity. Qed.

(** * Further properties, file by file *)

(** ** [crateParser.ts]: sections read back, strings, damaged files *)

(** X1. The section decoder reads back every well-formed document, nested
    containers, strings and integers alike, whatever the bound on its
    iterations, as soon as the bound exceeds the size of the buffer
    ([parseCrate] passes the size plus one). *)
Theorem sections_read_back (ts : list SectionTree) (fuel : nat) :
  Forall wfTree ts -> (length (encodeAll ts) < fuel)%nat ->
  CrateParser.parseSectionNodes fuel (CrateParser.rootSection (encodeAll ts))
  = OK (map nodeOf ts).
Proof.
  intros Hwf Hfuel. unfold CrateParser.parseSectionNodes.
  cbn [CrateParser.rootSection CrateParser.dataOffset].
  change 0 with (bufLen []) at 1.
  apply (parseSectionNodes_from_encodeAll (list_sum (map sections ts)) ts _ _ [] []);
    auto.
  - cbn. now rewrite app_nil_r.
  - pose proof (sections_le_encodeAll ts). lia.
Qed.

Lemma sections_read_back_witness :
  CrateParser.parseSectionNodes 100
    (CrateParser.rootSection
       (encodeAll
          [Container (list_byte_of_string "otrk")
             [StringLeaf (list_byte_of_string "ptrk") (str "a.mp3");
              Container (list_byte_of_string "osrt")
                [IntLeaf (list_byte_of_string "brev") [x01; x02]]]]))
  = OK [CrateParser.mkNode (str "otrk") CrateParser.VNull
          [CrateParser.mkNode (str "ptrk") (CrateParser.VString (str "a.mp3")) [];
           CrateParser.mkNode (str "osrt") CrateParser.VNull
             [CrateParser.mkNode (str "brev") (CrateParser.VNumber 513) []]]].
Proof.
  apply (sections_read_back
    [Container (list_byte_of_string "otrk")
       [StringLeaf (list_byte_of_string "ptrk") (str "a.mp3");
        Container (list_byte_of_string "osrt")
          [IntLeaf (list_byte_of_string "brev") [x01; x02]]]] 100).
  - repeat constructor; vm_compute; congruence.
  - vm_compute. lia.
Defined.

(** The string loop on a buffer that starts with the code units of [s]:
    they are read, and the loop goes on behind them. *)
Lemma parseString16_from_prefix (s : jsstring) :
  forall (v : DataView) (pre rest : list byte) (n : nat),
  wfView v -> viewBytes v = pre ++ utf16be s ++ rest ->
  Forall (fun c => 0 < c < 65536) s ->
  CrateParser.parseString16_from (length s + n) v (bufLen pre)
  = (chars <- CrateParser.parseString16_from n v
                (bufLen pre + bufLen (utf16be s)) ;;
     OK (s ++ chars)).
Proof.
  induction s as [|c s IH]; intros v pre rest n Hwf Hvb Hs.
  - cbn [length utf16be flat_map Nat.add app].
    replace (bufLen pre + bufLen []) with (bufLen pre)
      by (unfold bufLen; cbn [length]; lia).
    destruct (CrateParser.parseString16_from n v (bufLen pre)); reflexivity.
  - apply Forall_cons in Hs as [Hc Hs].
    pose proof (viewBytes_length v Hwf) as Hlen.
    rewrite Hvb, !bufLen_app, bufLen_utf16be in Hlen. cbn [length] in Hlen.
    pose proof (bufLen_nonneg pre) as Hpre.
    pose proof (bufLen_nonneg rest) as Hrest.
    cbn [length Nat.add CrateParser.parseString16_from]. unfold getUint16.
    rewrite getBytes_inside by (auto; lia).
    replace (take (Z.to_nat 2) (drop (Z.to_nat (bufLen pre)) (viewBytes v)))
      with (be16 c).
    2:{ rewrite Hvb. unfold bufLen. rewrite Nat2Z.id, drop_app_length.
        reflexivity. }
    cbn [bind]. rewrite beZ_be16 by lia.
    replace (c =? 0) with false by (symmetry; apply Z.eqb_neq; lia).
    replace (bufLen pre + 2) with (bufLen (pre ++ be16 c))
      by (rewrite bufLen_app; reflexivity).
    rewrite (IH v (pre ++ be16 c) rest n Hwf);
      [|rewrite Hvb, <- !app_assoc; reflexivity|exact Hs].
    replace (bufLen (pre ++ be16 c) + bufLen (utf16be s))
      with (bufLen pre + bufLen (utf16be (c :: s))).
    2:{ rewrite bufLen_app, !bufLen_utf16be. cbn [length]. unfold bufLen.
        cbn [be16 length]. lia. }
    destruct (CrateParser.parseString16_from n v _); cbn [bind]; try reflexivity.
    unfold fromCharCode. rewrite Z.mod_small by lia. reflexivity.
Qed.

(** X2. [parseString16] stops at the first zero code unit: what follows it in
    the section is not part of the string. *)
Theorem parseString16_stops_at_zero (s : jsstring) (rest : list byte)
  (v : DataView) :
  wfView v -> viewBytes v = utf16be s ++ [x00; x00] ++ rest ->
  Forall (fun c => 0 < c < 65536) s ->
  CrateParser.parseString16 v (byteLength v) = OK s.
Proof.
  intros Hwf Hvb Hs. unfold CrateParser.parseString16.
  pose proof (viewBytes_length v Hwf) as Hlen.
  rewrite Hvb, !bufLen_app, bufLen_utf16be in Hlen.
  pose proof (bufLen_nonneg rest) as Hrest.
  change (bufLen [x00; x00]) with 2 in Hlen.
  assert (Hn : exists k, Z.to_nat ((byteLength v + 1) / 2) = (length s + S k)%nat).
  { exists (Z.to_nat ((byteLength v + 1) / 2) - S (length s))%nat.
    assert (Z.of_nat (length s) + 1 <= (byteLength v + 1) / 2)
      by (apply Z.div_le_lower_bound; lia).
    lia. }
  destruct Hn as [k ->].
  change 0 with (bufLen []) at 1.
  rewrite (parseString16_from_prefix s v [] ([x00; x00] ++ rest) (S k) Hwf);
    [|exact Hvb|exact Hs].
  change (bufLen [] + bufLen (utf16be s)) with (bufLen (utf16be s)).
  cbn [CrateParser.parseString16_from]. unfold getUint16.
  rewrite getBytes_inside by (auto; rewrite ?bufLen_utf16be; lia).
  replace (take (Z.to_nat 2) (drop (Z.to_nat (bufLen (utf16be s)))
             (viewBytes v))) with [x00; x00].
  2:{ rewrite Hvb. unfold bufLen. rewrite Nat2Z.id, drop_app_length.
      reflexivity. }
  cbn [bind]. change (beZ [x00; x00] =? 0) with true. cbn [bind]. now rewrite app_nil_r.
Qed.

Lemma parseString16_stops_at_zero_witness :
  CrateParser.parseString16
    (wholeView [x00; x61; x00; x62; x00; x00; x00; x63]) 8 = OK (str "ab").
Proof.
  apply (parseString16_stops_at_zero (str "ab") [x00; x63]
           (wholeView [x00; x61; x00; x62; x00; x00; x00; x63])).
  - apply wholeView_wf.
  - reflexivity.
  - repeat constructor; vm_compute; congruence.
Defined.

(** X3. A string section of odd size whose complete code units are not zero is
    refused: the last iteration reads two bytes where one is left. *)
Theorem parseString16_odd_size (s : jsstring) (b : byte) (v : DataView) :
  wfView v -> viewBytes v = utf16be s ++ [b] ->
  Forall (fun c => 0 < c < 65536) s ->
  CrateParser.parseString16 v (byteLength v) = Throws RangeError.
Proof.
  intros Hwf Hvb Hs. unfold CrateParser.parseString16.
  pose proof (viewBytes_length v Hwf) as Hlen.
  rewrite Hvb, !bufLen_app, bufLen_utf16be in Hlen.
  change (bufLen [b]) with 1 in Hlen.
  replace (Z.to_nat ((byteLength v + 1) / 2)) with (length s + 1)%nat
    by (rewrite <- Hlen; Z.div_mod_to_equations; lia).
  change 0 with (bufLen []) at 1.
  rewrite (parseString16_from_prefix s v [] [b] 1 Hwf); [|exact Hvb|exact Hs].
  change (bufLen [] + bufLen (utf16be s)) with (bufLen (utf16be s)).
  cbn [CrateParser.parseString16_from]. unfold getUint16.
  rewrite getBytes_outside; [reflexivity|].
  right. rewrite bufLen_utf16be. lia.
Qed.

Lemma parseString16_odd_size_witness :
  CrateParser.parseString16 (wholeView [x00; x61; x00; x62; x00]) 5
  = Throws RangeError.
Proof.
  apply (parseString16_odd_size (str "ab") x00
           (wholeView [x00; x61; x00; x62; x00])).
  - apply wholeView_wf.
  - reflexivity.
  - repeat constructor; vm_compute; congruence.
Defined.

(** X4. [parseCrate] on files that hold no document: a missing file, an empty
    file, and a file whose first section header is cut short or declares more
    bytes than the file has. *)
Theorem parseCrate_no_document (fs : Util.FileSystem) (path : jsstring) :
  (fs path = None ->
   CrateParser.parseCrate fs path = Throws (FileDoesNotExist path))
  /\ (fs path = Some [] ->
      CrateParser.parseCrate fs path = Throws NoSectionsFound)
  /\ (forall data : list byte,
        fs path = Some data -> 0 < bufLen data ->
        bufLen data < 8 \/ bufLen data < 8 + declaredSize data 0 ->
        CrateParser.parseCrate fs path = Throws RangeError).
Proof.
  unfold CrateParser.parseCrate, Util.readFileToArrayBufferOrThrow.
  split; [|split].
  - intros ->. reflexivity.
  - intros ->. reflexivity.
  - intros data -> Hpos Hcut. cbn [bind].
    unfold CrateParser.parseSectionNodes.
    cbn [CrateParser.rootSection CrateParser.dataOffset
         CrateParser.parseSectionNodes_from CrateParser.dataSize
         CrateParser.data wholeView buffer].
    replace (0 <? 0 + bufLen data) with true by (symmetry; apply Z.ltb_lt; lia).
    rewrite parseSection_past_buffer by (rewrite Z.add_0_l; exact Hcut).
    reflexivity.
Qed.

(** X5. Whatever the file, [parseCrate] raises no other exception than these. *)
Theorem parseCrate_errors (fs : Util.FileSystem) (path : jsstring) (e : error) :
  CrateParser.parseCrate fs path = Throws e ->
  e = FileDoesNotExist path \/ e = RangeError \/ e = NoSectionsFound
  \/ (exists got, e = ExpectedNodeType (str "vrsn") got /\ got <> str "vrsn")
  \/ (exists got, e = UnsupportedCrateVersion got
                  /\ got <> CrateParser.crateVersion)
  \/ e = NodeTypeNotFound (str "ptrk").
Proof.
  unfold CrateParser.parseCrate, Util.readFileToArrayBufferOrThrow.
  destruct (fs path) as [data|]; cbn [bind];
    [|intros [= <-]; left; reflexivity].
  pose proof (parseSectionNodes_from_safe (S (length data))
                (CrateParser.rootSection data) 0) as Hsafe.
  pose proof (parseSectionNodes_from_stringTagged (S (length data))
                (CrateParser.rootSection data) 0) as Hstr.
  unfold CrateParser.parseSectionNodes. cbn [CrateParser.rootSection
    CrateParser.dataOffset].
  destruct (CrateParser.parseSectionNodes_from _ _ 0) as [nodes|e'|] eqn:E;
    cbn [bind].
  - destruct nodes as [|first rest]; [intros [= <-]; auto|].
    unfold CrateParser.expectNodeType.
    destruct (bool_decide (CrateParser.type first = str "vrsn")) eqn:Et;
      cbn [bind].
    2:{ intros [= <-]. do 3 right. left. eexists. split; [reflexivity|].
        now apply bool_decide_eq_false in Et. }
    apply bool_decide_eq_true in Et.
    destruct (bool_decide _) eqn:Ev.
    2:{ intros [= <-]. do 4 right. left. eexists. split; [reflexivity|].
        apply bool_decide_eq_false in Ev.
        specialize (Hstr _ eq_refl). apply Forall_cons in Hstr as [Hf _].
        destruct first as [ty val kids]. cbn [stringTagged] in Hf.
        destruct Hf as [Hf _].
        cbn [CrateParser.type CrateParser.value] in Et, Hf, Ev |- *. subst ty.
        destruct (Hf eq_refl) as [s ->]. cbn [CrateParser.asString].
        intros ->. now apply Ev. }
    destruct (CrateParser.collectTracks rest) as [tracks|e'|] eqn:Ec;
      cbn [bind]; try discriminate.
    intros [= <-]. do 5 right. clear -Ec.
    induction rest as [|n rest IH]; cbn [CrateParser.collectTracks] in Ec;
      [discriminate|].
    destruct (bool_decide _); [|auto].
    unfold CrateParser.findNodeOrThrow in Ec.
    destruct (CrateParser.findNode _ _); cbn [bind] in Ec; [|congruence].
    destruct (CrateParser.collectTracks rest); cbn [bind] in Ec;
      try discriminate. auto.
  - intros [= <-]. right. left.
    assert (Hs : returnsOrRangeError (@Throws CrateParser.NodeList e'))
      by (apply Hsafe; cbn; unfold bufLen; lia).
    destruct e'; cbn in Hs; try contradiction. reflexivity.
  - discriminate.
Qed.

Lemma parseCrate_errors_witness :
  UnsupportedCrateVersion [50; 46] = FileDoesNotExist (str "/s/Subcrates/A.crate")
  \/ UnsupportedCrateVersion [50; 46] = RangeError
  \/ UnsupportedCrateVersion [50; 46] = NoSectionsFound
  \/ (exists got, UnsupportedCrateVersion [50; 46]
                  = ExpectedNodeType (str "vrsn") got /\ got <> str "vrsn")
  \/ (exists got, UnsupportedCrateVersion [50; 46] = UnsupportedCrateVersion got
                  /\ got <> CrateParser.crateVersion)
  \/ UnsupportedCrateVersion [50; 46] = NodeTypeNotFound (str "ptrk").
Proof.
  apply (parseCrate_errors
           (fun _ => Some [x76; x72; x73; x6e; x00; x00; x00; x04;
                           x00; x32; x00; x2e])
           (str "/s/Subcrates/A.crate")).
  vm_compute. reflexivity.
Defined.

(** A container that holds no ['ptrk'] string has no ['ptrk'] node. *)
Lemma findNode_no_ptrk (subs : list SectionTree) :
  Forall wfTree subs -> head (omap ptrkOf subs) = None ->
  CrateParser.findNode (map nodeOf subs) (str "ptrk") = None.
Proof.
  intros Hwf. induction Hwf as [|t subs Ht _ IH]; [reflexivity|].
  unfold CrateParser.findNode. cbn [map find]. rewrite nodeOf_type.
  rewrite omap_cons_eq.
  destruct (bool_decide (tagOf t = str "ptrk")) eqn:E.
  - apply bool_decide_eq_true in E. intros Hhead. exfalso.
    inversion Ht as [tag s Htag Hstr Hs Hsize Heq
                    |tag payload Htag Hstr Hint Hsize Heq
                    |tag sub' Htag Hstr Hint Hsubs Hsize Heq]; subst t;
      cbn [tagOf] in E; try (rewrite E in *; discriminate).
    cbn [ptrkOf] in Hhead.
    rewrite bool_decide_eq_true_2 in Hhead by exact E. discriminate.
  - apply bool_decide_eq_false in E. intros Hhead.
    assert (Hnone : ptrkOf t = None).
    { destruct t; cbn [ptrkOf tagOf] in *; try reflexivity.
      now rewrite bool_decide_eq_false_2. }
    rewrite Hnone in Hhead. apply IH in Hhead. exact Hhead.
Qed.

Lemma collectTracks_without_path (items : list SectionTree) :
  Forall wfTree items ->
  Exists (fun e => trackPath e = None) (trackEntries items) ->
  CrateParser.collectTracks (map nodeOf items)
  = Throws (NodeTypeNotFound (str "ptrk")).
Proof.
  intros Hwf. unfold trackEntries.
  induction Hwf as [|t items Ht Hwf IH]; intros Hex.
  - rewrite filter_nil in Hex. inversion Hex.
  - cbn [map CrateParser.collectTracks]. rewrite nodeOf_type.
    destruct (decide (tagOf t = str "otrk")) as [E|E].
    + rewrite filter_cons_True in Hex by exact E.
      rewrite bool_decide_eq_true_2 by exact E.
      inversion Ht as [tag s Htag Hstr Hs Hsize Heq
                      |tag payload Htag Hstr Hint Hsize Heq
                      |tag subs Htag Hstr Hint Hsubs Hsize Heq]; subst t;
        cbn [tagOf] in E; rewrite E in *; try discriminate.
      cbn [nodeOf CrateParser.children]. unfold CrateParser.findNodeOrThrow.
      destruct (head (omap ptrkOf subs)) as [p|] eqn:Hp.
      * destruct (findNode_ptrk subs p Hsubs Hp) as (node & Hfind & _).
        rewrite Hfind. cbn [bind].
        apply Exists_cons in Hex as [Hex|Hex];
          [cbn [trackPath] in Hex; congruence|].
        rewrite (IH Hex). reflexivity.
      * rewrite (findNode_no_ptrk subs Hsubs Hp). reflexivity.
    + rewrite filter_cons_False in Hex by exact E.
      rewrite bool_decide_eq_false_2 by exact E. apply IH, Hex.
Qed.

(** X6. One track entry without a ['ptrk'] string makes the whole crate fail:
    no crate is returned with the other tracks. *)
Theorem track_entry_without_path (fs : Util.FileSystem) (path : jsstring)
  (items : list SectionTree) :
  fs path = Some (encodeAll (versionSection :: items)) ->
  Forall wfTree items ->
  Exists (fun e => trackPath e = None) (trackEntries items) ->
  CrateParser.parseCrate fs path = Throws (NodeTypeNotFound (str "ptrk")).
Proof.
  intros Hfs Hwf Hex.
  unfold CrateParser.parseCrate, Util.readFileToArrayBufferOrThrow.
  rewrite Hfs. cbn [bind].
  rewrite parseSectionNodes_encodeAll
    by (constructor; [apply versionSection_wf|exact Hwf]).
  cbn [bind map]. unfold CrateParser.expectNodeType.
  rewrite nodeOf_type.
  rewrite bool_decide_eq_true_2 by reflexivity. cbn [bind].
  rewrite bool_decide_eq_true_2 by reflexivity.
  rewrite (collectTracks_without_path items Hwf Hex). reflexivity.
Qed.

Lemma track_entry_without_path_witness :
  CrateParser.parseCrate
    (fun _ => Some (encodeAll
       [versionSection;
        Container (list_byte_of_string "otrk")
          [StringLeaf (list_byte_of_string "ptrk") (str "a.mp3")];
        Container (list_byte_of_string "otrk")
          [IntLeaf (list_byte_of_string "brev") [x01]]]))
    (str "/s/Subcrates/A.crate")
  = Throws (NodeTypeNotFound (str "ptrk")).
Proof.
  apply (track_entry_without_path _ _
    [Container (list_byte_of_string "otrk")
       [StringLeaf (list_byte_of_string "ptrk") (str "a.mp3")];
     Container (list_byte_of_string "otrk")
       [IntLeaf (list_byte_of_string "brev") [x01]]] eq_refl).
  - repeat constructor; vm_compute; congruence.
  - unfold trackEntries. rewrite filter_cons_True by reflexivity.
    rewrite filter_cons_True by reflexivity.
    apply Exists_cons_tl, Exists_cons_hd. reflexivity.
Defined.

(** ** [crateParser.ts]: the crate name *)

(** [split] on a doubled character, over segments that do not hold it. *)
Lemma split_go_pair_first (c : Z) (seg : jsstring) :
  forall cur rest : jsstring, c ∉ seg ->
  split_go [c; c] O cur (seg ++ c :: c :: rest)
  = (rev cur ++ seg) :: split_go [c; c] O [] rest.
Proof.
  induction seg as [|x seg IH]; intros cur rest Hc.
  - cbn [app split_go length take].
    rewrite bool_decide_eq_true_2 by reflexivity.
    cbn [pred split_go]. now rewrite app_nil_r.
  - rewrite not_elem_of_cons in Hc. destruct Hc as [Hx Hseg].
    cbn [app split_go length].
    rewrite bool_decide_eq_false_2
      by (cbn [take]; intros [= ? _]; congruence).
    rewrite IH by exact Hseg. cbn [rev]. now rewrite <- app_assoc.
Qed.

Lemma split_go_pair_absent (c : Z) (s : jsstring) :
  forall cur : jsstring, c ∉ s -> split_go [c; c] O cur s = [rev cur ++ s].
Proof.
  induction s as [|x s IH]; intros cur Hc.
  - cbn. now rewrite app_nil_r.
  - rewrite not_elem_of_cons in Hc. destruct Hc as [Hx Hs].
    cbn [split_go length].
    rewrite bool_decide_eq_false_2
      by (cbn [take]; intros [= ? _]; congruence).
    rewrite IH by exact Hs. cbn [rev]. now rewrite <- app_assoc.
Qed.

Lemma split_join_pair (c : Z) (segments : list jsstring) :
  segments <> [] -> Forall (fun seg => c ∉ seg) segments ->
  split [c; c] (join [c; c] segments) = segments.
Proof.
  intros Hne Hc. unfold split.
  induction Hc as [|seg rest Hseg Hrest IH]; [congruence|].
  destruct rest as [|seg' rest].
  - cbn [join]. now rewrite split_go_pair_absent.
  - cbn [join]. cbn [join] in IH. change ([c; c] ++ ?l) with (c :: c :: l).
    rewrite split_go_pair_first by exact Hseg.
    cbn [rev app]. f_equal. apply IH. discriminate.
Qed.

Lemma join_not_elem (c : Z) (sep : jsstring) (segments : list jsstring) :
  c ∉ sep -> Forall (fun seg => c ∉ seg) segments -> c ∉ join sep segments.
Proof.
  intros Hsep Hc. induction Hc as [|seg rest Hseg Hrest IH].
  - apply not_elem_of_nil.
  - destruct rest as [|seg' rest]; [exact Hseg|].
    cbn [join]. cbn [join] in IH. rewrite !not_elem_of_app. auto.
Qed.

(** The name of a crate that [parseCrate] returns comes from the path
    alone. *)
Lemma parseCrate_OK_name (fs : Util.FileSystem) (path : jsstring)
  (crate : CrateParser.Crate) :
  CrateParser.parseCrate fs path = OK crate ->
  CrateParser.name crate
  = split (str "%%") (CrateParser.filenameWithoutExtension path).
Proof.
  unfold CrateParser.parseCrate. intros H.
  apply bind_OK in H as (data & _ & H).
  apply bind_OK in H as (nodes & _ & H).
  destruct nodes as [|first rest]; [discriminate|].
  apply bind_OK in H as (version & _ & H).
  destruct (bool_decide _); [|discriminate].
  apply bind_OK in H as (tracks & _ & H).
  injection H as <-. reflexivity.
Qed.

(** The file name is cut at its first ['.']. *)
Lemma filenameWithoutExtension_first_dot (dir stem rest : jsstring) :
  47 ∉ stem -> 46 ∉ stem -> 47 ∉ rest ->
  CrateParser.filenameWithoutExtension
    (dir ++ str "/" ++ stem ++ str "." ++ rest)
  = stem.
Proof.
  intros Hslash Hdot Hrest. unfold CrateParser.filenameWithoutExtension, split.
  change (str "/") with [47]. change (str ".") with [46]. cbn [app].
  rewrite split_go_char_last.
  - rewrite split_go_char_first by exact Hdot. reflexivity.
  - rewrite not_elem_of_app, not_elem_of_cons.
    repeat split; auto; discriminate.
Qed.

(** X7. A crate file [A%%B%%C.crate] is named by the hierarchy [A], [B], [C]:
    the segments between the ['%%'] separators of the file name up to its
    first ['.'], as long as no segment holds a ['%'], a ['.'] or a ['/'];
    what follows the first ['.'] of the file name is dropped, whatever it
    is. *)
Theorem crate_name_hierarchy (fs : Util.FileSystem) (dir rest : jsstring)
  (segments : list jsstring) (crate : CrateParser.Crate) :
  segments <> [] ->
  Forall (fun seg => (37 ∉ seg) /\ (46 ∉ seg) /\ (47 ∉ seg)) segments ->
  47 ∉ rest ->
  CrateParser.parseCrate fs
    (dir ++ str "/" ++ join (str "%%") segments ++ str "." ++ rest) = OK crate ->
  CrateParser.name crate = segments.
Proof.
  intros Hne Hsegs Hrest Hcrate.
  rewrite (parseCrate_OK_name _ _ _ Hcrate).
  assert (H37 : Forall (fun seg : jsstring => 37 ∉ seg) segments)
    by (eapply Forall_impl; [exact Hsegs|]; cbn; tauto).
  assert (H46 : Forall (fun seg : jsstring => 46 ∉ seg) segments)
    by (eapply Forall_impl; [exact Hsegs|]; cbn; tauto).
  assert (H47 : Forall (fun seg : jsstring => 47 ∉ seg) segments)
    by (eapply Forall_impl; [exact Hsegs|]; cbn; tauto).
  rewrite filenameWithoutExtension_first_dot.
  - change (str "%%") with [37; 37]. now apply split_join_pair.
  - apply join_not_elem; [|exact H47].
    apply (bool_decide_unpack _). vm_compute. exact I.
  - apply join_not_elem; [|exact H46].
    apply (bool_decide_unpack _). vm_compute. exact I.
  - exact Hrest.
Qed.

Lemma crate_name_hierarchy_witness :
  exists crate,
    CrateParser.parseCrate (fun _ => Some (encodeAll [versionSection]))
      (str "/Serato/Subcrates/House%%Deep%%2024.crate") = OK crate
    /\ CrateParser.name crate = [str "House"; str "Deep"; str "2024"].
Proof.
  eexists. split; [vm_compute; reflexivity|].
  apply (crate_name_hierarchy (fun _ => Some (encodeAll [versionSection]))
           (str "/Serato/Subcrates") (str "crate")
           [str "House"; str "Deep"; str "2024"]).
  - discriminate.
  - repeat constructor; apply (bool_decide_unpack _); vm_compute; exact I.
  - apply (bool_decide_unpack _). vm_compute. exact I.
  - vm_compute. reflexivity.
Defined.

(** ** [trackMetaDataParser.ts]: strings, Markers2 elements, beat grid *)

(** X8. [readNullTerminatedString] needs its terminator inside the view: the
    loop reads the byte before it tests the bound, so a string that runs to
    the end of the view raises [RangeError]; otherwise the bytes before the
    first NUL are decoded. *)
Theorem readNullTerminatedString_terminator (v : DataView) (off : Z) :
  wfView v -> 0 <= off ->
  (x00 ∉ drop (Z.to_nat off) (viewBytes v) ->
   TrackMetaDataParser.readNullTerminatedString v off = Throws RangeError)
  /\ (forall s rest : list byte,
        drop (Z.to_nat off) (viewBytes v) = s ++ x00 :: rest -> x00 ∉ s ->
        TrackMetaDataParser.readNullTerminatedString v off
        = OK (TrackMetaDataParser.textDecode s)).
Proof.
  intros Hwf Hoff. rewrite readNullTerminatedString_bytes by auto. split.
  - intros Hno. now rewrite bool_decide_eq_false_2.
  - intros s rest -> Hs.
    rewrite bool_decide_eq_true_2
      by (rewrite elem_of_app, elem_of_cons; auto).
    now rewrite cstring_terminated.
Qed.

Lemma readNullTerminatedString_terminator_witness :
  TrackMetaDataParser.readNullTerminatedString (wholeView [x41; x42]) 0
  = Throws RangeError
  /\ TrackMetaDataParser.readNullTerminatedString
       (wholeView [x41; x42; x00; x43]) 0 = OK (str "AB").
Proof.
  split.
  - apply (readNullTerminatedString_terminator (wholeView [x41; x42]) 0
             (wholeView_wf _)); [lia|].
    apply (bool_decide_unpack _). vm_compute. exact I.
  - apply (proj2 (readNullTerminatedString_terminator
                    (wholeView [x41; x42; x00; x43]) 0 (wholeView_wf _)
                    (Z.le_refl 0)) [x41; x42] [x43]); [reflexivity|].
    apply (bool_decide_unpack _). vm_compute. exact I.
Defined.

(** *** Which exceptions the Markers2 decoder raises *)

Lemma nullTerminatedLength_error (n : nat) (view : DataView) (offset : Z) :
  forall (length : Z) (e : error),
  TrackMetaDataParser.nullTerminatedLength n view offset length = Throws e ->
  e = RangeError.
Proof.
  induction n as [|n IH]; intros length e;
    cbn [TrackMetaDataParser.nullTerminatedLength];
    pose proof (getUint8_safe view (offset + length)) as Hs;
    destruct (getUint8 view (offset + length)) as [b|e'|]; cbn [bind];
    try discriminate;
    try (intros [= <-]; destruct e'; cbn in Hs; try contradiction; reflexivity).
  - destruct (_ && _); discriminate.
  - destruct (_ && _); [apply IH|discriminate].
Qed.

Lemma readNullTerminatedString_error (view : DataView) (offset : Z) (e : error) :
  TrackMetaDataParser.readNullTerminatedString view offset = Throws e ->
  e = RangeError.
Proof.
  unfold TrackMetaDataParser.readNullTerminatedString,
    TrackMetaDataParser.readNullTerminatedBytes.
  destruct (TrackMetaDataParser.nullTerminatedLength _ _ _ _) eqn:E;
    cbn [bind]; try discriminate.
  intros [= <-]. eapply nullTerminatedLength_error, E.
Qed.

Lemma safe_error {A : Type} (r : result A) (e : error) :
  returnsOrRangeError r -> r = Throws e -> e = RangeError.
Proof. intros Hs ->. destruct e; cbn in Hs; try contradiction; reflexivity. Qed.

Lemma bind_error {A B : Type} (c : result A) (k : A -> result B) (e : error) :
  bind c k = Throws e ->
  c = Throws e \/ exists a, c = OK a /\ k a = Throws e.
Proof.
  destruct c as [a|e'|]; cbn [bind]; intros H.
  - right. exists a. split; [reflexivity|exact H].
  - left. injection H as ->. reflexivity.
  - discriminate.
Qed.

Lemma applyElement_error (r : TrackMetaDataParser.SeratorMarker2Data)
  (element : TrackMetaDataParser.Element) (e : error) :
  TrackMetaDataParser.applyElement r element = Throws e -> e = RangeError.
Proof.
  unfold TrackMetaDataParser.applyElement.
  repeat (destruct (bool_decide _)); intros H;
    repeat (apply bind_error in H as [H|(? & _ & H)];
            [first [eapply safe_error; [apply getUint8_safe|exact H]
                   |eapply safe_error; [apply getUint32_safe|exact H]
                   |eapply readNullTerminatedString_error, H]|]);
    discriminate.
Qed.

Lemma applyElements_error (elements : list TrackMetaDataParser.Element) :
  forall (r : TrackMetaDataParser.SeratorMarker2Data) (e : error),
  TrackMetaDataParser.applyElements r elements = Throws e -> e = RangeError.
Proof.
  induction elements as [|element rest IH]; intros r e;
    cbn [TrackMetaDataParser.applyElements]; [discriminate|].
  intros H. apply bind_error in H as [H|(r' & _ & H)].
  - eapply applyElement_error, H.
  - eapply IH, H.
Qed.

Lemma readElements_error (n : nat) (view : DataView) :
  forall (offset : Z) (e : error),
  TrackMetaDataParser.readElements n view offset = Throws e -> e = RangeError.
Proof.
  induction n as [|n IH]; intros offset e;
    cbn [TrackMetaDataParser.readElements];
    (destruct (offset <? byteLength view); [|discriminate]); intros H;
    (apply bind_error in H as [H|(name & _ & H)];
      [eapply readNullTerminatedString_error, H|]);
    (destruct (bool_decide (name = [])); [discriminate|]);
    (apply bind_error in H as [H|(len & _ & H)];
      [eapply safe_error; [apply getUint32_safe|exact H]|]);
    (apply bind_error in H as [H|(data & _ & H)];
      [eapply safe_error; [apply newDataView_safe|exact H]|]).
  - discriminate.
  - apply bind_error in H as [H|(es & _ & H)]; [eapply IH, H|discriminate].
Qed.

Lemma header_take (payload : list byte) :
  bool_decide (payload !! 0%nat = Some x01)
  && bool_decide (payload !! 1%nat = Some x01) = true
  <-> take 2 payload = [x01; x01].
Proof.
  rewrite andb_true_iff, !bool_decide_eq_true.
  destruct payload as [|a [|b rest]]; cbn; split; intros H;
    try (destruct H; discriminate); try discriminate.
  - destruct H as [[= ->] [= ->]]. reflexivity.
  - injection H as -> ->. auto.
Qed.

(** X9. [parseSeratorMarkers2] raises [RangeError] or the header error and
    nothing else; the header error is raised exactly when the base64 string
    was read and the decoded payload does not start with the bytes 01 01 (a
    payload shorter than two bytes included). *)
Theorem parseSeratorMarkers2_errors (decodeBase64 : jsstring -> list byte)
  (view : DataView) :
  (forall e : error,
     TrackMetaDataParser.parseSeratorMarkers2 decodeBase64 view = Throws e ->
     e = RangeError \/ e = InvalidMarkersHeader)
  /\ (TrackMetaDataParser.parseSeratorMarkers2 decodeBase64 view
      = Throws InvalidMarkersHeader
      <-> exists base64String,
            TrackMetaDataParser.readNullTerminatedString view 0
            = OK base64String
            /\ take 2 (decodeBase64 base64String) <> [x01; x01]).
Proof.
  assert (Hpayload : forall payload e,
    TrackMetaDataParser.parseMarkers2Payload payload = Throws e ->
    (take 2 payload = [x01; x01] /\ e = RangeError)
    \/ (take 2 payload <> [x01; x01] /\ e = InvalidMarkersHeader)).
  { intros payload e. unfold TrackMetaDataParser.parseMarkers2Payload.
    pose proof (header_take payload) as Hh.
    destruct (_ && _).
    - intros H. left. split; [now apply Hh|].
      apply bind_error in H as [H|(es & _ & H)].
      + eapply readElements_error, H.
      + eapply applyElements_error, H.
    - intros [= <-]. right. split; [|reflexivity].
      intros Ht. apply Hh in Ht. discriminate. }
  unfold TrackMetaDataParser.parseSeratorMarkers2. split.
  - intros e H. apply bind_error in H as [H|(s & _ & H)].
    + left. eapply readNullTerminatedString_error, H.
    + apply Hpayload in H as [[_ ->]|[_ ->]]; auto.
  - split.
    + intros H. apply bind_error in H as [H|(s & Hs & H)].
      * apply readNullTerminatedString_error in H. discriminate.
      * exists s. split; [exact Hs|].
        apply Hpayload in H as [[_ H]|[H _]]; [discriminate|exact H].
    + intros (s & -> & Hbad). cbn [bind].
      unfold TrackMetaDataParser.parseMarkers2Payload.
      pose proof (header_take (decodeBase64 s)) as Hh.
      destruct (_ && _); [|reflexivity].
      exfalso. apply Hbad. now apply Hh.
Qed.

(** *** Which elements the Markers2 decoder can read *)

Lemma getUint8_inside (v : DataView) (i : Z) :
  wfView v -> 0 <= i < byteLength v ->
  getUint8 v i = OK (byteAt (viewBytes v) (Z.to_nat i)).
Proof.
  intros Hwf Hi. rewrite getUint8_bytes by (auto; lia).
  pose proof (viewBytes_length v Hwf) as Hlen. unfold bufLen in Hlen.
  destruct (lookup_lt_is_Some_2 (viewBytes v) (Z.to_nat i)) as [b Hb]; [lia|].
  rewrite Hb. unfold byteAt. now rewrite (nth_lookup_Some _ _ _ _ Hb).
Qed.

Lemma getUint8_OK_inside (v : DataView) (i z : Z) :
  getUint8 v i = OK z -> 0 <= i < byteLength v.
Proof.
  unfold getUint8. intros H.
  destruct (getBytes_cases v i 1) as [E|(bs & E & _ & ? & ?)];
    rewrite E in H; [discriminate|lia].
Qed.

Lemma drop_elem_length (k : nat) (data : list byte) :
  x00 ∈ drop k data -> Z.of_nat k < bufLen data.
Proof.
  intros Hin. unfold bufLen.
  destruct (decide (k < length data)%nat) as [|Hge]; [lia|].
  rewrite drop_ge in Hin by lia. now apply elem_of_nil in Hin.
Qed.

(** An element that is long enough is decoded; its loop entry and its lock
    flag are read at the positions of the layout. *)
Lemma applyElement_long (r : TrackMetaDataParser.SeratorMarker2Data)
  (e : RawElement) :
  elementDecodes e = true ->
  exists r',
    TrackMetaDataParser.applyElement r (elementOf e) = OK r'
    /\ TrackMetaDataParser.m2loopEntries r'
       = TrackMetaDataParser.m2loopEntries r
         ++ (if decide (elementName e = str "LOOP")
             then [loopOf (rawData e)] else [])
    /\ TrackMetaDataParser.m2bpmLock r'
       = (if decide (elementName e = str "BPMLOCK")
          then Some (bpmLockOf (rawData e))
          else TrackMetaDataParser.m2bpmLock r).
Proof.
  pose proof (wholeView_wf (rawData e)) as Hwf.
  pose proof (wholeView_bytes (rawData e)) as Hvb.
  unfold elementDecodes, TrackMetaDataParser.applyElement, elementOf.
  cbn [TrackMetaDataParser.elName TrackMetaDataParser.elData].
  assert (Hname : str "COLOR" <> str "LOOP" /\ str "COLOR" <> str "BPMLOCK"
                  /\ str "CUE" <> str "LOOP" /\ str "CUE" <> str "BPMLOCK"
                  /\ str "LOOP" <> str "BPMLOCK")
    by (repeat split; discriminate).
  destruct Hname as (N1 & N2 & N3 & N4 & N5).
  destruct (bool_decide (elementName e = str "COLOR")) eqn:E1.
  { apply bool_decide_eq_true in E1. intros Hlen. apply Z.leb_le in Hlen.
    rewrite !getUint8_inside by (auto; cbn [wholeView byteLength]; lia).
    cbn [bind]. eexists. split; [reflexivity|].
    cbn [TrackMetaDataParser.m2loopEntries TrackMetaDataParser.m2bpmLock].
    rewrite !decide_False by congruence. now rewrite app_nil_r. }
  apply bool_decide_eq_false in E1.
  destruct (bool_decide (elementName e = str "CUE")) eqn:E2.
  { apply bool_decide_eq_true in E2. intros Hnul.
    apply bool_decide_eq_true in Hnul.
    pose proof (drop_elem_length 12 _ Hnul) as Hlen.
    rewrite !getUint8_inside by (auto; cbn [wholeView byteLength]; lia).
    rewrite getUint32_bytes by (auto; lia).
    rewrite readNullTerminatedString_bytes by (auto; lia).
    rewrite Hvb.
    replace (2 + 4 <=? bufLen (rawData e)) with true
      by (symmetry; apply Z.leb_le; lia).
    change (Z.to_nat 12) with 12%nat.
    rewrite bool_decide_eq_true_2 by exact Hnul.
    cbn [bind]. eexists. split; [reflexivity|].
    cbn [TrackMetaDataParser.m2loopEntries TrackMetaDataParser.m2bpmLock].
    rewrite !decide_False by congruence. now rewrite app_nil_r. }
  apply bool_decide_eq_false in E2.
  destruct (bool_decide (elementName e = str "LOOP")) eqn:E3.
  { apply bool_decide_eq_true in E3. intros Hnul.
    apply bool_decide_eq_true in Hnul.
    pose proof (drop_elem_length 20 _ Hnul) as Hlen.
    rewrite !getUint8_inside by (auto; cbn [wholeView byteLength]; lia).
    rewrite !getUint32_bytes by (auto; lia).
    rewrite readNullTerminatedString_bytes by (auto; lia).
    rewrite Hvb.
    replace (2 + 4 <=? bufLen (rawData e)) with true
      by (symmetry; apply Z.leb_le; lia).
    replace (6 + 4 <=? bufLen (rawData e)) with true
      by (symmetry; apply Z.leb_le; lia).
    change (Z.to_nat 20) with 20%nat.
    rewrite bool_decide_eq_true_2 by exact Hnul.
    cbn [bind]. eexists. split; [reflexivity|].
    cbn [TrackMetaDataParser.m2loopEntries TrackMetaDataParser.m2bpmLock].
    rewrite decide_True by exact E3. rewrite decide_False by congruence.
    split; reflexivity. }
  apply bool_decide_eq_false in E3.
  destruct (bool_decide (elementName e = str "BPMLOCK")) eqn:E4.
  { apply bool_decide_eq_true in E4. intros Hlen. apply Z.leb_le in Hlen.
    rewrite !getUint8_inside by (auto; cbn [wholeView byteLength]; lia).
    rewrite Hvb. cbn [bind]. eexists. split; [reflexivity|].
    cbn [TrackMetaDataParser.m2loopEntries TrackMetaDataParser.m2bpmLock].
    rewrite decide_False by congruence. rewrite decide_True by exact E4.
    rewrite app_nil_r. split; reflexivity. }
  apply bool_decide_eq_false in E4. intros _.
  eexists. split; [reflexivity|].
  rewrite !decide_False by congruence. now rewrite app_nil_r.
Qed.

(** An element that is too short is not decoded. *)
Lemma applyElement_short (r : TrackMetaDataParser.SeratorMarker2Data)
  (e : RawElement) :
  elementDecodes e = false ->
  TrackMetaDataParser.applyElement r (elementOf e) = Throws RangeError.
Proof.
  intros Hshort.
  pose proof (wholeView_wf (rawData e)) as Hwf.
  pose proof (applyElement_terminates r (elementOf e) Hwf) as Hterm.
  pose proof (applyElement_error r (elementOf e)) as Herr.
  destruct (TrackMetaDataParser.applyElement r (elementOf e)) as [r'|err|] eqn:E.
  - exfalso. revert E Hshort.
    unfold elementDecodes, TrackMetaDataParser.applyElement, elementOf.
    cbn [TrackMetaDataParser.elName TrackMetaDataParser.elData].
    destruct (bool_decide (elementName e = str "COLOR")).
    { intros H Hlen. apply Z.leb_gt in Hlen.
      apply bind_OK in H as (? & _ & H). apply bind_OK in H as (? & _ & H).
      apply bind_OK in H as (? & _ & H). apply bind_OK in H as (? & Hb & H).
      apply getUint8_OK_inside in Hb. cbn [wholeView byteLength] in Hb. lia. }
    destruct (bool_decide (elementName e = str "CUE")).
    { intros H Hnul. apply bool_decide_eq_false in Hnul.
      do 5 (apply bind_OK in H as (? & _ & H)).
      apply bind_OK in H as (nm & Hnm & H).
      rewrite readNullTerminatedString_bytes in Hnm by (auto; lia).
      rewrite wholeView_bytes in Hnm. change (Z.to_nat 12) with 12%nat in Hnm.
      rewrite bool_decide_eq_false_2 in Hnm by exact Hnul. discriminate. }
    destruct (bool_decide (elementName e = str "LOOP")).
    { intros H Hnul. apply bool_decide_eq_false in Hnul.
      do 8 (apply bind_OK in H as (? & _ & H)).
      apply bind_OK in H as (nm & Hnm & H).
      rewrite readNullTerminatedString_bytes in Hnm by (auto; lia).
      rewrite wholeView_bytes in Hnm. change (Z.to_nat 20) with 20%nat in Hnm.
      rewrite bool_decide_eq_false_2 in Hnm by exact Hnul. discriminate. }
    destruct (bool_decide (elementName e = str "BPMLOCK")).
    { intros H Hlen. apply Z.leb_gt in Hlen.
      apply bind_OK in H as (? & Hb & H).
      apply getUint8_OK_inside in Hb. cbn [wholeView byteLength] in Hb. lia. }
    discriminate.
  - f_equal. now apply Herr.
  - exfalso. now apply Hterm.
Qed.

Lemma applyElements_decodes (es : list RawElement) :
  forall r : TrackMetaDataParser.SeratorMarker2Data,
  (forallb elementDecodes es = false ->
   TrackMetaDataParser.applyElements r (map elementOf es) = Throws RangeError)
  /\ (forallb elementDecodes es = true ->
      exists res,
        TrackMetaDataParser.applyElements r (map elementOf es) = OK res
        /\ TrackMetaDataParser.m2loopEntries res
           = TrackMetaDataParser.m2loopEntries r
             ++ map (fun e => loopOf (rawData e))
                  (filter (fun e => elementName e = str "LOOP") es)
        /\ TrackMetaDataParser.m2bpmLock res
           = match last (filter (fun e => elementName e = str "BPMLOCK") es) with
             | Some e => Some (bpmLockOf (rawData e))
             | None => TrackMetaDataParser.m2bpmLock r
             end).
Proof.
  induction es as [|e es IH]; intros r.
  - split; [discriminate|]. intros _. exists r. cbn. rewrite app_nil_r. auto.
  - cbn [forallb map TrackMetaDataParser.applyElements].
    destruct (elementDecodes e) eqn:He; cbn [andb].
    + destruct (applyElement_long r e He) as (r' & Hr' & Hloops & Hlock).
      rewrite Hr'. cbn [bind]. destruct (IH r') as [IHf IHt]. split; [exact IHf|].
      intros Hall. destruct (IHt Hall) as (res & Hres & Hl & Hk).
      exists res. split; [exact Hres|]. rewrite Hl, Hk, Hloops, Hlock. split.
      * destruct (decide (elementName e = str "LOOP")) as [E|E].
        -- rewrite filter_cons_True by exact E. cbn [map].
           now rewrite <- app_assoc.
        -- rewrite filter_cons_False by exact E. now rewrite app_nil_r.
      * destruct (decide (elementName e = str "BPMLOCK")) as [E|E].
        -- rewrite filter_cons_True by exact E. rewrite last_cons.
           destruct (last _); reflexivity.
        -- rewrite filter_cons_False by exact E. reflexivity.
    + rewrite applyElement_short by exact He. split; [reflexivity|discriminate].
Qed.

(** X10. A Markers2 payload is decoded exactly when every element is long
    enough for what the decoder reads of it (4 bytes of a [COLOR], 1 byte of a
    [BPMLOCK], a NUL at or after byte 12 of a [CUE] and byte 20 of a [LOOP]);
    one element that is too short makes the whole payload fail with
    [RangeError]. When it is decoded, the loops are those of the [LOOP]
    elements in order and the lock flag is that of the last [BPMLOCK] element,
    [false] when there is none. *)
Theorem markers2_decodes (es : list RawElement) (tail : list byte) :
  Forall wfElement es ->
  tail = [] \/ (exists t, tail = x00 :: t) ->
  (forallb elementDecodes es = false ->
   TrackMetaDataParser.parseMarkers2Payload (markers2Payload es tail)
   = Throws RangeError)
  /\ (forallb elementDecodes es = true ->
      exists res,
        TrackMetaDataParser.parseMarkers2Payload (markers2Payload es tail)
        = OK res
        /\ TrackMetaDataParser.m2loopEntries res
           = map (fun e => loopOf (rawData e))
               (filter (fun e => elementName e = str "LOOP") es)
        /\ TrackMetaDataParser.m2bpmLock res
           = Some (match last (filter (fun e => elementName e = str "BPMLOCK")
                                 es) with
                   | Some e => bpmLockOf (rawData e)
                   | None => false
                   end)).
Proof.
  intros Hwf Htail. rewrite parseMarkers2Payload_elements by auto.
  destruct (applyElements_decodes es TrackMetaDataParser.emptyMarker2Data)
    as [Hf Ht].
  split; [exact Hf|]. intros Hall.
  destruct (Ht Hall) as (res & Hres & Hl & Hk). exists res.
  split; [exact Hres|]. rewrite Hl, Hk. cbn. split; [reflexivity|].
  destruct (last _); reflexivity.
Qed.

Lemma markers2_decodes_witness :
  TrackMetaDataParser.parseMarkers2Payload
    (markers2Payload
       [mkRawElement (list_byte_of_string "BPMLOCK") [x01];
        mkRawElement (list_byte_of_string "COLOR") [xff; x00; xff]]
       [x00]) = Throws RangeError
  /\ exists res,
       TrackMetaDataParser.parseMarkers2Payload
         (markers2Payload
            [mkRawElement (list_byte_of_string "BPMLOCK") [x01];
             mkRawElement (list_byte_of_string "LOOP")
               ([x00; x03; x00; x00; x03; xe8; x00; x00; x07; xd0;
                 xff; xff; xff; xff; x00; x27; xaa; xe1; x00; x01]
                ++ list_byte_of_string "Drop" ++ [x00])]
            []) = OK res
       /\ TrackMetaDataParser.m2loopEntries res
          = [TrackMetaDataParser.mkLoopEntry 3 1000 2000 (0, 39, 170, 225)
               true (str "Drop")]
       /\ TrackMetaDataParser.m2bpmLock res = Some true.
Proof.
  split.
  - apply (markers2_decodes
      [mkRawElement (list_byte_of_string "BPMLOCK") [x01];
       mkRawElement (list_byte_of_string "COLOR") [xff; x00; xff]] [x00]).
    + repeat constructor; try (vm_compute; congruence).
    + right. eexists. reflexivity.
    + vm_compute. reflexivity.
  - destruct (markers2_decodes
      [mkRawElement (list_byte_of_string "BPMLOCK") [x01];
       mkRawElement (list_byte_of_string "LOOP")
         ([x00; x03; x00; x00; x03; xe8; x00; x00; x07; xd0;
           xff; xff; xff; xff; x00; x27; xaa; xe1; x00; x01]
          ++ list_byte_of_string "Drop" ++ [x00])] []) as [_ H].
    + repeat constructor; try (vm_compute; congruence).
    + left. reflexivity.
    + destruct H as (res & Hres & Hl & Hk); [vm_compute; reflexivity|].
      exists res. split; [exact Hres|]. rewrite Hl, Hk.
      split; vm_compute; reflexivity.
Defined.

(** *** Colour, cue points and unrecognized elements *)

(** C7, the claim as stated, on a payload that passes the check of the
    header 01 01: an element whose name is not recognized, here the three
    bytes 4E C3 A9 (the letter N and the two-byte UTF-8 letter e acute), is
    followed by a [COLOR] element of four bytes.  The loop advances by the
    length of the decoded name, two characters, not by the three bytes of
    the name, and loses the frame: the colour is not decoded.  Without the
    unrecognized element it is; so that element alters the value decoded
    from the other one. *)
Lemma element_name_not_ascii :
  let unknown := mkRawElement [x4e; xc3; xa9] [x01; x02; x03; x04] in
  let color :=
    mkRawElement (list_byte_of_string "COLOR") [xff; x00; xff; x80] in
  take 2 (markers2Payload [unknown; color] [x00]) = [x01; x01]
  /\ ~ knownElement unknown
  /\ TrackMetaDataParser.parseMarkers2Payload
       (markers2Payload [color] [x00])
     = OK (TrackMetaDataParser.mkMarker2Data (Some (255, 0, 255, 128)) [] []
             (Some false))
  /\ TrackMetaDataParser.parseMarkers2Payload
       (markers2Payload [unknown; color] [x00])
     = OK (TrackMetaDataParser.mkMarker2Data None [] [] (Some false)).
Proof.
  cbv zeta. split; [reflexivity|]. split.
  - unfold knownElement. rewrite !not_elem_of_cons.
    repeat split; try (vm_compute; congruence). apply not_elem_of_nil.
  - split; vm_compute; reflexivity.
Qed.

(** C7 (amended).  For every Markers2 inner payload that starts with the
    header 01 01 and continues with framed elements (a NUL-terminated ASCII
    name that is not empty, a big-endian u32 length, that many bytes of
    data), up to the end of the payload or to an empty name:
    - the elements whose name is not recognized are ignored: the decoder
      does on the payload exactly what it does on the payload without them,
      so they raise no error and alter no value;
    - when every element is long enough for what the decoder reads of it
      (4 bytes of a [COLOR], 1 byte of a [BPMLOCK], a NUL at or after byte 12
      of a [CUE] and byte 20 of a [LOOP]), the payload is decoded; the colour
      is then the four bytes of the (last) [COLOR] element as an ARGB
      quadruple, and the cue points are those of the [CUE] elements in
      order, each with the index at byte 1, the big-endian u32 position at
      bytes 2-5, the RGB colour at bytes 7-9 and the NUL-terminated name
      from byte 12;
    - whenever the payload is decoded, colour and cue points are those. *)
Theorem markers2_elements (es : list RawElement) (tail : list byte) :
  Forall wfElement es ->
  tail = [] \/ (exists t, tail = x00 :: t) ->
  TrackMetaDataParser.parseMarkers2Payload (markers2Payload es tail)
  = TrackMetaDataParser.parseMarkers2Payload
      (markers2Payload (filter knownElement es) tail)
  /\ (forallb elementDecodes es = true ->
      exists res,
        TrackMetaDataParser.parseMarkers2Payload (markers2Payload es tail)
        = OK res
        /\ TrackMetaDataParser.m2color res
           = (fun e => colorOf (rawData e))
               <$> last (filter (fun e => elementName e = str "COLOR") es)
        /\ TrackMetaDataParser.m2cuePoints res
           = map (fun e => cueOf (rawData e))
               (filter (fun e => elementName e = str "CUE") es))
  /\ (forall res,
      TrackMetaDataParser.parseMarkers2Payload (markers2Payload es tail)
      = OK res ->
      TrackMetaDataParser.m2color res
      = (fun e => colorOf (rawData e))
          <$> last (filter (fun e => elementName e = str "COLOR") es)
      /\ TrackMetaDataParser.m2cuePoints res
         = map (fun e => cueOf (rawData e))
             (filter (fun e => elementName e = str "CUE") es)).
Proof.
  intros Hwf Htail.
  assert (Hvalues : forall res,
    TrackMetaDataParser.parseMarkers2Payload (markers2Payload es tail)
    = OK res ->
    TrackMetaDataParser.m2color res
    = (fun e => colorOf (rawData e))
        <$> last (filter (fun e => elementName e = str "COLOR") es)
    /\ TrackMetaDataParser.m2cuePoints res
       = map (fun e => cueOf (rawData e))
           (filter (fun e => elementName e = str "CUE") es)).
  { intros res H. rewrite parseMarkers2Payload_elements in H by auto.
    apply applyElements_values in H as [Hc Hq]. rewrite Hc, Hq. cbn.
    split; [|reflexivity]. destruct (last _); reflexivity. }
  split; [|split; [|exact Hvalues]].
  - rewrite !parseMarkers2Payload_elements;
      auto using applyElements_known.
    rewrite Forall_forall in *. intros e He.
    apply list_elem_of_filter in He as [_ He]. auto.
  - intros Hall.
    destruct (applyElements_decodes es TrackMetaDataParser.emptyMarker2Data)
      as [_ Hdec].
    destruct (Hdec Hall) as (res & Hres & _).
    rewrite <- parseMarkers2Payload_elements with (tail := tail) in Hres
      by auto.
    exists res. split; [exact Hres|]. now apply Hvalues.
Qed.

Lemma markers2_elements_witness :
  exists res,
    TrackMetaDataParser.parseMarkers2Payload
      (markers2Payload
         [mkRawElement (list_byte_of_string "COLOR") [xff; x00; xff; x80];
          mkRawElement (list_byte_of_string "CUE")
            ([x00; x02; x00; x00; x05; xdc; x00; x0a; x14; x1e; x00; x00]
             ++ list_byte_of_string "Intro" ++ [x00]);
          mkRawElement (list_byte_of_string "XYZZY") [x01; x02; x03]]
         [x00]) = OK res
    /\ TrackMetaDataParser.m2color res = Some (255, 0, 255, 128)
    /\ TrackMetaDataParser.m2cuePoints res
       = [TrackMetaDataParser.mkCuePoint 2 1500 (10, 20, 30) (str "Intro")].
Proof.
  destruct (markers2_elements
    [mkRawElement (list_byte_of_string "COLOR") [xff; x00; xff; x80];
     mkRawElement (list_byte_of_string "CUE")
       ([x00; x02; x00; x00; x05; xdc; x00; x0a; x14; x1e; x00; x00]
        ++ list_byte_of_string "Intro" ++ [x00]);
     mkRawElement (list_byte_of_string "XYZZY") [x01; x02; x03]]
    [x00]) as (_ & H & _).
  - repeat constructor; try (vm_compute; congruence).
  - right. eexists. reflexivity.
  - destruct H as (res & Hres & Hc & Hq); [vm_compute; reflexivity|].
    exists res. split; [exact Hres|].
    rewrite Hc, Hq. split; vm_compute; reflexivity.
Defined.

(** *** The beat grid needs its declared size *)

Lemma getFloat32_OK_inside (v : DataView) (i : Z) (f : float32) :
  getFloat32 v i = OK f -> 0 <= i /\ i + 4 <= byteLength v.
Proof.
  unfold getFloat32. intros H.
  destruct (getBytes_cases v i 4) as [E|(bs & E & _ & ? & ?)];
    rewrite E in H; [discriminate|lia].
Qed.

Lemma getUint32_OK_inside (v : DataView) (i n : Z) :
  getUint32 v i = OK n -> 0 <= i /\ i + 4 <= byteLength v.
Proof.
  unfold getUint32. intros H.
  destruct (getBytes_cases v i 4) as [E|(bs & E & _ & ? & ?)];
    rewrite E in H; [discriminate|lia].
Qed.

Lemma beatGridMarkers_from_error (n : nat) (view : DataView) (numMarkers : Z) :
  forall (i : Z) (e : error),
  TrackMetaDataParser.beatGridMarkers_from n view numMarkers i = Throws e ->
  e = RangeError.
Proof.
  assert (Hf : forall j, returnsOrRangeError (getFloat32 view j)).
  { intros j. unfold getFloat32. apply returnsOrRangeError_bind;
      [apply getBytes_safe|intros; exact I]. }
  induction n as [|n IH]; intros i e;
    cbn [TrackMetaDataParser.beatGridMarkers_from]; [discriminate|].
  intros H. apply bind_error in H as [H|(pos & _ & H)];
    [eapply safe_error; [apply Hf|exact H]|].
  apply bind_error in H as [H|(m & _ & H)].
  - destruct (_ <? _); apply bind_error in H as [H|(? & _ & H)];
      try discriminate;
      [eapply safe_error; [apply getUint32_safe|exact H]
      |eapply safe_error; [apply Hf|exact H]].
  - apply bind_error in H as [H|(? & _ & H)]; [eapply IH, H|discriminate].
Qed.

(** X11. [parseSeratoBeatGrid] reads the count at bytes 2-5 and then 8 bytes
    for each marker: a tag of fewer than 6 bytes, or of fewer than
    [6 + 8 * count] bytes, raises [RangeError]; any tag that is long enough is
    decoded (the footer byte of the format is not read). *)
Theorem beatGrid_size (view : DataView) :
  wfView view ->
  (byteLength view < 6 ->
   TrackMetaDataParser.parseSeratoBeatGrid view = Throws RangeError)
  /\ (forall numMarkers : Z,
        getUint32 view 2 = OK numMarkers ->
        (byteLength view < 6 + numMarkers * 8 ->
         TrackMetaDataParser.parseSeratoBeatGrid view = Throws RangeError)
        /\ (6 + numMarkers * 8 <= byteLength view ->
            exists grid,
              TrackMetaDataParser.parseSeratoBeatGrid view = OK grid
              /\ Z.of_nat (length (TrackMetaDataParser.markers grid))
                 = numMarkers)).
Proof.
  intros Hwf. split.
  - intros Hlen. unfold TrackMetaDataParser.parseSeratoBeatGrid, getUint32.
    rewrite getBytes_outside by lia. reflexivity.
  - intros N HN. pose proof (getUint32_range _ _ _ HN) as Hrange.
    pose proof (getUint32_OK_inside _ _ _ HN) as Hsix. split.
    + intros Hshort.
      pose proof (parseSeratoBeatGrid_terminates view) as Hterm.
      destruct (TrackMetaDataParser.parseSeratoBeatGrid view)
        as [grid|e|] eqn:E; [|f_equal|now exfalso; apply Hterm].
      * exfalso. unfold TrackMetaDataParser.parseSeratoBeatGrid in E.
        rewrite HN in E. cbn [bind] in E.
        apply bind_OK in E as (ms & Hms & _).
        destruct (beatGridMarkers_from_shape view N _ _ _ Hms) as [Hlen Hshape].
        destruct (lookup_lt_is_Some_2 ms (Z.to_nat (N - 1))) as [m Hm]; [lia|].
        destruct (Hshape _ _ Hm) as (_ & _ & Hlast).
        destruct Hlast as (_ & b & Hb & _); [lia|].
        apply getFloat32_OK_inside in Hb. lia.
      * unfold TrackMetaDataParser.parseSeratoBeatGrid in E.
        rewrite HN in E. cbn [bind] in E.
        apply bind_error in E as [E|(? & _ & E)]; [|discriminate].
        eapply beatGridMarkers_from_error, E.
    + intros Hlong.
      destruct (parseSeratoBeatGrid_returns view N Hwf HN Hlong) as [grid Hg].
      exists grid. split; [exact Hg|].
      unfold TrackMetaDataParser.parseSeratoBeatGrid in Hg.
      rewrite HN in Hg. cbn [bind] in Hg.
      apply bind_OK in Hg as (ms & Hms & Hg). injection Hg as <-.
      destruct (beatGridMarkers_from_shape view N _ _ _ Hms) as [Hlen _].
      cbn [TrackMetaDataParser.markers]. lia.
Qed.

Lemma beatGrid_size_witness :
  TrackMetaDataParser.parseSeratoBeatGrid
    (wholeView [x01; x00; x00; x00; x00; x02;
                x00; x00; x00; x00; x00; x00; x00; x04;
                x41; x00; x00; x00; x42; xf0; x00]) = Throws RangeError.
Proof.
  apply (proj2 (beatGrid_size _ (wholeView_wf _)) 2);
    [reflexivity|vm_compute; reflexivity].
Defined.

(** ** [trackMetaDataParser.ts]: the track record *)

Section GeobFrames.

Import TrackMetaDataParser.

Context {Common : Type}.
Variable decodeBase64 : jsstring -> list byte.

Lemma applyGeob_other (result : TrackMetaData Common) (value : GEOBDir) :
  ~ seratoFrame value -> applyGeob decodeBase64 result value = result.
Proof.
  unfold seratoFrame, applyGeob. intros Hno.
  destruct (bool_decide (gtype value = _)) eqn:Et; cbn [negb]; [|reflexivity].
  apply bool_decide_eq_true in Et.
  rewrite !bool_decide_eq_false_2 by tauto. reflexivity.
Qed.

Lemma applyGeob_identity (result : TrackMetaData Common) (value : GEOBDir) :
  path (applyGeob decodeBase64 result value) = path result
  /\ trackId (applyGeob decodeBase64 result value) = trackId result
  /\ size (applyGeob decodeBase64 result value) = size result
  /\ common (applyGeob decodeBase64 result value) = common result.
Proof.
  unfold applyGeob.
  destruct (negb _); [auto|].
  destruct (bool_decide _);
    [destruct (parseSeratorMarkers2 _ _); cbn; auto|].
  destruct (bool_decide _);
    [destruct (parseSeratoBeatGrid _); cbn; auto|auto].
Qed.

Lemma fold_applyGeob_identity (geobs : list GEOBDir) :
  forall result : TrackMetaData Common,
  path (fold_left (applyGeob decodeBase64) geobs result) = path result
  /\ trackId (fold_left (applyGeob decodeBase64) geobs result) = trackId result
  /\ size (fold_left (applyGeob decodeBase64) geobs result) = size result
  /\ common (fold_left (applyGeob decodeBase64) geobs result) = common result.
Proof.
  induction geobs as [|value geobs IH]; intros result; [auto|].
  cbn [fold_left].
  destruct (IH (applyGeob decodeBase64 result value)) as (-> & -> & -> & ->).
  apply applyGeob_identity.
Qed.

End GeobFrames.

(** X12. The track reader looks at the GEOB frames of type
    [application/octet-stream] that are described as [Serato Markers2] or
    [Serato BeatGrid], and at no other: any other frame leaves the record as
    it is, and the record of a file is the record of the file without its
    other frames. *)
Theorem other_frames_ignored {Common : Type}
  (decodeBase64 : jsstring -> list byte) :
  (forall (result : TrackMetaDataParser.TrackMetaData Common)
          (value : TrackMetaDataParser.GEOBDir),
     ~ seratoFrame value ->
     TrackMetaDataParser.applyGeob decodeBase64 result value = result)
  /\ (forall (geobs : list TrackMetaDataParser.GEOBDir)
             (result : TrackMetaDataParser.TrackMetaData Common),
        fold_left (TrackMetaDataParser.applyGeob decodeBase64) geobs result
        = fold_left (TrackMetaDataParser.applyGeob decodeBase64)
            (filter seratoFrame geobs) result).
Proof.
  split; [apply applyGeob_other|].
  induction geobs as [|value geobs IH]; intros result; [reflexivity|].
  destruct (decide (seratoFrame value)) as [Hs|Hs].
  - rewrite filter_cons_True by exact Hs. cbn [fold_left]. apply IH.
  - rewrite filter_cons_False by exact Hs. cbn [fold_left].
    rewrite applyGeob_other by exact Hs. apply IH.
Qed.

(** X13. [parseTrackMetaData] fails only where the file cannot be read, with
    the reader's exception; once the file is read it returns a record,
    whatever the GEOB frames hold, and the frames never change the path, the
    track id, the size and the common fields of the record. A file without
    ID3v2 tags, or without GEOB frames, gives the bare record: no colour, no
    cue point, no loop, no beat grid, BPM not locked, no warning. *)
Theorem parseTrackMetaData_record {Common : Type}
  (decodeBase64 : jsstring -> list byte)
  (reader : jsstring -> result (TrackMetaDataParser.AudioFile Common))
  (path : jsstring) (trackId : nat) :
  (forall e : error,
     reader path = Throws e ->
     TrackMetaDataParser.parseTrackMetaData decodeBase64 reader path trackId
     = Throws e)
  /\ (forall file : TrackMetaDataParser.AudioFile Common,
        reader path = OK file ->
        exists meta,
          TrackMetaDataParser.parseTrackMetaData decodeBase64 reader path
            trackId = OK meta
          /\ TrackMetaDataParser.path meta = path
          /\ TrackMetaDataParser.trackId meta = trackId
          /\ TrackMetaDataParser.size meta = TrackMetaDataParser.fileSize file
          /\ TrackMetaDataParser.common meta
             = TrackMetaDataParser.fileCommon file
          /\ (TrackMetaDataParser.geobObjects file = None
              \/ TrackMetaDataParser.geobObjects file = Some [] ->
              meta = bareRecord path trackId file)).
Proof.
  unfold TrackMetaDataParser.parseTrackMetaData. split.
  - intros e ->. reflexivity.
  - intros file ->. cbn [bind].
    destruct (TrackMetaDataParser.geobObjects file) as [geobs|] eqn:Eg.
    + eexists. split; [reflexivity|].
      destruct (fold_applyGeob_identity decodeBase64 geobs
        (TrackMetaDataParser.mkTrackMetaData path trackId
           (TrackMetaDataParser.fileSize file)
           (TrackMetaDataParser.fileCommon file) None [] [] None false false))
        as (-> & -> & -> & ->).
      repeat (split; [reflexivity|]).
      intros [H|H]; [discriminate|]. injection H as ->. reflexivity.
    + eexists. split; [reflexivity|]. repeat (split; [reflexivity|]).
      intros _. reflexivity.
Qed.

(** ** [trackMetaDataParser.ts]: what a Markers2 frame replaces *)

Lemma applyElement_lock_set (r r' : TrackMetaDataParser.SeratorMarker2Data)
  (element : TrackMetaDataParser.Element) :
  TrackMetaDataParser.applyElement r element = OK r' ->
  is_Some (TrackMetaDataParser.m2bpmLock r) ->
  is_Some (TrackMetaDataParser.m2bpmLock r').
Proof.
  unfold TrackMetaDataParser.applyElement.
  repeat (destruct (bool_decide _)); intros H Hlock;
    repeat (apply bind_OK in H as (? & _ & H));
    injection H as <-; cbn [TrackMetaDataParser.m2bpmLock]; eauto.
Qed.

Lemma applyElements_lock_set (elements : list TrackMetaDataParser.Element) :
  forall r r' : TrackMetaDataParser.SeratorMarker2Data,
  TrackMetaDataParser.applyElements r elements = OK r' ->
  is_Some (TrackMetaDataParser.m2bpmLock r) ->
  is_Some (TrackMetaDataParser.m2bpmLock r').
Proof.
  induction elements as [|element rest IH]; intros r r';
    cbn [TrackMetaDataParser.applyElements].
  - now intros [= <-].
  - intros H Hlock. apply bind_OK in H as (r1 & H1 & H).
    eapply IH; [exact H|]. eapply applyElement_lock_set; eauto.
Qed.

(** X14. A Markers2 frame that is decoded replaces the cue points, the loops
    and the BPM lock of the record by its own (the lock is [false] when the
    frame holds no [BPMLOCK] element: the decoder never leaves it undefined,
    so the lock of an earlier frame is not kept); the colour is replaced when
    the frame holds one and kept otherwise; the beat grid and the warning flag
    are not touched. *)
Theorem markers2_frame_replaces {Common : Type}
  (decodeBase64 : jsstring -> list byte)
  (result : TrackMetaDataParser.TrackMetaData Common)
  (value : TrackMetaDataParser.GEOBDir)
  (markers : TrackMetaDataParser.SeratorMarker2Data) :
  TrackMetaDataParser.gtype value = str "application/octet-stream" ->
  TrackMetaDataParser.description value = str "Serato Markers2" ->
  TrackMetaDataParser.parseSeratorMarkers2 decodeBase64
    (wholeView (TrackMetaDataParser.gdata value)) = OK markers ->
  let result' := TrackMetaDataParser.applyGeob decodeBase64 result value in
  TrackMetaDataParser.cuePoints result'
  = TrackMetaDataParser.m2cuePoints markers
  /\ TrackMetaDataParser.loopEntries result'
     = TrackMetaDataParser.m2loopEntries markers
  /\ Some (TrackMetaDataParser.bpmLock result')
     = TrackMetaDataParser.m2bpmLock markers
  /\ TrackMetaDataParser.color result'
     = match TrackMetaDataParser.m2color markers with
       | Some c => Some c
       | None => TrackMetaDataParser.color result
       end
  /\ TrackMetaDataParser.beatGridMarkers result'
     = TrackMetaDataParser.beatGridMarkers result
  /\ TrackMetaDataParser.hasWarnings result'
     = TrackMetaDataParser.hasWarnings result.
Proof.
  intros Htype Hdesc Hparse. cbv zeta.
  assert (Hlock : is_Some (TrackMetaDataParser.m2bpmLock markers)).
  { unfold TrackMetaDataParser.parseSeratorMarkers2 in Hparse.
    apply bind_OK in Hparse as (s & _ & Hp).
    unfold TrackMetaDataParser.parseMarkers2Payload in Hp.
    destruct (_ && _); [|discriminate].
    apply bind_OK in Hp as (es & _ & Hp).
    eapply applyElements_lock_set; [exact Hp|]. cbn. eauto. }
  unfold TrackMetaDataParser.applyGeob.
  rewrite (bool_decide_eq_true_2 _ Htype). cbn [negb].
  rewrite (bool_decide_eq_true_2 _ Hdesc). rewrite Hparse.
  destruct Hlock as [b Hb]. rewrite Hb. cbn. repeat split; reflexivity.
Qed.

Lemma markers2_frame_replaces_witness :
  let decodeBase64 : jsstring -> list byte := fun _ =>
    markers2Payload
      [mkRawElement (list_byte_of_string "CUE")
         ([x00; x02; x00; x00; x05; xdc; x00; x0a; x14; x1e; x00; x00]
          ++ list_byte_of_string "Intro" ++ [x00])] [] in
  let before :=
    TrackMetaDataParser.mkTrackMetaData (str "a.mp3") 0 10 tt
      (Some (1, 2, 3, 4)) [] [] None true false in
  let after :=
    TrackMetaDataParser.applyGeob decodeBase64 before
      (TrackMetaDataParser.mkGEOBDir (str "application/octet-stream") []
         (str "Serato Markers2") [x41; x00]) in
  TrackMetaDataParser.bpmLock after = false
  /\ TrackMetaDataParser.color after = Some (1, 2, 3, 4)
  /\ TrackMetaDataParser.cuePoints after
     = [TrackMetaDataParser.mkCuePoint 2 1500 (10, 20, 30) (str "Intro")].
Proof.
  cbv zeta.
  edestruct (markers2_frame_replaces (Common := unit)
    (fun _ => markers2Payload
      [mkRawElement (list_byte_of_string "CUE")
         ([x00; x02; x00; x00; x05; xdc; x00; x0a; x14; x1e; x00; x00]
          ++ list_byte_of_string "Intro" ++ [x00])] [])
    (TrackMetaDataParser.mkTrackMetaData (str "a.mp3") 0 10 tt
       (Some (1, 2, 3, 4)) [] [] None true false)
    (TrackMetaDataParser.mkGEOBDir (str "application/octet-stream") []
       (str "Serato Markers2") [x41; x00]))
    as (Hcues & _ & Hlock & Hcolor & _);
    [reflexivity|reflexivity|vm_compute; reflexivity|].
  rewrite Hcues, Hcolor.
  split; [apply (inj Some); rewrite Hlock|split]; vm_compute; reflexivity.
Defined.

(** ** [cli.ts]: the crate list *)

Lemma ltString_irrefl (x : jsstring) : Cli.ltString x x = false.
Proof.
  induction x as [|a x IH]; [reflexivity|]. cbn [Cli.ltString].
  rewrite Z.ltb_irrefl, Z.eqb_refl, IH. reflexivity.
Qed.

Lemma leString_total : Total Cli.leString.
Proof.
  unfold Total, Cli.leString. intros x. induction x as [|a x IH]; intros y.
  - left. destruct y; reflexivity.
  - destruct y as [|b y]; [right; reflexivity|]. cbn [Cli.ltString].
    destruct (IH y) as [H|H]; rewrite H;
      destruct (Z.ltb_spec b a), (Z.ltb_spec a b), (Z.eqb_spec b a),
        (Z.eqb_spec a b); cbn; auto; lia.
Qed.

Lemma leString_trans : Transitive Cli.leString.
Proof.
  unfold Transitive, Cli.leString. intros x. induction x as [|a x IH]; intros y z.
  - intros _ _. destruct z; reflexivity.
  - destruct y as [|b y]; [discriminate|].
    destruct z as [|c z]; [discriminate|]. cbn [Cli.ltString].
    intros Hyx Hzy.
    apply orb_false_iff in Hyx as [Hba Hyx], Hzy as [Hcb Hzy].
    apply Z.ltb_ge in Hba, Hcb. apply orb_false_iff. split.
    + apply Z.ltb_ge. lia.
    + destruct (Z.eqb_spec c a) as [->|]; [|reflexivity]. cbn [andb].
      assert (b = a) by lia. subst b. rewrite Z.eqb_refl in Hyx, Hzy.
      cbn [andb] in Hyx, Hzy. now apply (IH y z).
Qed.

Lemma leString_antisymm : AntiSymm (=) Cli.leString.
Proof.
  unfold AntiSymm, Cli.leString. intros x. induction x as [|a x IH]; intros y.
  - destruct y; [reflexivity|discriminate].
  - destruct y as [|b y]; [discriminate|]. cbn [Cli.ltString].
    intros Hyx Hxy.
    apply orb_false_iff in Hyx as [Hba Hyx], Hxy as [Hab Hxy].
    apply Z.ltb_ge in Hba, Hab. assert (b = a) by lia. subst b.
    rewrite Z.eqb_refl in Hyx, Hxy. cbn [andb] in Hyx, Hxy.
    f_equal. now apply IH.
Qed.

(** The result of [sort] is the one list that holds the same strings in
    the order of their code units. *)
Lemma sort_unique (a other : list jsstring) :
  StronglySorted Cli.leString other -> other ≡ₚ a -> other = Cli.sort a.
Proof.
  intros Hsorted Hperm.
  apply (@StronglySorted_unique _ Cli.leString leString_antisymm); auto.
  - apply (@StronglySorted_merge_sort _ Cli.leString _ leString_trans
             leString_total).
  - unfold Cli.sort. now rewrite merge_sort_Permutation.
Qed.

Lemma crateSelected_true (includeCratesOnly : option (list jsstring))
  (crateFilter : option jsstring) (crateName : jsstring) :
  Cli.crateSelected includeCratesOnly crateFilter crateName = true
  <-> Cli.endsWith crateName (str ".crate") = true
      /\ (forall only, includeCratesOnly = Some only -> crateName ∈ only)
      /\ (forall f, crateFilter = Some f -> f <> [] ->
            includes crateName f = true).
Proof.
  unfold Cli.crateSelected.
  destruct (Cli.endsWith crateName (str ".crate")); cbn [negb];
    [|split; [discriminate|intros (? & _); discriminate]].
  destruct includeCratesOnly as [only|], crateFilter as [f|];
    repeat case_bool_decide; cbn [negb andb];
    try (destruct (includes crateName f) eqn:Hinc); cbn [negb];
    (split; [intros Hsel; try discriminate; repeat split; intros;
               simplify_eq; auto
            |intros (_ & H1 & H2); try reflexivity; exfalso;
               first [specialize (H1 _ eq_refl)|idtac];
               first [specialize (H2 _ eq_refl)|idtac];
               try tauto; try congruence; auto;
               try (match goal with
                    | Hne : ?f <> [], Himp : ?f <> [] -> _ = true |- _ =>
                        specialize (Himp Hne); congruence
                    end)]).
Qed.

(** X15. The crates that the program scans are the entries of the [Subcrates]
    listing that end in [.crate], are among the [-c] names when some were
    given and hold the [-f] text when one was given, each as often as the
    listing has it, in the order of their code units (whatever the order of
    the listing). *)
Theorem crateNameList_sorted (includeCratesOnly : option (list jsstring))
  (crateFilter : option jsstring) (subcratesFiles : list jsstring) :
  let names := Cli.crateNameList includeCratesOnly crateFilter subcratesFiles in
  StronglySorted Cli.leString names
  /\ names
     ≡ₚ List.filter (Cli.crateSelected includeCratesOnly crateFilter)
          subcratesFiles
  /\ (forall crateName : jsstring,
        crateName ∈ names
        <-> crateName ∈ subcratesFiles
            /\ Cli.endsWith crateName (str ".crate") = true
            /\ (forall only, includeCratesOnly = Some only -> crateName ∈ only)
            /\ (forall f, crateFilter = Some f -> f <> [] ->
                  includes crateName f = true))
  /\ (forall other : list jsstring,
        StronglySorted Cli.leString other -> other ≡ₚ names -> other = names).
Proof.
  cbv zeta. unfold Cli.crateNameList.
  set (kept := List.filter _ subcratesFiles).
  assert (Hperm : Cli.sort kept ≡ₚ kept)
    by (unfold Cli.sort; apply merge_sort_Permutation).
  split; [apply (@StronglySorted_merge_sort _ Cli.leString _ leString_trans
                   leString_total)|].
  split; [exact Hperm|]. split.
  - intros crateName. rewrite Hperm. unfold kept.
    rewrite list_elem_of_In, filter_In, <- list_elem_of_In.
    rewrite crateSelected_true. tauto.
  - intros other Hs Hp. apply sort_unique; [exact Hs|].
    now rewrite Hp, Hperm.
Qed.

(** ** [cli.ts]: the crate scan *)

Lemma scanTracks_keep (trackFilter : option jsstring)
  (tracks : list CrateParser.CrateTrack) :
  forall st : Cli.ScanState,
  Cli.crateList (fold_left (Cli.scanTrack trackFilter) tracks st)
  = Cli.crateList st
  /\ Cli.errors (fold_left (Cli.scanTrack trackFilter) tracks st)
     = Cli.errors st.
Proof.
  induction tracks as [|track tracks IH]; intros st; [auto|].
  cbn [fold_left]. destruct (IH (Cli.scanTrack trackFilter st track)) as [-> ->].
  unfold Cli.scanTrack. destruct (Cli.filteredOut _ _); [auto|].
  destruct (_ !! _); auto.
Qed.

Lemma scanCrates_from (fs : Util.FileSystem) (seratoDir : jsstring)
  (trackFilter : option jsstring) (crateNameList : list jsstring) :
  forall st : Cli.ScanState,
  let st' :=
    fold_left (Cli.scanCrate fs seratoDir trackFilter) crateNameList st in
  Cli.crateList st'
  = Cli.crateList st ++ omap (crateOf fs seratoDir) crateNameList
  /\ Cli.errors st'
     = Cli.errors st ++ omap (crateErrorOf fs seratoDir) crateNameList.
Proof.
  induction crateNameList as [|crateName names IH]; intros st; cbv zeta.
  - cbn. now rewrite !app_nil_r.
  - cbn [fold_left]. destruct (IH (Cli.scanCrate fs seratoDir trackFilter st
                                     crateName)) as [-> ->].
    rewrite !omap_cons_eq. unfold Cli.scanCrate, crateOf, crateErrorOf.
    destruct (CrateParser.parseCrate fs _) as [crate|err|].
    + destruct (scanTracks_keep trackFilter (CrateParser.tracks crate)
        (Cli.mkScanState (Cli.crateList st ++ [crate]) (Cli.trackList st)
           (Cli.trackPathIndex st) (Cli.errors st))) as [-> ->].
      cbn [Cli.crateList Cli.errors]. now rewrite <- app_assoc.
    + cbn [Cli.crateList Cli.errors]. now rewrite <- app_assoc.
    + auto.
Qed.

(** X16. Every crate file of the list gives either a crate or an entry of the
    error list, never both and never nothing: the crates that were parsed are
    kept in the order of the list, each failure is recorded with the name of
    its file and its exception, and a failure takes nothing away from the
    other crates. *)
Theorem scanCrates_partition (fs : Util.FileSystem) (seratoDir : jsstring)
  (trackFilter : option jsstring) (crateNameList : list jsstring) :
  let st := Cli.scanCrates fs seratoDir trackFilter crateNameList in
  Cli.crateList st = omap (crateOf fs seratoDir) crateNameList
  /\ Cli.errors st = omap (crateErrorOf fs seratoDir) crateNameList
  /\ (length (Cli.crateList st) + length (Cli.errors st)
      = length crateNameList)%nat.
Proof.
  cbv zeta. unfold Cli.scanCrates.
  destruct (scanCrates_from fs seratoDir trackFilter crateNameList
              Cli.initialScan) as [Hc He].
  cbn [Cli.initialScan Cli.crateList Cli.errors app] in Hc, He.
  rewrite Hc, He. split; [reflexivity|]. split; [reflexivity|].
  clear Hc He. induction crateNameList as [|crateName names IH]; [reflexivity|].
  rewrite !omap_cons_eq. unfold crateOf at 1, crateErrorOf at 1.
  pose proof (parseCrate_returns fs (Cli.cratePath seratoDir crateName)) as Hr.
  destruct (CrateParser.parseCrate fs _); cbn [length]; [lia|lia|congruence].
Qed.

(** X17. The playlist of a crate lists, in the order of the crate and with its
    repetitions, the positions in the track list of those of its paths that
    pass the track filter; the paths that the filter rejects are left out of
    the playlist. *)
Theorem playlist_in_crate_order (fs : Util.FileSystem) (seratoDir : jsstring)
  (trackFilter : option jsstring) (crateNameList : list jsstring)
  (crate : CrateParser.Crate) :
  let st := Cli.scanCrates fs seratoDir trackFilter crateNameList in
  crate ∈ Cli.crateList st ->
  map (fun i => indexedPaths st !! i)
    (Cli.playlistTracks (Cli.trackPathIndex st) crate)
  = map Some (filter (passesFilter trackFilter)
                (map CrateParser.path (CrateParser.tracks crate))).
Proof.
  intros st Hcrate.
  destruct (scanCrates_spec trackFilter fs seratoDir crateNameList
              Cli.initialScan initialScan_invariant eq_refl)
    as [[Hnd Hidx] Hpaths].
  fold (Cli.scanCrates fs seratoDir trackFilter crateNameList) in Hnd, Hidx, Hpaths.
  fold st in Hnd, Hidx, Hpaths.
  assert (Hsome : forall p : jsstring,
        p ∈ sightedPaths (Cli.crateList st) ->
        (passesFilter trackFilter p ->
         exists i, Cli.trackPathIndex st !! p = Some i
                   /\ indexedPaths st !! i = Some p)
        /\ (~ passesFilter trackFilter p -> Cli.trackPathIndex st !! p = None)).
  { intros p Hp.
    destruct (firstSeen_spec
      (filter (passesFilter trackFilter) (sightedPaths (Cli.crateList st))))
      as [_ Hmem].
    split.
    - intros Hpass.
      assert (Hin : p ∈ indexedPaths st)
        by (rewrite Hpaths, Hmem, list_elem_of_filter; auto).
      apply list_elem_of_lookup in Hin as [i Hi].
      exists i. split; [now apply Hidx|exact Hi].
    - intros Hno. destruct (Cli.trackPathIndex st !! p) as [i|] eqn:E;
        [|reflexivity].
      apply Hidx in E. apply list_elem_of_lookup_2 in E.
      rewrite Hpaths, Hmem, list_elem_of_filter in E. tauto. }
  assert (Hsighted : forall t, t ∈ CrateParser.tracks crate ->
                       CrateParser.path t ∈ sightedPaths (Cli.crateList st)).
  { intros t Ht. unfold sightedPaths. apply list_elem_of_In, in_concat.
    exists (map CrateParser.path (CrateParser.tracks crate)). split.
    - apply (in_map (fun c => map CrateParser.path (CrateParser.tracks c))).
      now apply list_elem_of_In.
    - apply in_map. now apply list_elem_of_In. }
  unfold Cli.playlistTracks. clear Hcrate.
  induction (CrateParser.tracks crate) as [|t ts IH]; [reflexivity|].
  rewrite omap_cons_eq. cbn [map].
  destruct (Hsome (CrateParser.path t)) as [Hpass Hno];
    [apply Hsighted; left|].
  specialize (IH (fun t' Ht' => Hsighted t' (list_elem_of_further _ _ _ Ht'))).
  destruct (decide (passesFilter trackFilter (CrateParser.path t))) as [Hp|Hp].
  - rewrite filter_cons_True by exact Hp.
    destruct (Hpass Hp) as (i & -> & Hi). cbn [map]. now rewrite Hi, IH.
  - rewrite filter_cons_False by exact Hp. now rewrite (Hno Hp).
Qed.

Lemma playlist_in_crate_order_witness :
  let fs : Util.FileSystem := fun _ =>
    Some (encodeAll
            [versionSection;
             Container (list_byte_of_string "otrk")
               [StringLeaf (list_byte_of_string "ptrk") (str "b.mp3")];
             Container (list_byte_of_string "otrk")
               [StringLeaf (list_byte_of_string "ptrk") (str "a.wav")];
             Container (list_byte_of_string "otrk")
               [StringLeaf (list_byte_of_string "ptrk") (str "b.mp3")]]) in
  let st := Cli.scanCrates fs (str "/s") (Some (str "mp3")) [str "A.crate"] in
  map (fun i => indexedPaths st !! i)
    (Cli.playlistTracks (Cli.trackPathIndex st)
       (CrateParser.mkCrate [str "A"] CrateParser.crateVersion
          [CrateParser.mkCrateTrack (str "b.mp3");
           CrateParser.mkCrateTrack (str "a.wav");
           CrateParser.mkCrateTrack (str "b.mp3")]))
  = [Some (str "b.mp3"); Some (str "b.mp3")].
Proof.
  cbv zeta.
  rewrite (playlist_in_crate_order _ (str "/s") (Some (str "mp3"))
             [str "A.crate"]).
  - vm_compute. reflexivity.
  - vm_compute. left.
Defined.

(** ** [cli.ts]: the track loop *)

Section TrackLoop.

Context {Common : Type}.
Variable decodeBase64 : jsstring -> list byte.
Variable reader : jsstring -> result (TrackMetaDataParser.AudioFile Common).
Variable resolve : jsstring -> jsstring.
Variable mountPath : jsstring.
Variable musicDir : option jsstring.

Lemma loadTrack_step
  (acc : gmap nat (TrackMetaDataParser.TrackMetaData Common)
         * list Cli.ScanError)
  (i : nat) (track : CrateParser.CrateTrack) :
  Cli.loadTrack decodeBase64 reader resolve mountPath musicDir acc i track
  = (match recordOf decodeBase64 reader resolve mountPath musicDir i track
     with
     | Some meta => <[i := meta]> acc.1
     | None => acc.1
     end,
     acc.2
     ++ match trackErrorOf decodeBase64 reader resolve mountPath musicDir
                i track
        with
        | Some err => [err]
        | None => []
        end).
Proof.
  unfold Cli.loadTrack, recordOf, trackErrorOf, inLibrary.
  destruct acc as [metas errs]. cbn [fst snd].
  destruct musicDir as [dir|]; cbn [negb].
  - destruct (bool_decide (dir = [])); cbn [negb andb orb].
    + destruct (TrackMetaDataParser.parseTrackMetaData _ _ _ _);
        now rewrite ?app_nil_r.
    + destruct (Cli.startsWith _ dir); cbn [negb]; [|reflexivity].
      destruct (TrackMetaDataParser.parseTrackMetaData _ _ _ _);
        now rewrite ?app_nil_r.
  - destruct (TrackMetaDataParser.parseTrackMetaData _ _ _ _);
      now rewrite ?app_nil_r.
Qed.

(** The loop from the position [k] on, over a table [acc] of earlier
    records. *)
Lemma loadTracks_from_spec (tracks : list CrateParser.CrateTrack) :
  forall (acc : gmap nat (TrackMetaDataParser.TrackMetaData Common)
                * list Cli.ScanError) (k : nat),
  (forall i : nat,
     (Cli.loadTracks_from decodeBase64 reader resolve mountPath musicDir
        acc k tracks).1 !! i
     = match (if decide (k <= i)%nat
              then tracks !! (i - k)%nat
                   ≫= recordOf decodeBase64 reader resolve mountPath
                        musicDir i
              else None) with
       | Some meta => Some meta
       | None => acc.1 !! i
       end)
  /\ (Cli.loadTracks_from decodeBase64 reader resolve mountPath musicDir
        acc k tracks).2
     = acc.2
       ++ omap id
            (imap (fun j => trackErrorOf decodeBase64 reader resolve
                              mountPath musicDir (k + j)) tracks).
Proof.
  induction tracks as [|track rest IH]; intros acc k.
  - cbn. split; [|now rewrite app_nil_r].
    intros i. destruct (decide _); reflexivity.
  - cbn [Cli.loadTracks_from].
    destruct (IH (Cli.loadTrack decodeBase64 reader resolve mountPath
                    musicDir acc k track) (S k)) as [IH1 IH2].
    split.
    + intros i. rewrite IH1, loadTrack_step. cbn [fst].
      destruct (decide (S k <= i)%nat) as [Hgt|Hle].
      * rewrite decide_True by lia.
        replace (i - k)%nat with (S (i - S k)) by lia.
        replace ((track :: rest) !! S (i - S k)) with (rest !! (i - S k)%nat)
          by reflexivity.
        destruct (rest !! (i - S k)%nat ≫= _); [reflexivity|].
        destruct (recordOf _ _ _ _ _ k track); [|reflexivity].
        apply lookup_insert_ne. lia.
      * destruct (decide (k <= i)%nat) as [Hk|Hk].
        -- assert (i = k) by lia. subst i. rewrite Nat.sub_diag.
           replace ((track :: rest) !! 0%nat) with (Some track) by reflexivity.
           cbn [mbind option_bind].
           destruct (recordOf _ _ _ _ _ k track);
             [apply lookup_insert_eq|reflexivity].
        -- destruct (recordOf _ _ _ _ _ k track); [|reflexivity].
           apply lookup_insert_ne. lia.
    + rewrite IH2, loadTrack_step. cbn [snd]. rewrite imap_cons.
      rewrite omap_cons_eq, Nat.add_0_r. rewrite <- app_assoc. f_equal.
      assert (Himap :
        imap (fun j => trackErrorOf decodeBase64 reader resolve mountPath
                         musicDir (S k + j)) rest
        = imap ((fun j => trackErrorOf decodeBase64 reader resolve mountPath
                            musicDir (k + j)) ∘ S) rest).
      { apply imap_ext. intros j x _. cbn. f_equal. lia. }
      rewrite Himap. destruct (trackErrorOf _ _ _ _ _ k track); reflexivity.
Qed.

End TrackLoop.

(** X18. The track loop fills the table of records by position: the entry [i]
    is the record of the track at position [i] of the track list, read with
    the track id [i], when the track passes the library check and its file is
    read, and is left empty otherwise; there is no entry beyond the track
    list. The failures are recorded in the order of the tracks. *)
Theorem loadTracks_by_position {Common : Type}
  (decodeBase64 : jsstring -> list byte)
  (reader : jsstring -> result (TrackMetaDataParser.AudioFile Common))
  (resolve : jsstring -> jsstring) (mountPath : jsstring)
  (musicDir : option jsstring) (tracks : list CrateParser.CrateTrack) :
  let out :=
    Cli.loadTracks_from decodeBase64 reader resolve mountPath musicDir
      (∅, []) 0 tracks in
  (forall i : nat,
     out.1 !! i
     = tracks !! i
       ≫= recordOf decodeBase64 reader resolve mountPath musicDir i)
  /\ (forall (i : nat) (meta : TrackMetaDataParser.TrackMetaData Common),
        out.1 !! i = Some meta ->
        (i < length tracks)%nat /\ TrackMetaDataParser.trackId meta = i)
  /\ out.2
     = omap id
         (imap (trackErrorOf decodeBase64 reader resolve mountPath musicDir)
            tracks).
Proof.
  cbv zeta.
  destruct (loadTracks_from_spec decodeBase64 reader resolve mountPath
              musicDir tracks (∅, []) 0) as [H1 H2].
  assert (Hentry : forall i : nat,
    (Cli.loadTracks_from decodeBase64 reader resolve mountPath musicDir
       (∅, []) 0 tracks).1 !! i
    = tracks !! i
      ≫= recordOf decodeBase64 reader resolve mountPath musicDir i).
  { intros i. rewrite H1. rewrite decide_True by lia. rewrite Nat.sub_0_r.
    cbn [fst]. rewrite lookup_empty. now destruct (_ ≫= _). }
  split; [exact Hentry|]. split.
  - intros i meta. rewrite Hentry.
    destruct (tracks !! i) as [track|] eqn:Ht; [|discriminate].
    cbn [mbind option_bind]. intros Hrec.
    split; [eapply lookup_lt_Some, Ht|].
    unfold recordOf in Hrec. destruct (inLibrary _ _); [|discriminate].
    unfold TrackMetaDataParser.parseTrackMetaData in Hrec.
    destruct (reader _) as [file|e|]; cbn [bind] in Hrec; try discriminate.
    destruct (TrackMetaDataParser.geobObjects file) as [geobs|];
      injection Hrec as <-; [|reflexivity].
    now destruct (fold_applyGeob_identity decodeBase64 geobs
      (TrackMetaDataParser.mkTrackMetaData
         (resolve (mountPath ++ str "/" ++ CrateParser.path track)) i
         (TrackMetaDataParser.fileSize file)
         (TrackMetaDataParser.fileCommon file) None [] [] None false false))
      as (_ & H & _).
  - rewrite H2. reflexivity.
Qed.

(** ** [cli.ts]: the folder objects *)

Section Folders.

Import Cli RekordboxExporter.

(** A second request for the folder of a path returns the object of the
    first and changes nothing. *)
Lemma getParentFolder_again (path : list jsstring) (st : TreeState) :
  registryInvariant st ->
  getParentFolder path (getParentFolder path st).2 = getParentFolder path st.
Proof.
  intros Hinv. destruct path as [|segment path].
  - reflexivity.
  - unfold getParentFolder at 2 3.
    destruct (getParentFolder_rev_spec (rev (segment :: path)) st Hinv)
      as (_ & _ & _ & _ & _ & Hkey & _).
    rewrite rev_involutive in Hkey.
    destruct (getParentFolder_rev (rev (segment :: path)) st)
      as [folder st'] eqn:E.
    cbn [fst snd] in *.
    apply getParentFolder_registered; [discriminate|].
    apply Hkey. intros Hnil. apply (f_equal (@length jsstring)) in Hnil.
    rewrite length_rev in Hnil. discriminate.
Qed.

Lemma getParentFolder_rev_length (rpath : list jsstring) :
  forall st : TreeState,
  (length (heap (getParentFolder_rev rpath st).2)
   <= length (heap st) + length rpath)%nat.
Proof.
  induction rpath as [|segment localPath IH]; intros st;
    cbn [getParentFolder_rev]; [cbn; lia|].
  destruct (folders st !! _); [cbn; lia|].
  match goal with
  | |- context [getParentFolder_rev localPath ?s] =>
      specialize (IH s); destruct (getParentFolder_rev localPath s)
  end.
  cbn [fst snd length] in *. rewrite pushChild_length.
  cbn [heap] in IH. rewrite length_app in IH. cbn [length] in IH. lia.
Qed.

(** *** The playlists of the folder objects *)

Lemma playlistsOf_app (h1 h2 : list RecordboxFolder) :
  playlistsOf (h1 ++ h2) = playlistsOf h1 ++ playlistsOf h2.
Proof. unfold playlistsOf. now rewrite map_app, concat_app. Qed.

Lemma pushChild_playlists (ref : nat) (node : RecordboxPlaylistNode)
  (st : TreeState) :
  (ref < length (heap st))%nat ->
  playlistsOf (heap (pushChild ref node st))
  ≡ₚ (if isPlaylist node then [node] else []) ++ playlistsOf (heap st).
Proof.
  intros Href. unfold pushChild. cbn [heap].
  destruct (lookup_lt_is_Some_2 (heap st) ref Href) as [f Hf].
  rewrite <- (take_drop_middle (heap st) ref f Hf) at 2.
  assert (Halter : alter (fun f => mkFolder (name f) (children f ++ [node]))
                     ref (heap st)
                   = take ref (heap st)
                     ++ mkFolder (name f) (children f ++ [node])
                     :: drop (S ref) (heap st)).
  { rewrite <- (take_drop_middle (heap st) ref f Hf) at 1.
    rewrite alter_app_r_alt by (rewrite length_take; lia).
    rewrite length_take, Nat.min_l by lia. rewrite Nat.sub_diag. reflexivity. }
  rewrite Halter.
  rewrite !playlistsOf_app.
  change (playlistsOf (?x :: ?l)) with
    (List.filter isPlaylist (children x) ++ playlistsOf l).
  cbn [children]. rewrite List.filter_app. cbn [List.filter].
  destruct (isPlaylist node); cbn [app].
  - rewrite <- !app_assoc. cbn [app].
    rewrite (Permutation_middle (playlistsOf (take ref (heap st)))).
    apply Permutation_app_head.
    rewrite <- Permutation_middle. reflexivity.
  - now rewrite app_nil_r.
Qed.

Lemma getParentFolder_rev_playlists (rpath : list jsstring) :
  forall st : TreeState,
  registryInvariant st ->
  playlistsOf (heap (getParentFolder_rev rpath st).2)
  ≡ₚ playlistsOf (heap st).
Proof.
  induction rpath as [|segment localPath IH]; intros st Hinv;
    cbn [getParentFolder_rev]; [reflexivity|].
  destruct (folders st !! _) eqn:Hkey; [reflexivity|].
  match goal with
  | |- context [getParentFolder_rev localPath ?s] => set (st1 := s)
  end.
  assert (Hinv1 : registryInvariant st1)
    by (apply register_invariant; assumption).
  specialize (IH st1 Hinv1).
  destruct (getParentFolder_rev_spec localPath st1 Hinv1)
    as (_ & Hparent & _).
  destruct (getParentFolder_rev localPath st1) as [parent st2].
  cbn [fst snd] in *.
  rewrite pushChild_playlists by exact Hparent. cbn [isPlaylist app].
  rewrite IH. unfold st1. cbn [heap]. rewrite playlistsOf_app.
  cbn. now rewrite app_nil_r.
Qed.

End Folders.

(** X19. A folder is identified by its path joined with ['/']: a request
    for a path whose key is registered returns the registered object and
    changes nothing.  So the request made again returns the object of the
    first request, and so does the request for any other path with the same
    key; a path whose key is [ROOT] is resolved to the root folder.  Each
    request creates at most one folder object for each segment of its
    path. *)
Theorem getParentFolder_shared (path : list jsstring) (st : Cli.TreeState) :
  registryInvariant st ->
  Cli.getParentFolder path (Cli.getParentFolder path st).2
  = Cli.getParentFolder path st
  /\ (forall path' : list jsstring,
        path <> [] -> path' <> [] ->
        join (str "/") path' = join (str "/") path ->
        Cli.getParentFolder path' (Cli.getParentFolder path st).2
        = Cli.getParentFolder path st)
  /\ (forall path' : list jsstring,
        path' <> [] -> join (str "/") path' = str "ROOT" ->
        Cli.getParentFolder path' st = (0%nat, st))
  /\ (length (Cli.heap (Cli.getParentFolder path st).2)
      <= length (Cli.heap st) + length path)%nat.
Proof.
  intros Hinv. split; [now apply getParentFolder_again|]. split; [|split].
  - intros path' Hne Hne' Hkey.
    pose proof (getParentFolder_again path st Hinv) as Hagain.
    destruct (Cli.getParentFolder path st) as [folder st'] eqn:E.
    cbn [fst snd] in *.
    assert (Hreg : Cli.folders st' !! join (str "/") path = Some folder).
    { unfold Cli.getParentFolder in E.
      destruct (getParentFolder_rev_spec (rev path) st Hinv)
        as (_ & _ & _ & _ & _ & Hk & _).
      rewrite E, rev_involutive in Hk. cbn [fst snd] in Hk. apply Hk.
      intros Hnil. apply (f_equal (@length jsstring)) in Hnil.
      rewrite length_rev in Hnil. destruct path; [congruence|discriminate]. }
    apply getParentFolder_registered; [exact Hne'|]. now rewrite Hkey.
  - intros path' Hne' Hkey. apply getParentFolder_registered; [exact Hne'|].
    rewrite Hkey. now destruct Hinv as (Hroot & _).
  - unfold Cli.getParentFolder.
    rewrite <- (length_rev path). apply getParentFolder_rev_length.
Qed.

Lemma getParentFolder_shared_witness :
  let st := (Cli.getParentFolder [str "A"; str "B"] Cli.initialTree).2 in
  Cli.getParentFolder [str "A/B"] st
  = Cli.getParentFolder [str "A"; str "B"] Cli.initialTree
  /\ (length (Cli.heap st) <= 3)%nat.
Proof.
  cbv zeta.
  destruct (getParentFolder_shared [str "A"; str "B"] Cli.initialTree
              initialTree_invariant) as (_ & Hkey & _ & Hlen).
  split; [|exact Hlen].
  apply Hkey; [discriminate|discriminate|reflexivity].
Defined.

(** X20. The folder objects hold one playlist for each crate of the crate
    list, no more and no less, each named by the last segment of the crate
    name and holding the track positions of the crate. *)
Theorem one_playlist_per_crate (trackPathIndex : gmap jsstring nat)
  (crateList : list CrateParser.Crate) :
  playlistsOf (Cli.heap (Cli.buildTree trackPathIndex crateList))
  ≡ₚ map (playlistOf trackPathIndex) crateList.
Proof.
  unfold Cli.buildTree.
  assert (Hgen : forall st : Cli.TreeState,
    registryInvariant st ->
    playlistsOf (Cli.heap (fold_left (Cli.placeCrate trackPathIndex)
                             crateList st))
    ≡ₚ playlistsOf (Cli.heap st) ++ map (playlistOf trackPathIndex) crateList).
  { induction crateList as [|crate crates IH]; intros st Hinv.
    - cbn. now rewrite app_nil_r.
    - cbn [fold_left map].
      rewrite IH by (now apply placeCrate_spec).
      rewrite <- Permutation_middle, app_comm_cons.
      apply Permutation_app_tail.
      unfold Cli.placeCrate, Cli.getParentFolder.
      pose proof (getParentFolder_rev_playlists
                    (rev (removelast (CrateParser.name crate))) st Hinv) as Hp.
      destruct (getParentFolder_rev_spec
                  (rev (removelast (CrateParser.name crate))) st Hinv)
        as (_ & Hparent & _).
      destruct (Cli.getParentFolder_rev _ st) as [parent st'].
      cbn [fst snd] in *.
      rewrite pushChild_playlists by exact Hparent. cbn [isPlaylist app].
      now rewrite Hp. }
  rewrite (Hgen Cli.initialTree initialTree_invariant). reflexivity.
Qed.

(** ** [cli.ts] and [rekordboxExporter.ts]: walking the folder objects *)

Section Walk.

Import Cli RekordboxExporter.

Lemma filter_length_sub {A : Type} (P Q : A -> Prop)
  `{!forall x, Decision (P x)} `{!forall x, Decision (Q x)}
  (l : list A) (y : A) :
  (forall x, P x -> Q x) -> y ∈ l -> Q y -> ~ P y ->
  (length (filter P l) < length (filter Q l))%nat.
Proof.
  intros Hsub Hy HQ HP.
  assert (Hle : forall l', (length (filter P l') <= length (filter Q l'))%nat).
  { induction l' as [|x l' IH]; [reflexivity|].
    destruct (decide (P x)) as [Hp|Hp].
    - rewrite (filter_cons_True P) by exact Hp.
      rewrite (filter_cons_True Q) by auto. cbn [length]. lia.
    - rewrite (filter_cons_False P) by exact Hp.
      destruct (decide (Q x)) as [Hq|Hq].
      + rewrite (filter_cons_True Q) by exact Hq. cbn [length]. lia.
      + rewrite (filter_cons_False Q) by exact Hq. exact IH. }
  induction l as [|x l IH]; [now apply elem_of_nil in Hy|].
  apply elem_of_cons in Hy as [<-|Hy].
  - rewrite (filter_cons_False P) by exact HP.
    rewrite (filter_cons_True Q) by exact HQ. cbn [length].
    specialize (Hle l). lia.
  - specialize (IH Hy). destruct (decide (P x)) as [Hp|Hp].
    + rewrite (filter_cons_True P) by exact Hp.
      rewrite (filter_cons_True Q) by auto. cbn [length]. lia.
    + rewrite (filter_cons_False P) by exact Hp.
      destruct (decide (Q x)) as [Hq|Hq].
      * rewrite (filter_cons_True Q) by exact Hq. cbn [length]. lia.
      * rewrite (filter_cons_False Q) by exact Hq. exact IH.
Qed.

(** On a heap whose folder references are ranked, the walk from a folder
    needs no more depth than there are folders of its rank or higher. *)
Lemma generatePlaylistNode_ranked (rank : nat -> nat)
  (heap : list RecordboxFolder) :
  ranked rank heap ->
  forall n id : nat,
  (id < length heap)%nat ->
  (length (filter (fun x => rank id <= rank x)%nat (seq 0 (length heap)))
   <= n)%nat ->
  is_Some (generatePlaylistNode n heap (FolderRef id)).
Proof.
  intros Hr. induction n as [|n IH]; intros id Hid Hcnt.
  - exfalso.
    assert (Hin : id ∈ filter (fun x => rank id <= rank x)%nat
                         (seq 0 (length heap))).
    { apply list_elem_of_filter. split; [lia|]. apply elem_of_seq. lia. }
    destruct (filter _ _); [now apply elem_of_nil in Hin|].
    cbn [length] in Hcnt. lia.
  - cbn [generatePlaylistNode].
    destruct (lookup_lt_is_Some_2 heap id Hid) as [f Hf]. rewrite Hf.
    cbn [mbind option_bind].
    assert (Hkids : is_Some (mapM (generatePlaylistNode n heap) (children f))).
    { apply mapM_is_Some, Forall_forall. intros node Hnode. cbn.
      destruct node as [child|nm ts]; [|destruct n; cbn; eauto].
      destruct (Hr id child f Hf Hnode) as [Hc Hrank]. apply IH; [exact Hc|].
      assert (Hlt :
        (length (filter (fun x => rank child <= rank x)%nat
                   (seq 0 (length heap)))
         < length (filter (fun x => rank id <= rank x)%nat
                     (seq 0 (length heap))))%nat).
      { apply (filter_length_sub _ _ _ id).
        - intros x. lia.
        - apply elem_of_seq. lia.
        - lia.
        - lia. }
      lia. }
    destruct Hkids as [kids Hkids]. rewrite Hkids. cbn. eauto.
Qed.

Lemma join_snoc (sep : jsstring) (l : list jsstring) (x : jsstring) :
  l <> [] -> join sep (l ++ [x]) = join sep l ++ sep ++ x.
Proof.
  induction l as [|a l IH]; [congruence|]. intros _.
  destruct l as [|b l]; [reflexivity|].
  change (join sep ((a :: b :: l) ++ [x]))
    with (a ++ sep ++ join sep ((b :: l) ++ [x])).
  rewrite IH by discriminate.
  change (join sep (a :: b :: l)) with (a ++ sep ++ join sep (b :: l)).
  now rewrite <- !app_assoc.
Qed.

Lemma keyRank_le (key : jsstring) : (keyRank key <= S (length key))%nat.
Proof. unfold keyRank. destruct (bool_decide _); lia. Qed.

Lemma pushChild_playlist_ranked (ref : nat) (nm : jsstring) (ts : list nat)
  (st : TreeState) :
  rankedByKey st -> rankedByKey (pushChild ref (PlaylistNode nm ts) st).
Proof.
  intros (rank & Hkeys & Hranked). exists rank. split; [exact Hkeys|].
  intros p child f Hf Hchild. rewrite pushChild_length.
  destruct (lookup_lt_is_Some_2 (heap st) p) as [f0 Hf0].
  { apply lookup_lt_Some in Hf. now rewrite pushChild_length in Hf. }
  rewrite (pushChild_heap_lookup ref p _ st f0 Hf0) in Hf. injection Hf as <-.
  destruct (decide (p = ref)); [|exact (Hranked _ _ _ Hf0 Hchild)].
  cbn [children] in Hchild. apply elem_of_app in Hchild as [Hold|Hnew].
  - exact (Hranked _ _ _ Hf0 Hold).
  - apply list_elem_of_singleton in Hnew. discriminate.
Qed.

Lemma getParentFolder_rev_ranked (rpath : list jsstring) :
  forall st : TreeState,
  registryInvariant st -> rankedByKey st ->
  rankedByKey (getParentFolder_rev rpath st).2.
Proof.
  induction rpath as [|segment localPath IH]; intros st Hinv Hrk;
    cbn [getParentFolder_rev]; [exact Hrk|].
  set (key := join (str "/") (rev (segment :: localPath))).
  destruct (folders st !! key) as [folder|] eqn:Hkey; [exact Hrk|].
  set (st1 := mkTreeState (heap st ++ [mkFolder segment []])
                (<[key := length (heap st)]> (folders st))).
  assert (Hinv1 : registryInvariant st1)
    by (apply register_invariant; assumption).
  assert (Hnotroot : key <> str "ROOT").
  { intros E. destruct Hinv as (Hroot & _). rewrite E in Hkey. congruence. }
  assert (Hrk1 : rankedByKey st1).
  { destruct Hrk as (rank & Hkeys & Hranked).
    pose proof Hinv as (_ & _ & Hvalid & _).
    exists (fun x => if decide (x = length (heap st)) then keyRank key
                     else rank x). split.
    - intros k id. unfold st1. cbn [folders].
      destruct (decide (key = k)) as [<-|Hne].
      + rewrite lookup_insert_eq. intros [= <-]. now rewrite decide_True.
      + rewrite lookup_insert_ne by exact Hne. intros Hk.
        pose proof (Hvalid _ _ Hk). rewrite decide_False by lia.
        now apply Hkeys.
    - intros parent child f. unfold st1. cbn [heap]. intros Hf Hchild.
      rewrite length_app. cbn [length].
      destruct (decide (parent < length (heap st))%nat) as [Hlt|Hge].
      + rewrite lookup_app_l in Hf by exact Hlt.
        destruct (Hranked _ _ _ Hf Hchild) as [Hc Hr].
        split; [lia|]. rewrite !decide_False by lia. exact Hr.
      + rewrite lookup_app_r in Hf by lia.
        destruct (parent - length (heap st))%nat; cbn in Hf;
          [|discriminate].
        injection Hf as <-. cbn in Hchild. now apply elem_of_nil in Hchild. }
  destruct (getParentFolder_rev_spec localPath st1 Hinv1)
    as (Hinv2 & Hparent & Hmono & Hlen & _ & Hpkey & Hproot).
  specialize (IH st1 Hinv1 Hrk1).
  destruct (getParentFolder_rev localPath st1) as [parent st2].
  cbn [fst snd] in *.
  destruct IH as (rank2 & Hkeys2 & Hranked2).
  exists rank2. split; [exact Hkeys2|].
  intros p child f Hf Hchild. rewrite pushChild_length.
  destruct (lookup_lt_is_Some_2 (heap st2) p) as [f0 Hf0].
  { apply lookup_lt_Some in Hf. now rewrite pushChild_length in Hf. }
  rewrite (pushChild_heap_lookup parent p _ st2 f0 Hf0) in Hf.
  injection Hf as <-.
  destruct (decide (p = parent)) as [->|Hne];
    [|exact (Hranked2 _ _ _ Hf0 Hchild)].
  cbn [children] in Hchild. apply elem_of_app in Hchild as [Hold|Hnew];
    [exact (Hranked2 _ _ _ Hf0 Hold)|].
  apply list_elem_of_singleton in Hnew. injection Hnew as ->.
  assert (HB : folders st2 !! key = Some (length (heap st))).
  { apply Hmono. unfold st1. cbn [folders]. apply lookup_insert_eq. }
  split.
  { unfold st1 in Hlen. cbn [heap] in Hlen. rewrite length_app in Hlen.
    cbn [length] in Hlen. lia. }
  rewrite (Hkeys2 _ _ HB).
  assert (Hkey_rank : keyRank key = S (length key))
    by (unfold keyRank; now rewrite bool_decide_eq_false_2).
  rewrite Hkey_rank.
  destruct localPath as [|segment' localPath'].
  - rewrite (Hproot eq_refl). destruct Hinv2 as (Hroot2 & _).
    rewrite (Hkeys2 _ _ Hroot2). unfold keyRank.
    rewrite bool_decide_eq_true_2 by reflexivity. lia.
  - rewrite (Hkeys2 _ _ (Hpkey ltac:(discriminate))).
    pose proof (keyRank_le (join (str "/") (rev (segment' :: localPath')))).
    assert (Hlonger : (length (join (str "/") (rev (segment' :: localPath')))
                       < length key)%nat).
    { unfold key. change (rev (segment :: segment' :: localPath'))
        with (rev (segment' :: localPath') ++ [segment]).
      rewrite join_snoc.
      - rewrite !length_app. change (length (str "/")) with 1%nat. lia.
      - intros Hnil. apply (f_equal (@length jsstring)) in Hnil.
        rewrite length_rev in Hnil. discriminate. }
    lia.
Qed.

Lemma initialTree_ranked : rankedByKey initialTree.
Proof.
  exists (fun _ => 0%nat). split.
  - intros key id H. unfold initialTree in H. cbn [folders] in H.
    apply lookup_singleton_Some in H as [<- _]. reflexivity.
  - intros parent child f Hf Hchild. unfold initialTree in Hf. cbn [heap] in Hf.
    destruct parent; cbn in Hf; [|discriminate].
    injection Hf as <-. cbn in Hchild. now apply elem_of_nil in Hchild.
Qed.

Lemma buildTree_ranked (trackPathIndex : gmap jsstring nat)
  (crateList : list CrateParser.Crate) :
  rankedByKey (buildTree trackPathIndex crateList).
Proof.
  unfold buildTree.
  generalize initialTree_invariant initialTree_ranked. generalize initialTree.
  induction crateList as [|crate crates IH]; intros st Hinv Hrk; [exact Hrk|].
  cbn [fold_left]. apply IH; [now apply placeCrate_spec|].
  unfold placeCrate, getParentFolder.
  pose proof (getParentFolder_rev_ranked
                (rev (removelast (CrateParser.name crate))) st Hinv Hrk) as H.
  destruct (getParentFolder_rev _ st) as [parent st']. cbn [snd] in H.
  now apply pushChild_playlist_ranked.
Qed.

End Walk.

(** X21. The walk of the exporter over the folder objects that the crate loop
    builds always ends and yields the tree of the root folder: the folder
    references name existing objects and form no cycle, whatever the crate
    names are, and the depth of the tree does not exceed the number of folder
    objects. *)
Theorem rootFolder_walk (trackPathIndex : gmap jsstring nat)
  (crateList : list CrateParser.Crate) :
  exists kids : list RekordboxExporter.PlaylistTree,
    Cli.rootFolder (Cli.buildTree trackPathIndex crateList)
    = Some (RekordboxExporter.Folder (str "ROOT") kids).
Proof.
  pose proof (buildTree_invariant trackPathIndex crateList)
    as (Hroot & [kids0 Hobj] & _).
  destruct (buildTree_ranked trackPathIndex crateList) as (rank & _ & Hranked).
  unfold Cli.rootFolder. rewrite Hroot. cbn [mbind option_bind].
  pose proof (lookup_lt_Some _ _ _ Hobj) as Hlen.
  destruct (generatePlaylistNode_ranked rank _ Hranked
              (length (Cli.heap (Cli.buildTree trackPathIndex crateList))) 0
              Hlen) as [tree Htree].
  { etransitivity; [apply length_filter|]. now rewrite length_seq. }
  rewrite Htree.
  destruct (length (Cli.heap (Cli.buildTree trackPathIndex crateList)));
    [lia|].
  cbn [RekordboxExporter.generatePlaylistNode] in Htree.
  rewrite Hobj in Htree. cbn [mbind option_bind] in Htree.
  destruct (mapM _ _) as [kids|]; [|discriminate].
  cbn in Htree. injection Htree as <-. eauto.
Qed.

(** ** [rekordboxExporter.ts]: colours *)

Lemma toString16_byte (x : Z) :
  0 <= x < 256 ->
  RekordboxExporter.padStart 2 48 (RekordboxExporter.toString16 x)
  = [RekordboxExporter.hexDigit (x / 16); RekordboxExporter.hexDigit (x mod 16)].
Proof.
  intros Hx. unfold RekordboxExporter.toString16.
  destruct (Z.lt_ge_cases x 16) as [Hlt|Hge].
  - assert (Hdiv : x / 16 = 0) by (apply Z.div_small; lia).
    assert (Hone : RekordboxExporter.toString16_from (Z.to_nat (Z.log2 x)) x []
                   = [RekordboxExporter.hexDigit (x mod 16)]).
    { destruct (Z.to_nat (Z.log2 x));
        cbn [RekordboxExporter.toString16_from]; [reflexivity|].
      now rewrite Hdiv. }
    rewrite Hone, Hdiv. reflexivity.
  - assert (Hlog : 4 <= Z.log2 x)
      by (change 4 with (Z.log2 16); apply Z.log2_le_mono; lia).
    destruct (Z.to_nat (Z.log2 x)) as [|n] eqn:En; [lia|].
    cbn [RekordboxExporter.toString16_from].
    assert (Hq : 1 <= x / 16 < 16)
      by (split; [apply Z.div_le_lower_bound; lia
                 |apply Z.div_lt_upper_bound; lia]).
    replace (x / 16 =? 0) with false by (symmetry; apply Z.eqb_neq; lia).
    assert (Htwo : RekordboxExporter.toString16_from n (x / 16)
                     [RekordboxExporter.hexDigit (x mod 16)]
                   = [RekordboxExporter.hexDigit (x / 16);
                      RekordboxExporter.hexDigit (x mod 16)]).
    { assert (Hdiv : x / 16 / 16 = 0) by (apply Z.div_small; lia).
      assert (Hmod : (x / 16) mod 16 = x / 16) by (apply Z.mod_small; lia).
      destruct n; cbn [RekordboxExporter.toString16_from];
        rewrite ?Hdiv, Hmod; reflexivity. }
    rewrite Htwo. reflexivity.
Qed.

Lemma toUpperCase_hexDigit (d : Z) :
  0 <= d < 16 ->
  RekordboxExporter.toUpperCase [RekordboxExporter.hexDigit d] = [upperHex d].
Proof.
  intros Hd. unfold RekordboxExporter.toUpperCase, RekordboxExporter.hexDigit,
    upperHex. cbn [map].
  destruct (Z.ltb_spec d 10).
  - replace (97 <=? 48 + d) with false by (symmetry; apply Z.leb_gt; lia).
    reflexivity.
  - replace (97 <=? 87 + d) with true by (symmetry; apply Z.leb_le; lia).
    replace (87 + d <=? 122) with true by (symmetry; apply Z.leb_le; lia).
    cbn [andb]. f_equal. lia.
Qed.

Lemma toUpperCase_byte (x : Z) :
  0 <= x < 256 ->
  RekordboxExporter.toUpperCase
    (RekordboxExporter.padStart 2 48 (RekordboxExporter.toString16 x))
  = hexByte x.
Proof.
  intros Hx. rewrite toString16_byte by exact Hx.
  change [RekordboxExporter.hexDigit (x / 16);
          RekordboxExporter.hexDigit (x mod 16)]
    with ([RekordboxExporter.hexDigit (x / 16)]
          ++ [RekordboxExporter.hexDigit (x mod 16)]).
  unfold RekordboxExporter.toUpperCase. rewrite map_app.
  fold (RekordboxExporter.toUpperCase [RekordboxExporter.hexDigit (x / 16)]).
  fold (RekordboxExporter.toUpperCase [RekordboxExporter.hexDigit (x mod 16)]).
  rewrite !toUpperCase_hexDigit; [reflexivity| |].
  - apply Z.mod_pos_bound. lia.
  - split; [apply Z.div_pos; lia|apply Z.div_lt_upper_bound; lia].
Qed.

(** X22. A colour whose channels are bytes is written as [0x] followed by two
    upper-case hexadecimal digits for each of red, green and blue; the alpha
    channel of an ARGB colour is dropped. *)
Theorem formatColor_hex (a r g b : Z) :
  0 <= r < 256 -> 0 <= g < 256 -> 0 <= b < 256 ->
  RekordboxExporter.formatColor (inr (a, r, g, b))
  = str "0x" ++ hexByte r ++ hexByte g ++ hexByte b
  /\ RekordboxExporter.formatColor (inl (r, g, b))
     = str "0x" ++ hexByte r ++ hexByte g ++ hexByte b.
Proof.
  intros Hr Hg Hb. unfold RekordboxExporter.formatColor.
  cbn [map join app].
  unfold RekordboxExporter.toUpperCase. rewrite !map_app.
  fold (RekordboxExporter.toUpperCase
          (RekordboxExporter.padStart 2 48 (RekordboxExporter.toString16 r))).
  fold (RekordboxExporter.toUpperCase
          (RekordboxExporter.padStart 2 48 (RekordboxExporter.toString16 g))).
  fold (RekordboxExporter.toUpperCase
          (RekordboxExporter.padStart 2 48 (RekordboxExporter.toString16 b))).
  rewrite !toUpperCase_byte by assumption. split; reflexivity.
Qed.

Lemma formatColor_hex_witness :
  RekordboxExporter.formatColor (inr (255, 39, 170, 225)) = str "0x27AAE1".
Proof.
  destruct (formatColor_hex 255 39 170 225) as [H _]; try lia.
  rewrite H. reflexivity.
Defined.

(** ** [util.ts]: the mount point of a directory *)

Section MountPoint.

Import Util.

Variable stat : jsstring -> StatOutcome.
Variable segments : list jsstring.
Variable d : Z.
Variable m : nat.

Hypothesis Hm : (1 <= m <= length segments)%nat.
Hypothesis Hsame :
  forall k : nat, (m <= k <= length segments)%nat ->
  directoryOn stat d (ancestorPath (take k segments)).
Hypothesis Hother :
  m = 1%nat
  \/ exists pathStats,
       stat (ancestorPath (take (m - 1) segments)) = StatOK pathStats
       /\ isDirectory pathStats = true /\ dev pathStats <> d.

Lemma rev_take_S (k : nat) :
  (k < length segments)%nat ->
  exists x, rev (take (S k) segments) = x :: rev (take k segments).
Proof.
  intros Hk. destruct (lookup_lt_is_Some_2 segments k Hk) as [x Hx].
  exists x. rewrite (take_S_r _ _ _ Hx), rev_app_distr. reflexivity.
Qed.

Lemma getDirStats_same (k : nat) :
  (m <= k <= length segments)%nat ->
  exists pathStats,
    getDirStatsOrThrow stat (ancestorPath (take k segments)) = Returns pathStats
    /\ dev pathStats = d.
Proof.
  intros Hk. destruct (Hsame k Hk) as (pathStats & Hstat & Hdir & Hdev).
  exists pathStats. unfold getDirStatsOrThrow. rewrite Hstat, Hdir.
  split; [reflexivity|exact Hdev].
Qed.

(** The loop, once it has seen the ancestor of [k + 1] segments on the
    device [d]. *)
Lemma resolveMountPath_rev_below (j : nat) :
  forall k : nat,
  (k + 1 = m + j)%nat -> (k < length segments)%nat ->
  resolveMountPath_rev stat (rev (take k segments)) (Some d)
    (Some (ancestorPath (take (S k) segments)))
  = Returns (ancestorPath (take m segments)).
Proof.
  induction j as [|j IH]; intros k Hk Hlen.
  - assert (Hmk : m = S k) by lia. pose proof Hother as Ho.
    rewrite Hmk in Ho |- *. clear Hk.
    destruct Ho as [H1|(pathStats & Hstat & Hdir & Hdev)].
    + assert (k = 0%nat) by lia. subst k. reflexivity.
    + replace (S k - 1)%nat with k in Hstat by lia.
      destruct k as [|k]; [cbn in Hstat|].
      * cbn [take rev resolveMountPath_rev]. cbn [default]. reflexivity.
      * destruct (rev_take_S k ltac:(lia)) as [x Hx].
        rewrite Hx. cbn [resolveMountPath_rev]. rewrite <- Hx, rev_involutive.
        fold (ancestorPath (take (S k) segments)).
        unfold getDirStatsOrThrow. rewrite Hstat, Hdir. cbn [negb].
        replace (dev pathStats =? d) with false
          by (symmetry; apply Z.eqb_neq; exact Hdev).
        reflexivity.
  - destruct k as [|k]; [lia|].
    destruct (rev_take_S k ltac:(lia)) as [x Hx].
    rewrite Hx. cbn [resolveMountPath_rev]. rewrite <- Hx, rev_involutive.
    fold (ancestorPath (take (S k) segments)).
    destruct (getDirStats_same (S k) ltac:(lia)) as (pathStats & Hs & Hd).
    rewrite Hs, Hd, Z.eqb_refl. cbn [negb]. apply IH; lia.
Qed.

Lemma resolveMountPath_rev_top :
  resolveMountPath_rev stat (rev segments) None None
  = Returns (ancestorPath (take m segments)).
Proof.
  assert (Hex : exists n, length segments = S n)
    by (destruct (length segments); [lia|eauto]).
  destruct Hex as [n Hn].
  destruct (rev_take_S n ltac:(lia)) as [x Hx].
  rewrite <- Hn, firstn_all in Hx.
  rewrite Hx. cbn [resolveMountPath_rev]. rewrite <- Hx, rev_involutive.
  fold (ancestorPath segments).
  destruct (getDirStats_same (length segments) ltac:(lia))
    as (pathStats & Hstats & Hdev).
  rewrite firstn_all in Hstats. rewrite Hstats, Hdev.
  destruct (decide (m = S n)) as [Hmn|Hmn].
  - (* the path is its own mount point *)
    pose proof (resolveMountPath_rev_below 0 n ltac:(lia) ltac:(lia)) as H.
    rewrite <- Hn, firstn_all in H. exact H.
  - pose proof (resolveMountPath_rev_below (S n - m) n ltac:(lia) ltac:(lia))
      as H.
    rewrite <- Hn, firstn_all in H. exact H.
Qed.

End MountPoint.

(** X23. [resolveMountPathOrThrow] walks up from the directory as long as it
    stays on the device of the directory: when the ancestors down to the one
    of [m] segments are directories on that device, and the next ancestor up
    is a directory on another device (or there is none), the result is the
    ancestor of [m] segments, the topmost directory of the device on the way
    to the root. The ancestor of the first segment of an absolute path is [/]. *)
Theorem resolveMountPath_mount_point (stat : jsstring -> Util.StatOutcome)
  (path : jsstring) (d : Z) (m : nat) :
  let segments := split (str "/") path in
  (1 <= m <= length segments)%nat ->
  (forall k : nat, (m <= k <= length segments)%nat ->
     directoryOn stat d (ancestorPath (take k segments))) ->
  m = 1%nat
  \/ (exists pathStats,
        stat (ancestorPath (take (m - 1) segments)) = Util.StatOK pathStats
        /\ Util.isDirectory pathStats = true /\ Util.dev pathStats <> d) ->
  Util.resolveMountPathOrThrow stat path
  = Util.Returns (ancestorPath (take m segments)).
Proof.
  intros segments Hm Hsame Hother. unfold Util.resolveMountPathOrThrow.
  fold segments. now apply (resolveMountPath_rev_top stat segments d m).
Qed.

Lemma resolveMountPath_mount_point_witness :
  let stat : jsstring -> Util.StatOutcome := fun p =>
    if bool_decide (p = str "/Volumes/USB/_Serato_")
       || bool_decide (p = str "/Volumes/USB")
    then Util.StatOK (Util.mkStats true 42)
    else if bool_decide (p = str "/Volumes") || bool_decide (p = str "/")
    then Util.StatOK (Util.mkStats true 1)
    else Util.StatENOENT in
  Util.resolveMountPathOrThrow stat (str "/Volumes/USB/_Serato_")
  = Util.Returns (str "/Volumes/USB").
Proof.
  cbv zeta.
  apply (resolveMountPath_mount_point _ (str "/Volumes/USB/_Serato_") 42 3).
  - vm_compute. lia.
  - intros k Hk. assert (Hcases : k = 3%nat \/ k = 4%nat)
      by (vm_compute in Hk; lia).
    destruct Hcases as [-> | ->]; eexists; vm_compute; eauto.
  - right. eexists. vm_compute. repeat split. discriminate.
Defined.
